(** * Voronoi diagram builder (src/src/voronoi_claude_web.ts)

    A shallow embedding of the TypeScript port of Raymond Hill's Fortune
    sweep, and the properties of it that the specification states.

    - JavaScript numbers are IEEE 754 binary64 values: they are modelled by
      Rocq's primitive floats, whose operations round as the JavaScript
      operators do and whose comparisons answer [false] on NaN.
    - Objects that the code shares and mutates (sites, vertices, edges, beach
      sections, circle events) live in typed stores and are named by their
      address; arrays are lists, [a[i]] is list lookup.
    - A method is a function from the world to a new world and an outcome:
      a returned value or a thrown exception.  The world reached when an
      exception is thrown keeps every mutation made before the throw, as in
      JavaScript. *)

From Stdlib Require Import Floats ZArith.
From stdpp Require Import base option list strings gmap.

Set Warnings "-inexact-float".
Set Default Proof Using "Type".

(** * JavaScript numbers *)

Module Num.

(** The tolerance the geometric comparisons use (the private field and the
    literals [1e-9] of the source). *)
Definition eps : float := 1e-9%float.

Definition ltb (a b : float) : bool := PrimFloat.ltb a b.
Definition leb (a b : float) : bool := PrimFloat.leb a b.
Definition gtb (a b : float) : bool := PrimFloat.ltb b a.
Definition geb (a b : float) : bool := PrimFloat.leb b a.
(** [a === b] and [a !== b] on numbers. *)
Definition eqb (a b : float) : bool := PrimFloat.eqb a b.
Definition neqb (a b : float) : bool := negb (PrimFloat.eqb a b).
(** Truthiness of a number: [0], [-0] and NaN are falsy. *)
Definition truthy (a : float) : bool :=
  negb (PrimFloat.eqb a 0%float) && PrimFloat.eqb a a.

Definition is_nan (a : float) : bool := PrimFloat.is_nan a.

End Num.

(** * Outcomes *)

(** What a [throw] carries: the engine's TypeError (a property read or a call
    on [undefined] or [null]), or the string the code throws itself. *)
Inductive exn : Type :=
  | TypeError
  | Thrown (msg : string).

(** A call returns a value, throws, or (for the loops of the source that the
    model runs on fuel) is cut off when the fuel runs out. *)
Inductive outcome (A : Type) : Type :=
  | Ret (a : A)
  | Throw (e : exn)
  | OutOfFuel.
Arguments Ret {A} a.
Arguments Throw {A} e.
Arguments OutOfFuel {A}.

Definition obind {A B} (m : outcome A) (k : A -> outcome B) : outcome B :=
  match m with
  | Ret a => k a
  | Throw e => Throw e
  | OutOfFuel => OutOfFuel
  end.

Declare Scope outcome_scope.
Delimit Scope outcome_scope with outcome.
Notation "'let!' x ':=' m 'in' k" := (obind m (fun x => k))
  (at level 10, x name, m at level 100, k at level 200) : outcome_scope.

(** [a[i].f]: reading a property of an array element raises a TypeError when
    the element is [undefined]. *)
Definition elemAt {A} (l : list A) (i : nat) : outcome A :=
  match l !! i with
  | Some a => Ret a
  | None => Throw TypeError
  end.

Definition returns {A} (o : outcome A) : Prop := exists a, o = Ret a.

(** * filterSimilarPoints *)

Record Point : Type := mkPoint { px : float; py : float }.

Module Filter.
Local Open Scope outcome_scope.

(** The test both loops and both wrap-around checks apply:
    [Math.abs(pt.x - nextPt.x) < threshold &&
     Math.abs(pt.y - nextPt.y) < threshold]. *)
Definition tooClose (threshold : float) (pt nextPt : Point) : bool :=
  Num.ltb (PrimFloat.abs (px pt - px nextPt)) threshold
  && Num.ltb (PrimFloat.abs (py pt - py nextPt)) threshold.

(** One turn of [for (let i = 0; i < points.length - 1; i++)]. *)
Definition markStep (points : list Point) (threshold : float)
    (acc : outcome (gset nat)) (i : nat) : outcome (gset nat) :=
  let! indexes := acc in
  let! pt := elemAt points i in
  let! nextPt := elemAt points (i + 1) in
  Ret (if tooClose threshold pt nextPt then {[i + 1]} ∪ indexes else indexes).

(** The set [indexesTooCloseToPrevious] after the loop and the wrap-around
    check.  For the empty array [points.length - 1] is [-1]: the loop does
    not run and both [points[0]] and [points[-1]] are [undefined], as are
    the two lookups at index [0] here. *)
Definition indexesTooCloseToPrevious (points : list Point) (threshold : float)
    : outcome (gset nat) :=
  let! indexes :=
    foldl (markStep points threshold) (Ret ∅) (seq 0 (length points - 1)) in
  let! pt := elemAt points 0 in
  let! nextPt := elemAt points (length points - 1) in
  Ret (if tooClose threshold pt nextPt
       then {[length points - 1]} ∪ indexes else indexes).

(** [points.filter((pt, i) => !indexes.has(i))]. *)
Definition filterByIndex (indexes : gset nat) (points : list Point)
    : list Point :=
  snd <$> filter (fun ip => ip.1 ∉ indexes) (imap pair points).

Definition filterSimilarPoints (points : list Point) (threshold : float)
    : outcome (list Point) :=
  let! indexes := indexesTooCloseToPrevious points threshold in
  let filteredPts := filterByIndex indexes points in
  let! pt2 := elemAt filteredPts 0 in
  let! nextPt2 := elemAt filteredPts (length filteredPts - 1) in
  Ret (if tooClose threshold pt2 nextPt2
       then removelast filteredPts else filteredPts).

(** The default value of the second parameter. *)
Definition defaultThreshold : float := 0.002%float.

(** ** The specification's reading of the function *)

(** Of the points after the first, remove each one whose predecessor is
    within the threshold; the last one is also removed when the first
    point is within the threshold. *)
Fixpoint dropNearPrevious (threshold : float) (first prev : Point)
    (l : list Point) : list Point :=
  match l with
  | [] => []
  | p :: l' =>
      let near :=
        tooClose threshold prev p
        || (match l' with [] => tooClose threshold first p | _ => false end) in
      (if near then [] else [p]) ++ dropNearPrevious threshold first p l'
  end.

(** Drop the new last point when it is within the threshold of the new
    first one. *)
Definition dropLastIfNearFirst (threshold : float) (l : list Point)
    : list Point :=
  match l, last l with
  | first :: _, Some lst =>
      if tooClose threshold first lst then removelast l else l
  | _, _ => l
  end.

Definition filterSimilarPoints_spec (threshold : float) (points : list Point)
    : list Point :=
  match points with
  | [] => []
  | first :: rest =>
      dropLastIfNearFirst threshold
        (first :: dropNearPrevious threshold first first rest)
  end.

(** ** Auxiliary notions for the proofs about filterSimilarPoints *)

(** Membership in the set the marking loop builds over the first [k]
    indices. *)
Definition markedUpTo (threshold : float) (points : list Point) (k j : nat) : Prop :=
  exists i pt nextPt, j = i + 1 /\ i < k /\ points !! i = Some pt
    /\ points !! j = Some nextPt /\ tooClose threshold pt nextPt = true.

(** [filterByIndex] on a suffix of the array that starts at index [k]. *)
Definition keepFrom (S : gset nat) (k : nat) (l : list Point) : list Point :=
  snd <$> filter (fun ip => ip.1 ∉ S) (imap (fun i p => (k + i, p)) l).

End Filter.

(** * The objects of the diagram *)

(** Addresses into the stores below, one store per class of object. *)
Abbreviation sref := nat (only parsing).
Abbreviation vref := nat (only parsing).
Abbreviation eref := nat (only parsing).
Abbreviation aref := nat (only parsing).
Abbreviation cref := nat (only parsing).

Record Site : Type := mkSite {
  s_x : float;
  s_y : float;
  voronoiId : option nat
}.

Record BBox : Type := mkBBox { xl : float; xr : float; yt : float; yb : float }.

Record Vertex : Type := mkVertex { v_x : float; v_y : float }.

(** [lSite] is always an object; [rSite] is [null] on a border edge; [va]
    and [vb] are [null] until the sweep or the clipper sets them. *)
Record Edge : Type := mkEdge {
  lSite : sref;
  rSite : option sref;
  va : option vref;
  vb : option vref
}.

Record Halfedge : Type := mkHalfedge {
  h_site : sref;
  h_edge : eref;
  angle : float
}.

Record Cell : Type := mkCell {
  c_site : sref;
  halfedges : list Halfedge;
  closeMe : bool
}.

(** A beach section: [createBeachsection] sets [site]; the links are those
    the modelled methods read. *)
Record Beachsection : Type := mkBeachsection {
  b_site : sref;
  circleEvent : option cref;
  rbPrevious : option aref;
  rbNext : option aref;
  rbLeft : option aref;
  rbRight : option aref
}.

Record CircleEvent : Type := mkCircleEvent {
  ce_arc : option aref;
  ce_site : option sref;
  ce_x : float;
  ce_y : float;
  ce_ycenter : float;
  ce_rbPrevious : option cref;
  ce_rbNext : option cref;
  ce_rbLeft : option cref;
  ce_rbRight : option cref
}.

(** What [compute] returns, less [execTime] (a difference of two clock
    readings). *)
Record Diagram : Type := mkDiagram {
  d_cells : list Cell;
  d_edges : list eref;
  d_vertices : list vref
}.

(** [new this.RBTree()]: the constructor assigns [root] and nothing else.
    The tree operations [rbInsertSuccessor], [rbRemoveNode], [getFirst] are
    methods of the [Voronoi] class, not properties of this object. *)
Record RBTree : Type := mkRBTree { root : option nat }.

(** * The world: one [Voronoi] instance and the stores *)

Record World : Type := mkWorld {
  vertices : option (list vref);
  edges : option (list eref);
  cells : option (list Cell);
  toRecycle : option Diagram;
  beachsectionJunkyard : list aref;
  circleEventJunkyard : list cref;
  vertexJunkyard : list vref;
  edgeJunkyard : list eref;
  cellJunkyard : list Cell;
  beachline : option RBTree;
  circleEvents : option RBTree;
  firstCircleEvent : option cref;
  siteStore : list Site;
  vertexStore : list Vertex;
  edgeStore : list Edge;
  arcStore : list Beachsection;
  eventStore : list CircleEvent
}.

Definition set_vertices (x : option (list vref)) (w : World) : World :=
  mkWorld x (edges w) (cells w) (toRecycle w) (beachsectionJunkyard w)
    (circleEventJunkyard w) (vertexJunkyard w) (edgeJunkyard w) (cellJunkyard w)
    (beachline w) (circleEvents w) (firstCircleEvent w) (siteStore w)
    (vertexStore w) (edgeStore w) (arcStore w) (eventStore w).
Definition set_edges (x : option (list eref)) (w : World) : World :=
  mkWorld (vertices w) x (cells w) (toRecycle w) (beachsectionJunkyard w)
    (circleEventJunkyard w) (vertexJunkyard w) (edgeJunkyard w) (cellJunkyard w)
    (beachline w) (circleEvents w) (firstCircleEvent w) (siteStore w)
    (vertexStore w) (edgeStore w) (arcStore w) (eventStore w).
Definition set_cells (x : option (list Cell)) (w : World) : World :=
  mkWorld (vertices w) (edges w) x (toRecycle w) (beachsectionJunkyard w)
    (circleEventJunkyard w) (vertexJunkyard w) (edgeJunkyard w) (cellJunkyard w)
    (beachline w) (circleEvents w) (firstCircleEvent w) (siteStore w)
    (vertexStore w) (edgeStore w) (arcStore w) (eventStore w).
Definition set_toRecycle (x : option Diagram) (w : World) : World :=
  mkWorld (vertices w) (edges w) (cells w) x (beachsectionJunkyard w)
    (circleEventJunkyard w) (vertexJunkyard w) (edgeJunkyard w) (cellJunkyard w)
    (beachline w) (circleEvents w) (firstCircleEvent w) (siteStore w)
    (vertexStore w) (edgeStore w) (arcStore w) (eventStore w).
Definition set_beachsectionJunkyard (x : list aref) (w : World) : World :=
  mkWorld (vertices w) (edges w) (cells w) (toRecycle w) x
    (circleEventJunkyard w) (vertexJunkyard w) (edgeJunkyard w) (cellJunkyard w)
    (beachline w) (circleEvents w) (firstCircleEvent w) (siteStore w)
    (vertexStore w) (edgeStore w) (arcStore w) (eventStore w).
Definition set_circleEventJunkyard (x : list cref) (w : World) : World :=
  mkWorld (vertices w) (edges w) (cells w) (toRecycle w) (beachsectionJunkyard w)
    x (vertexJunkyard w) (edgeJunkyard w) (cellJunkyard w)
    (beachline w) (circleEvents w) (firstCircleEvent w) (siteStore w)
    (vertexStore w) (edgeStore w) (arcStore w) (eventStore w).
Definition set_vertexJunkyard (x : list vref) (w : World) : World :=
  mkWorld (vertices w) (edges w) (cells w) (toRecycle w) (beachsectionJunkyard w)
    (circleEventJunkyard w) x (edgeJunkyard w) (cellJunkyard w)
    (beachline w) (circleEvents w) (firstCircleEvent w) (siteStore w)
    (vertexStore w) (edgeStore w) (arcStore w) (eventStore w).
Definition set_edgeJunkyard (x : list eref) (w : World) : World :=
  mkWorld (vertices w) (edges w) (cells w) (toRecycle w) (beachsectionJunkyard w)
    (circleEventJunkyard w) (vertexJunkyard w) x (cellJunkyard w)
    (beachline w) (circleEvents w) (firstCircleEvent w) (siteStore w)
    (vertexStore w) (edgeStore w) (arcStore w) (eventStore w).
Definition set_cellJunkyard (x : list Cell) (w : World) : World :=
  mkWorld (vertices w) (edges w) (cells w) (toRecycle w) (beachsectionJunkyard w)
    (circleEventJunkyard w) (vertexJunkyard w) (edgeJunkyard w) x
    (beachline w) (circleEvents w) (firstCircleEvent w) (siteStore w)
    (vertexStore w) (edgeStore w) (arcStore w) (eventStore w).
Definition set_beachline (x : option RBTree) (w : World) : World :=
  mkWorld (vertices w) (edges w) (cells w) (toRecycle w) (beachsectionJunkyard w)
    (circleEventJunkyard w) (vertexJunkyard w) (edgeJunkyard w) (cellJunkyard w)
    x (circleEvents w) (firstCircleEvent w) (siteStore w)
    (vertexStore w) (edgeStore w) (arcStore w) (eventStore w).
Definition set_circleEvents (x : option RBTree) (w : World) : World :=
  mkWorld (vertices w) (edges w) (cells w) (toRecycle w) (beachsectionJunkyard w)
    (circleEventJunkyard w) (vertexJunkyard w) (edgeJunkyard w) (cellJunkyard w)
    (beachline w) x (firstCircleEvent w) (siteStore w)
    (vertexStore w) (edgeStore w) (arcStore w) (eventStore w).
Definition set_firstCircleEvent (x : option cref) (w : World) : World :=
  mkWorld (vertices w) (edges w) (cells w) (toRecycle w) (beachsectionJunkyard w)
    (circleEventJunkyard w) (vertexJunkyard w) (edgeJunkyard w) (cellJunkyard w)
    (beachline w) (circleEvents w) x (siteStore w)
    (vertexStore w) (edgeStore w) (arcStore w) (eventStore w).
Definition set_siteStore (x : list Site) (w : World) : World :=
  mkWorld (vertices w) (edges w) (cells w) (toRecycle w) (beachsectionJunkyard w)
    (circleEventJunkyard w) (vertexJunkyard w) (edgeJunkyard w) (cellJunkyard w)
    (beachline w) (circleEvents w) (firstCircleEvent w) x
    (vertexStore w) (edgeStore w) (arcStore w) (eventStore w).
Definition set_vertexStore (x : list Vertex) (w : World) : World :=
  mkWorld (vertices w) (edges w) (cells w) (toRecycle w) (beachsectionJunkyard w)
    (circleEventJunkyard w) (vertexJunkyard w) (edgeJunkyard w) (cellJunkyard w)
    (beachline w) (circleEvents w) (firstCircleEvent w) (siteStore w)
    x (edgeStore w) (arcStore w) (eventStore w).
Definition set_edgeStore (x : list Edge) (w : World) : World :=
  mkWorld (vertices w) (edges w) (cells w) (toRecycle w) (beachsectionJunkyard w)
    (circleEventJunkyard w) (vertexJunkyard w) (edgeJunkyard w) (cellJunkyard w)
    (beachline w) (circleEvents w) (firstCircleEvent w) (siteStore w)
    (vertexStore w) x (arcStore w) (eventStore w).
Definition set_arcStore (x : list Beachsection) (w : World) : World :=
  mkWorld (vertices w) (edges w) (cells w) (toRecycle w) (beachsectionJunkyard w)
    (circleEventJunkyard w) (vertexJunkyard w) (edgeJunkyard w) (cellJunkyard w)
    (beachline w) (circleEvents w) (firstCircleEvent w) (siteStore w)
    (vertexStore w) (edgeStore w) x (eventStore w).
Definition set_eventStore (x : list CircleEvent) (w : World) : World :=
  mkWorld (vertices w) (edges w) (cells w) (toRecycle w) (beachsectionJunkyard w)
    (circleEventJunkyard w) (vertexJunkyard w) (edgeJunkyard w) (cellJunkyard w)
    (beachline w) (circleEvents w) (firstCircleEvent w) (siteStore w)
    (vertexStore w) (edgeStore w) (arcStore w) x.

(** The instance [new Voronoi()] leaves behind, over given stores: the three
    collections and [toRecycle] are [null], the pools are empty, the trees
    are not yet created. *)
Definition newVoronoi (sites : list Site) : World :=
  mkWorld None None None None [] [] [] [] [] None None None sites [] [] [] [].

(** * Methods as world transformers *)

Definition M (A : Type) : Type := World -> World * outcome A.

Definition ret {A} (a : A) : M A := fun w => (w, Ret a).
Definition throw {A} (e : exn) : M A := fun w => (w, Throw e).
Definition outOfFuel {A} : M A := fun w => (w, OutOfFuel).
Definition bind {A B} (m : M A) (k : A -> M B) : M B :=
  fun w =>
    match m w with
    | (w', Ret a) => k a w'
    | (w', Throw e) => (w', Throw e)
    | (w', OutOfFuel) => (w', OutOfFuel)
    end.
Definition get {A} (f : World -> A) : M A := fun w => (w, Ret (f w)).
Definition modify (f : World -> World) : M unit := fun w => (f w, Ret tt).

(** Reading a property of, or calling, what may be [undefined] or [null]. *)
Definition deref {A} (o : option A) : M A :=
  match o with
  | Some a => ret a
  | None => throw TypeError
  end.

Declare Scope js_scope.
Delimit Scope js_scope with js.
Notation "'let*' x ':=' m 'in' k" := (bind m (fun x => k))
  (at level 10, x name, m at level 100, k at level 200) : js_scope.
Notation "'do*' m 'in' k" := (bind m (fun _ => k))
  (at level 10, m at level 100, k at level 200) : js_scope.
Local Open Scope js_scope.

Definition getSite (s : sref) : M Site :=
  let* st := get siteStore in deref (st !! s).
Definition getVertex (v : vref) : M Vertex :=
  let* st := get vertexStore in deref (st !! v).
Definition getEdge (e : eref) : M Edge :=
  let* st := get edgeStore in deref (st !! e).
Definition getArc (a : aref) : M Beachsection :=
  let* st := get arcStore in deref (st !! a).
Definition getEvent (c : cref) : M CircleEvent :=
  let* st := get eventStore in deref (st !! c).

Definition setEdge (e : eref) (x : Edge) : M unit :=
  modify (fun w => set_edgeStore (<[e := x]> (edgeStore w)) w).
Definition setArc (a : aref) (x : Beachsection) : M unit :=
  modify (fun w => set_arcStore (<[a := x]> (arcStore w)) w).
Definition setEvent (c : cref) (x : CircleEvent) : M unit :=
  modify (fun w => set_eventStore (<[c := x]> (eventStore w)) w).
Definition setSite (s : sref) (x : Site) : M unit :=
  modify (fun w => set_siteStore (<[s := x]> (siteStore w)) w).

(** * Vertices and cells *)

(** [createVertex]: take the last object of the vertex junkyard and
    overwrite its coordinates, or allocate; then push onto the diagram's
    vertex collection (a TypeError while it is still [null]). *)
Definition createVertex (x y : float) : M vref :=
  let* junk := get vertexJunkyard in
  let* v :=
    match last junk with
    | None =>
        let* st := get vertexStore in
        do* modify (set_vertexStore (st ++ [mkVertex x y])) in
        ret (length st)
    | Some v =>
        do* modify (set_vertexJunkyard (removelast junk)) in
        do* modify (fun w => set_vertexStore (<[v := mkVertex x y]> (vertexStore w)) w) in
        ret v
    end in
  let* vs := get vertices in
  match vs with
  | None => throw TypeError
  | Some l =>
      do* modify (set_vertices (Some (l ++ [v]))) in
      ret v
  end.

(** [createCell]: a recycled cell is re-initialised in full by [initCell],
    so only the pool's length matters. *)
Definition createCell (site : sref) : M Cell :=
  let* junk := get cellJunkyard in
  do* modify (set_cellJunkyard (removelast junk)) in
  ret (mkCell site [] false).

(** [getStartpoint] and [getEndpoint] of the class. *)
Definition getStartpoint (h : Halfedge) : M (option vref) :=
  let* edge := getEdge (h_edge h) in
  ret (if Nat.eqb (lSite edge) (h_site h) then va edge else vb edge).
Definition getEndpoint (h : Halfedge) : M (option vref) :=
  let* edge := getEdge (h_edge h) in
  ret (if Nat.eqb (lSite edge) (h_site h) then vb edge else va edge).

(** [this.cells[id].closeMe = true], where [id] is a site's [voronoiId]. *)
Definition markCloseMe (id : option nat) : M unit :=
  let* cs := get cells in
  match cs, id with
  | Some l, Some i =>
      match l !! i with
      | Some c =>
          modify (set_cells (Some (<[i := mkCell (c_site c) (halfedges c) true]> l)))
      | None => throw TypeError
      end
  | _, _ => throw TypeError
  end.

(** * connectEdge *)

(** The pattern each of the six directed cases of [connectEdge] repeats:
[[
   if (!va || before(va)) { va = this.createVertex(a); }
   else if (beyond(va)) { return false; }
   vb = this.createVertex(b);
]]
    [None] stands for the early [return false]. *)
Definition connectTo (va0 : option vref) (before beyond : Vertex -> bool)
    (a b : float * float) : M (option (vref * vref)) :=
  let* start :=
    match va0 with
    | None => let* v := createVertex a.1 a.2 in ret (Some v)
    | Some v =>
        let* p := getVertex v in
        if before p then let* v' := createVertex a.1 a.2 in ret (Some v')
        else if beyond p then ret None
        else ret (Some v)
    end in
  match start with
  | None => ret None
  | Some va' => let* vb' := createVertex b.1 b.2 in ret (Some (va', vb'))
  end.

(** The choice of the side of the box, from the bisector's slope and the
    order of the two sites: the branch on [fm === undefined] (the sites have
    the same [y], the bisector is vertical), then on [fm < -1 || fm > 1],
    each with its two directions. *)
Definition connectEnds (va0 : option vref) (lx ly rx ry : float) (bbox : BBox)
    : M (option (vref * vref)) :=
  let fx := ((lx + rx) / 2)%float in
  let fy := ((ly + ry) / 2)%float in
  if Num.neqb ry ly then
    let fm := ((lx - rx) / (ry - ly))%float in
    let fb := (fy - fm * fx)%float in
    if Num.ltb fm (-1)%float || Num.gtb fm 1%float then
      if Num.gtb lx rx then
        connectTo va0
          (fun p => Num.ltb (v_y p) (yt bbox)) (fun p => Num.geb (v_y p) (yb bbox))
          (((yt bbox - fb) / fm)%float, yt bbox)
          (((yb bbox - fb) / fm)%float, yb bbox)
      else
        connectTo va0
          (fun p => Num.gtb (v_y p) (yb bbox)) (fun p => Num.ltb (v_y p) (yt bbox))
          (((yb bbox - fb) / fm)%float, yb bbox)
          (((yt bbox - fb) / fm)%float, yt bbox)
    else
      if Num.ltb ly ry then
        connectTo va0
          (fun p => Num.ltb (v_x p) (xl bbox)) (fun p => Num.geb (v_x p) (xr bbox))
          (xl bbox, (fm * xl bbox + fb)%float)
          (xr bbox, (fm * xr bbox + fb)%float)
      else
        connectTo va0
          (fun p => Num.gtb (v_x p) (xr bbox)) (fun p => Num.ltb (v_x p) (xl bbox))
          (xr bbox, (fm * xr bbox + fb)%float)
          (xl bbox, (fm * xl bbox + fb)%float)
  else
    if Num.ltb fx (xl bbox) || Num.geb fx (xr bbox) then ret None
    else if Num.gtb lx rx then
      connectTo va0
        (fun p => Num.ltb (v_y p) (yt bbox)) (fun p => Num.geb (v_y p) (yb bbox))
        (fx, yt bbox) (fx, yb bbox)
    else
      connectTo va0
        (fun p => Num.gtb (v_y p) (yb bbox)) (fun p => Num.ltb (v_y p) (yt bbox))
        (fx, yb bbox) (fx, yt bbox).

Definition connectEdge (e : eref) (bbox : BBox) : M bool :=
  let* edge := getEdge e in
  match vb edge with
  | Some _ => ret true
  | None =>
      let* ls := getSite (lSite edge) in
      let* r := deref (rSite edge) in
      let* rs := getSite r in
      do* markCloseMe (voronoiId ls) in
      do* markCloseMe (voronoiId rs) in
      let* ends := connectEnds (va edge) (s_x ls) (s_y ls) (s_x rs) (s_y rs) bbox in
      match ends with
      | None => ret false
      | Some (va', vb') =>
          let* edge' := getEdge e in
          do* setEdge e (mkEdge (lSite edge') (rSite edge') (Some va') (Some vb')) in
          ret true
      end
  end.

(** * clipEdge *)

(** The "left" and "top" blocks: [q = a - low], [r = -q / d]. *)
Definition clipLow (d q : float) (t : float * float) : option (float * float) :=
  if Num.eqb d 0%float && Num.ltb q 0%float then None
  else
    let r := (- q / d)%float in
    if Num.ltb d 0%float then
      if Num.ltb r t.1 then None
      else Some (t.1, if Num.ltb r t.2 then r else t.2)
    else if Num.gtb d 0%float then
      if Num.gtb r t.2 then None
      else Some (if Num.gtb r t.1 then r else t.1, t.2)
    else Some t.

(** The "right" and "bottom" blocks: [q = high - a], [r = q / d]. *)
Definition clipHigh (d q : float) (t : float * float) : option (float * float) :=
  if Num.eqb d 0%float && Num.ltb q 0%float then None
  else
    let r := (q / d)%float in
    if Num.ltb d 0%float then
      if Num.gtb r t.2 then None
      else Some (if Num.gtb r t.1 then r else t.1, t.2)
    else if Num.gtb d 0%float then
      if Num.ltb r t.1 then None
      else Some (t.1, if Num.ltb r t.2 then r else t.2)
    else Some t.

(** The entry and exit parameters [(t0, t1)] of the segment from [a] to [b]
    after the four blocks, or [None] where the source returns [false]. *)
Definition clipParams (a b : Vertex) (bbox : BBox) : option (float * float) :=
  let dx := (v_x b - v_x a)%float in
  let dy := (v_y b - v_y a)%float in
  t ← clipLow dx (v_x a - xl bbox)%float (0%float, 1%float);
  t ← clipHigh dx (xr bbox - v_x a)%float t;
  t ← clipLow dy (v_y a - yt bbox)%float t;
  clipHigh dy (yb bbox - v_y a)%float t.

(** [edge.va = v] and [edge.vb = v]. *)
Definition setVa (e : eref) (v : vref) : M unit :=
  let* ed := getEdge e in
  setEdge e (mkEdge (lSite ed) (rSite ed) (Some v) (vb ed)).
Definition setVb (e : eref) (v : vref) : M unit :=
  let* ed := getEdge e in
  setEdge e (mkEdge (lSite ed) (rSite ed) (va ed) (Some v)).

(** [this.cells[edge.lSite.voronoiId].closeMe = true;
     this.cells[edge.rSite.voronoiId].closeMe = true;] *)
Definition closeBothCells (e : eref) : M unit :=
  let* ed := getEdge e in
  let* ls := getSite (lSite ed) in
  do* markCloseMe (voronoiId ls) in
  let* r := deref (rSite ed) in
  let* rs := getSite r in
  markCloseMe (voronoiId rs).

Definition clipEdge (e : eref) (bbox : BBox) : M bool :=
  let* edge := getEdge e in
  let* a0 := deref (va edge) in
  let* a := getVertex a0 in
  let* b0 := deref (vb edge) in
  let* b := getVertex b0 in
  let dx := (v_x b - v_x a)%float in
  let dy := (v_y b - v_y a)%float in
  match clipParams a b bbox with
  | None => ret false
  | Some (t0, t1) =>
      do* (if Num.gtb t0 0%float then
             let* v := createVertex (v_x a + t0 * dx)%float (v_y a + t0 * dy)%float in
             setVa e v
           else ret tt) in
      do* (if Num.ltb t1 1%float then
             let* v := createVertex (v_x a + t1 * dx)%float (v_y a + t1 * dy)%float in
             setVb e v
           else ret tt) in
      do* (if Num.gtb t0 0%float || Num.ltb t1 1%float then closeBothCells e
           else ret tt) in
      ret true
  end.

(** * clipEdges *)

(** The third disjunct of the removal test: both coordinate deltas of the
    edge's endpoints are below [1e-9]. *)
Definition nearZero (e : eref) : M bool :=
  let* edge := getEdge e in
  let* a0 := deref (va edge) in
  let* a := getVertex a0 in
  let* b0 := deref (vb edge) in
  let* b := getVertex b0 in
  ret (Num.ltb (PrimFloat.abs (v_x a - v_x b)) Num.eps
       && Num.ltb (PrimFloat.abs (v_y a - v_y b)) Num.eps).

(** [edge.va = edge.vb = null; edges.splice(iEdge, 1)]. *)
Definition dropEdge (iEdge : nat) (e : eref) : M unit :=
  let* ed := getEdge e in
  do* setEdge e (mkEdge (lSite ed) (rSite ed) None None) in
  let* es := get edges in
  let* l := deref es in
  modify (set_edges (Some (delete iEdge l))).

(** The loop [while (iEdge--) { ... }]: the argument is the value of
    [iEdge] before the test. *)
Fixpoint clipEdgesLoop (bbox : BBox) (iEdge : nat) : M unit :=
  match iEdge with
  | 0 => ret tt
  | S i =>
      let* es := get edges in
      let* l := deref es in
      let* e := deref (l !! i) in
      let* connected := connectEdge e bbox in
      do* (if negb connected then dropEdge i e
           else
             let* clipped := clipEdge e bbox in
             if negb clipped then dropEdge i e
             else
               let* short := nearZero e in
               if short then dropEdge i e else ret tt) in
      clipEdgesLoop bbox i
  end.

Definition clipEdges (bbox : BBox) : M unit :=
  let* es := get edges in
  let* l := deref es in
  clipEdgesLoop bbox (length l).

(** * Beach sections *)

(** [createBeachsection]: a recycled beach section keeps its other fields. *)
Definition createBeachsection (site : sref) : M aref :=
  let* junk := get beachsectionJunkyard in
  match last junk with
  | None =>
      let* st := get arcStore in
      do* modify (set_arcStore (st ++ [mkBeachsection site None None None None None])) in
      ret (length st)
  | Some b =>
      do* modify (set_beachsectionJunkyard (removelast junk)) in
      let* old := getArc b in
      do* setArc b (mkBeachsection site (circleEvent old) (rbPrevious old)
                      (rbNext old) (rbLeft old) (rbRight old)) in
      ret b
  end.

Definition leftBreakPoint (arc : aref) (directrix : float) : M float :=
  let* a := getArc arc in
  let* site := getSite (b_site a) in
  let rfocx := s_x site in
  let rfocy := s_y site in
  let pby2 := (rfocy - directrix)%float in
  if negb (Num.truthy pby2) then ret rfocx
  else
    match rbPrevious a with
    | None => ret neg_infinity
    | Some lArc =>
        let* la := getArc lArc in
        let* lsite := getSite (b_site la) in
        let lfocx := s_x lsite in
        let lfocy := s_y lsite in
        let plby2 := (lfocy - directrix)%float in
        if negb (Num.truthy plby2) then ret lfocx
        else
          let hl := (lfocx - rfocx)%float in
          let aby2 := (1 / pby2 - 1 / plby2)%float in
          let b := (hl / plby2)%float in
          if Num.truthy aby2 then
            ret ((- b + PrimFloat.sqrt
                          (b * b - 2 * aby2 *
                             (hl * hl / (-2 * plby2) - lfocy + plby2 / 2
                              + rfocy - pby2 / 2))) / aby2 + rfocx)%float
          else ret ((rfocx + lfocx) / 2)%float
    end.

Definition rightBreakPoint (arc : aref) (directrix : float) : M float :=
  let* a := getArc arc in
  match rbNext a with
  | Some rArc => leftBreakPoint rArc directrix
  | None =>
      let* site := getSite (b_site a) in
      ret (if Num.eqb (s_y site) directrix then s_x site else infinity)
  end.

(** The descent of [addBeachsection], [while (node) { ... }], returning the
    locals [(lArc, rArc)] it leaves; each visited node costs one unit of
    fuel. *)
Fixpoint locateArcs (fuel : nat) (x directrix : float) (node : option aref)
    : M (option aref * option aref) :=
  match node with
  | None => ret (None, None)
  | Some n =>
      match fuel with
      | 0 => outOfFuel
      | S fuel' =>
          let* nd := getArc n in
          let* lbp := leftBreakPoint n directrix in
          let dxl := (lbp - x)%float in
          if Num.gtb dxl Num.eps then locateArcs fuel' x directrix (rbLeft nd)
          else
            let* rbp := rightBreakPoint n directrix in
            let dxr := (x - rbp)%float in
            if Num.gtb dxr Num.eps then
              match rbRight nd with
              | None => ret (Some n, None)
              | Some r => locateArcs fuel' x directrix (Some r)
              end
            else if Num.gtb dxl (- Num.eps)%float then ret (rbPrevious nd, Some n)
            else if Num.gtb dxr (- Num.eps)%float then ret (Some n, rbNext nd)
            else ret (Some n, Some n)
      end
  end.

(** [addBeachsection]: after the descent and [createBeachsection] comes
    [this.beachline.rbInsertSuccessor(lArc, newArc)].  [this.beachline] is
    an [RBTree] object, which has no property [rbInsertSuccessor]: the call
    raises a TypeError, and the rest of the body is not reached. *)
Definition addBeachsection (fuel : nat) (site : sref) : M unit :=
  let* s := getSite site in
  let* bl := get beachline in
  let* tree := deref bl in
  let* arcs := locateArcs fuel (s_x s) (s_y s) (root tree) in
  let* newArc := createBeachsection site in
  throw TypeError.

(** * Circle events *)

(** [detachCircleEvent]: with an event attached, the call
    [this.circleEvents.rbRemoveNode(circle)] raises a TypeError, whether
    [this.circleEvents] is still [undefined] or is a tree object. *)
Definition detachCircleEvent (beachsection : aref) : M unit :=
  let* a := getArc beachsection in
  match circleEvent a with
  | None => ret tt
  | Some c =>
      let* circle := getEvent c in
      do* (match ce_rbPrevious circle with
           | None => modify (set_firstCircleEvent (ce_rbNext circle))
           | Some _ => ret tt
           end) in
      throw TypeError
  end.

(** [detachBeachsection]: [this.beachline.rbRemoveNode(beachsection)] is a
    call of a missing property as well; the method never returns. *)
Definition detachBeachsection (beachsection : aref) : M Empty_set :=
  do* detachCircleEvent beachsection in
  throw TypeError.

(** [removeBeachsection], up to its call of [detachBeachsection]. *)
Definition removeBeachsection (beachsection : option aref) : M unit :=
  let* b := deref beachsection in
  let* a := getArc b in
  let* c := deref (circleEvent a) in
  let* circle := getEvent c in
  let* vertex := createVertex (ce_x circle) (ce_ycenter circle) in
  let* never := detachBeachsection b in
  match never : Empty_set with end.

(** The orientation quantity [d] of [attachCircleEvent] for the sites of the
    left, centre and right arcs. *)
Definition orientation (l c r : Site) : float :=
  let bx := s_x c in
  let by_ := s_y c in
  let ax := (s_x l - bx)%float in
  let ay := (s_y l - by_)%float in
  let cx := (s_x r - bx)%float in
  let cy := (s_y r - by_)%float in
  (2 * (ax * cy - ay * cx))%float.

(** The circumcentre relative to the centre site, [(x, y)] of the source. *)
Definition circumcentre (l c r : Site) : float * float :=
  let bx := s_x c in
  let by_ := s_y c in
  let ax := (s_x l - bx)%float in
  let ay := (s_y l - by_)%float in
  let cx := (s_x r - bx)%float in
  let cy := (s_y r - by_)%float in
  let d := (2 * (ax * cy - ay * cx))%float in
  let ha := (ax * ax + ay * ay)%float in
  let hc := (cx * cx + cy * cy)%float in
  (((cy * ha - ay * hc) / d)%float, ((ax * hc - cx * ha) / d)%float).

(** The descent that looks for the insertion point in the event queue,
    returning the local [predecessor]. *)
Fixpoint findPredecessor (fuel : nat) (y x : float) (node : option cref)
    : M (option cref) :=
  match node with
  | None => ret None
  | Some n =>
      match fuel with
      | 0 => outOfFuel
      | S fuel' =>
          let* nd := getEvent n in
          if Num.ltb y (ce_y nd) || (Num.eqb y (ce_y nd) && Num.leb x (ce_x nd)) then
            match ce_rbLeft nd with
            | Some l => findPredecessor fuel' y x (Some l)
            | None => ret (ce_rbPrevious nd)
            end
          else
            match ce_rbRight nd with
            | Some r => findPredecessor fuel' y x (Some r)
            | None => ret (Some n)
            end
      end
  end.

(** [attachCircleEvent].  The event is taken from the pool or allocated,
    filled in and stored in [arc.circleEvent]; the insertion into the queue,
    [this.circleEvents.rbInsertSuccessor(predecessor, circleEvent)], is again
    a call of a property the tree object does not have. *)
Definition attachCircleEvent (fuel : nat) (arc : aref) : M unit :=
  let* a := getArc arc in
  match rbPrevious a, rbNext a with
  | Some lArc, Some rArc =>
      let* la := getArc lArc in
      let* ra := getArc rArc in
      let lSite := b_site la in
      let cSite := b_site a in
      let rSite := b_site ra in
      if Nat.eqb lSite rSite then ret tt
      else
        let* c := getSite cSite in
        let* l := getSite lSite in
        let* r := getSite rSite in
        let d := orientation l c r in
        if Num.geb d (-2e-12)%float then ret tt
        else
          let xy := circumcentre l c r in
          let ycenter := (xy.2 + s_y c)%float in
          let* junk := get circleEventJunkyard in
          let* ce :=
            match last junk with
            | None =>
                let* st := get eventStore in
                do* modify (set_eventStore
                              (st ++ [mkCircleEvent None None 0 0 0 None None None None])) in
                ret (length st)
            | Some ce =>
                do* modify (set_circleEventJunkyard (removelast junk)) in
                ret ce
            end in
          let* old := getEvent ce in
          let y := (ycenter + PrimFloat.sqrt (xy.1 * xy.1 + xy.2 * xy.2))%float in
          let x := (xy.1 + s_x c)%float in
          do* setEvent ce (mkCircleEvent (Some arc) (Some cSite) x y ycenter
                             (ce_rbPrevious old) (ce_rbNext old)
                             (ce_rbLeft old) (ce_rbRight old)) in
          let* a' := getArc arc in
          do* setArc arc (mkBeachsection (b_site a') (Some ce) (rbPrevious a')
                            (rbNext a') (rbLeft a') (rbRight a')) in
          let* evs := get circleEvents in
          let* tree := deref evs in
          let* predecessor := findPredecessor fuel y x (root tree) in
          throw TypeError
  | _, _ => ret tt
  end.

(** * closeCells *)

(** [closeCells]: the loop body starts with [cell.prepareHalfedges()], and a
    cell object has no property [prepareHalfedges] ([prepareHalfedges] is a
    method of [Voronoi] taking the cell): with any cell in the collection the
    first turn raises a TypeError.  The border walk below it, which begins
    with the placeholder comment for the one-site case, is not reached. *)
Definition closeCells (bbox : BBox) : M unit :=
  let* cs := get cells in
  let* l := deref cs in
  match l with
  | [] => ret tt
  | _ :: _ => throw TypeError
  end.

(** * recycle *)

(** The values a caller can pass where the parameter is typed [any]. *)
Inductive JsValue : Type :=
  | JsUndefined
  | JsNull
  | JsBoolean (b : bool)
  | JsNumber (n : float)
  | JsString (s : string)
  | JsDiagram (d : Diagram)
  | JsOtherObject.

(** [instanceof this.Diagram]. *)
Definition isDiagram (v : JsValue) : bool :=
  match v with
  | JsDiagram _ => true
  | _ => false
  end.

(** JavaScript truthiness. *)
Definition truthy (v : JsValue) : bool :=
  match v with
  | JsUndefined | JsNull => false
  | JsBoolean b => b
  | JsNumber n => Num.truthy n
  | JsString s => negb (String.eqb s EmptyString)
  | JsDiagram _ | JsOtherObject => true
  end.

Definition recycleMessage : string :=
  "Voronoi.recycleDiagram() > Need a Diagram object.".

Definition recycle (diagram : JsValue) : M unit :=
  if truthy diagram then
    match diagram with
    | JsDiagram d => modify (set_toRecycle (Some d))
    | _ => throw (Thrown recycleMessage)
    end
  else ret tt.

(** * reset and compute *)

(** [reset]: with a node in the beachline the first statement of the
    clean-up, [this.beachline.getFirst(...)], is a call of a missing
    property. *)
Definition reset : M unit :=
  let* bl := get beachline in
  do* (match bl with
       | None => modify (set_beachline (Some (mkRBTree None)))
       | Some _ => ret tt
       end) in
  let* bl' := get beachline in
  let* tree := deref bl' in
  do* (match root tree with
       | Some _ => throw TypeError
       | None => ret tt
       end) in
  do* modify (set_beachline (Some (mkRBTree None))) in
  do* modify (set_circleEvents (Some (mkRBTree None))) in
  do* modify (set_firstCircleEvent None) in
  do* modify (set_vertices (Some [])) in
  do* modify (set_edges (Some [])) in
  modify (set_cells (Some [])).

(** The comparator of the site sort. *)
Definition compareSites (a b : Site) : float :=
  let r := (s_y b - s_y a)%float in
  if Num.truthy r then r else (s_x b - s_x a)%float.

(** [Array.prototype.sort] is stable; it is modelled by the stable insertion
    sort: an element goes before the first one the comparator puts it
    strictly before.  The two give the same order where the comparator is
    consistent, that is on sites whose coordinates are not NaN; with a NaN
    coordinate the order the engine's sort leaves is its own. *)
Fixpoint insertSite (x : sref * Site) (l : list (sref * Site))
    : list (sref * Site) :=
  match l with
  | [] => [x]
  | y :: l' =>
      if Num.ltb (compareSites x.2 y.2) 0%float then x :: y :: l'
      else y :: insertSite x l'
  end.

Definition sortSites (l : list (sref * Site)) : list (sref * Site) :=
  foldl (fun acc x => insertSite x acc) [] l.

Fixpoint resolveSites (l : list sref) : M (list (sref * Site)) :=
  match l with
  | [] => ret []
  | s :: l' =>
      let* x := getSite s in
      let* xs := resolveSites l' in
      ret ((s, x) :: xs)
  end.

(** [cells[siteid] = cell]: [siteid] and [cells.length] both start at [0]
    and grow together, so the store appends. *)
Definition storeCell (siteid : nat) (cell : Cell) : M unit :=
  let* cs := get cells in
  let* l := deref cs in
  modify (set_cells (Some (if Nat.ltb siteid (length l)
                           then <[siteid := cell]> l else l ++ [cell]))).

(** The main loop [for (;;) { ... }]; [xsite] holds [(xsitex, xsitey)],
    [undefined] until the first site is handled. *)
Fixpoint mainLoop (fuel : nat) (siteEvents : list sref) (site : option sref)
    (siteid : nat) (xsite : option (float * float)) : M unit :=
  match fuel with
  | 0 => outOfFuel
  | S fuel' =>
      let* first := get firstCircleEvent in
      let* circle :=
        match first with
        | Some c => let* ev := getEvent c in ret (Some ev)
        | None => ret None
        end in
      let* here :=
        match site with
        | Some s => let* x := getSite s in ret (Some (s, x))
        | None => ret None
        end in
      let siteFirst :=
        match here, circle with
        | Some _, None => true
        | Some (_, x), Some ev =>
            Num.ltb (s_y x) (ce_y ev)
            || (Num.eqb (s_y x) (ce_y ev) && Num.ltb (s_x x) (ce_x ev))
        | None, _ => false
        end in
      match here with
      | Some (s, x) =>
          if siteFirst then
            let isNew :=
              match xsite with
              | None => true
              | Some (xsitex, xsitey) =>
                  Num.neqb (s_x x) xsitex || Num.neqb (s_y x) xsitey
              end in
            let* next :=
              (if isNew then
                 let* cell := createCell s in
                 do* storeCell siteid cell in
                 do* setSite s (mkSite (s_x x) (s_y x) (Some siteid)) in
                 do* addBeachsection fuel s in
                 ret (S siteid, Some (s_x x, s_y x))
               else ret (siteid, xsite)) in
            mainLoop fuel' (removelast siteEvents) (last siteEvents) next.1 next.2
          else
            match circle with
            | Some ev =>
                do* removeBeachsection (ce_arc ev) in
                mainLoop fuel' siteEvents site siteid xsite
            | None => ret tt
            end
      | None =>
          match circle with
          | Some ev =>
              do* removeBeachsection (ce_arc ev) in
              mainLoop fuel' siteEvents site siteid xsite
          | None => ret tt
          end
      end
  end.

Definition compute (fuel : nat) (sites : list sref) (bbox : BBox) : M Diagram :=
  do* reset in
  let* tr := get toRecycle in
  do* (match tr with
       | Some d =>
           do* modify (fun w => set_vertexJunkyard (vertexJunkyard w ++ d_vertices d) w) in
           do* modify (fun w => set_edgeJunkyard (edgeJunkyard w ++ d_edges d) w) in
           do* modify (fun w => set_cellJunkyard (cellJunkyard w ++ d_cells d) w) in
           modify (set_toRecycle None)
       | None => ret tt
       end) in
  let* resolved := resolveSites sites in
  let siteEvents := (sortSites resolved).*1 in
  do* mainLoop fuel (removelast siteEvents) (last siteEvents) 0 None in
  do* clipEdges bbox in
  do* closeCells bbox in
  let* cs := get cells in
  let* dcells := deref cs in
  let* es := get edges in
  let* dedges := deref es in
  let* vs := get vertices in
  let* dvertices := deref vs in
  do* reset in
  ret (mkDiagram dcells dedges dvertices).

(** * getVoronoiPolygons *)




(** * Notions the properties are stated with *)

(** ** The vertex pool *)

(** Every address in the vertex junkyard names a stored vertex. *)
Definition junkValid (w : World) : Prop :=
  forall v, v ∈ vertexJunkyard w -> v < length (vertexStore w).

(** The pool is in order: the collection is an array, no object is in the
    junkyard twice or in the junkyard and the collection at once, and the
    collection's addresses name stored vertices. *)
Definition poolOk (w : World) : Prop :=
  exists vs, vertices w = Some vs
    /\ NoDup (vertexJunkyard w)
    /\ (forall v, v ∈ vertexJunkyard w -> v ∉ vs)
    /\ (forall v, v ∈ vs -> v < length (vertexStore w)).

(** What the creation of vertices leaves alone. *)
Definition restSame (w w' : World) : Prop :=
  siteStore w' = siteStore w /\ cells w' = cells w /\ edges w' = edges w
  /\ edgeStore w' = edgeStore w.

(** From [w] to [w'] vertices were only created: the collection grew at
    its end, the store did not shrink, a valid junkyard stayed valid; and
    with the pool in order, it stayed in order, no vertex of the collection
    changed its coordinates and the new members were not in it before. *)
Definition vertexStep (w w' : World) : Prop :=
  (forall vs, vertices w = Some vs -> exists new, vertices w' = Some (vs ++ new))
  /\ length (vertexStore w) <= length (vertexStore w')
  /\ (junkValid w -> junkValid w')
  /\ (junkValid w -> poolOk w ->
      poolOk w'
      /\ forall vs, vertices w = Some vs ->
           (forall v, v ∈ vs -> vertexStore w' !! v = vertexStore w !! v)
           /\ exists new, vertices w' = Some (vs ++ new)
                /\ forall v, v ∈ new -> v ∉ vs).

(** ** The clipper's frame *)

(** The cell collection kept its length. *)
Definition cellsLen (w w' : World) : Prop :=
  forall cs, cells w = Some cs ->
    exists cs', cells w' = Some cs' /\ length cs' = length cs.

(** What a step on edge [e] leaves alone. *)
Definition frame (e : eref) (w w' : World) : Prop :=
  siteStore w' = siteStore w
  /\ edges w' = edges w
  /\ cellsLen w w'
  /\ length (edgeStore w') = length (edgeStore w)
  /\ (forall e', e' <> e -> edgeStore w' !! e' = edgeStore w !! e')
  /\ (forall ed, edgeStore w !! e = Some ed ->
        exists ed', edgeStore w' !! e = Some ed'
          /\ lSite ed' = lSite ed /\ rSite ed' = rSite ed).

(** An edge as the sweep leaves it for the clipper: both sites carry the
    index of an existing cell, set endpoints are stored vertices, and [vb]
    is set only after [va]. *)
Definition edgeReady (w : World) (e : eref) : Prop :=
  exists ed ls r rs i j cs,
    edgeStore w !! e = Some ed
    /\ siteStore w !! lSite ed = Some ls
    /\ rSite ed = Some r /\ siteStore w !! r = Some rs
    /\ voronoiId ls = Some i /\ voronoiId rs = Some j
    /\ cells w = Some cs /\ i < length cs /\ j < length cs
    /\ (forall v, va ed = Some v -> v < length (vertexStore w))
    /\ (forall v, vb ed = Some v -> v < length (vertexStore w))
    /\ (is_Some (vb ed) -> is_Some (va ed)).

(** The world as [clipEdges] finds it. *)
Definition clipReady (w : World) (es : list eref) : Prop :=
  is_Some (vertices w) /\ junkValid w /\ forall e, e ∈ es -> edgeReady w e.

(** Both endpoints of the edge are set, to stored vertices. *)
Definition bothEndpoints (w : World) (e : eref) : Prop :=
  exists ed a b, edgeStore w !! e = Some ed /\ va ed = Some a /\ vb ed = Some b
    /\ a < length (vertexStore w) /\ b < length (vertexStore w).

(** [m] relates the world before to the world after by [P], whatever the
    outcome. *)
Definition preserves {A} (P : World -> World -> Prop) (m : M A) : Prop :=
  forall w w' o, m w = (w', o) -> P w w'.

Definition sameCells (w w' : World) : Prop := cells w' = cells w.

(** The endpoint conditions of [edgeReady] alone. *)
Definition endpointsOk (w : World) (e : eref) : Prop :=
  forall ed, edgeStore w !! e = Some ed ->
    (forall v, va ed = Some v -> v < length (vertexStore w))
    /\ (forall v, vb ed = Some v -> v < length (vertexStore w))
    /\ (is_Some (vb ed) -> is_Some (va ed)).

(** ** The run of clipEdges *)

(** The endpoints of edge [e] in world [w] are the vertices [a] and [b]. *)
Definition endpointsAt (w : World) (e : eref) (a b : Vertex) : Prop :=
  exists ed a0 b0,
    edgeStore w !! e = Some ed /\ va ed = Some a0 /\ vb ed = Some b0
    /\ vertexStore w !! a0 = Some a /\ vertexStore w !! b0 = Some b.

(** Both coordinate deltas of [a] and [b] are below [1e-9]. *)
Definition pointLike (a b : Vertex) : bool :=
  Num.ltb (PrimFloat.abs (v_x a - v_x b)) 1e-9%float
  && Num.ltb (PrimFloat.abs (v_y a - v_y b)) 1e-9%float.

(** [a] and [b] differ by at least [1e-9] in at least one coordinate. *)
Definition differ (a b : Vertex) : Prop :=
  Num.geb (PrimFloat.abs (v_x a - v_x b)) 1e-9%float = true
  \/ Num.geb (PrimFloat.abs (v_y a - v_y b)) 1e-9%float = true.

(** Neither coordinate delta of [a] and [b] is NaN. *)
Definition numeric (a b : Vertex) : Prop :=
  Num.is_nan (PrimFloat.abs (v_x a - v_x b)) = false
  /\ Num.is_nan (PrimFloat.abs (v_y a - v_y b)) = false.

(** One edge's turn in [clipEdges], by the three conditions of the removal
    test: the world after the turn's calls and whether the edge passed.  The
    third condition is on the coordinates of the endpoints the two calls
    leave. *)
Inductive verdict (bbox : BBox) (e : eref) (w : World) : World -> bool -> Prop :=
  | verdict_kept w1 w2 a b :
      connectEdge e bbox w = (w1, Ret true) ->
      clipEdge e bbox w1 = (w2, Ret true) ->
      endpointsAt w2 e a b -> pointLike a b = false ->
      verdict bbox e w w2 true
  | verdict_not_connected w1 :
      connectEdge e bbox w = (w1, Ret false) ->
      verdict bbox e w w1 false
  | verdict_not_clipped w1 w2 :
      connectEdge e bbox w = (w1, Ret true) ->
      clipEdge e bbox w1 = (w2, Ret false) ->
      verdict bbox e w w2 false
  | verdict_near_zero w1 w2 a b :
      connectEdge e bbox w = (w1, Ret true) ->
      clipEdge e bbox w1 = (w2, Ret true) ->
      endpointsAt w2 e a b -> pointLike a b = true ->
      verdict bbox e w w2 false.

(** An edge's turn as the run records it: the worlds before and after, and
    whether the edge passed. *)
Record Turn : Type := mkTurn {
  t_edge : eref;
  t_before : World;
  t_after : World;
  t_passed : bool
}.

(** The turns of all edges of the collection, last edge first; an edge that
    fails is dropped before the next turn.  The record lists the turns in
    the order of the collection. *)
Inductive clipRun (bbox : BBox)
    : list eref -> World -> World -> list Turn -> Prop :=
  | clipRun_nil w : clipRun bbox [] w w []
  | clipRun_last es e w w1 w2 w3 b ts :
      verdict bbox e w w1 b ->
      (if b then w2 = w1 else dropEdge (length es) e w1 = (w2, Ret tt)) ->
      clipRun bbox es w2 w3 ts ->
      clipRun bbox (es ++ [e]) w w3 (ts ++ [mkTurn e w w1 b]).

(** The edges whose turn passed. *)
Definition survivors (ts : list Turn) : list eref :=
  t_edge <$> filter (fun t => t_passed t = true) ts.

(** The turn [t] is a turn of edge [e] that passed all three tests:
    [connectEdge] succeeded, [clipEdge] succeeded, and the endpoints they
    leave are not within [1e-9] of each other in both coordinates. *)
Definition passes (bbox : BBox) (e : eref) (t : Turn) : Prop :=
  t_edge t = e
  /\ exists w1 a b,
       connectEdge e bbox (t_before t) = (w1, Ret true)
       /\ clipEdge e bbox w1 = (t_after t, Ret true)
       /\ endpointsAt (t_after t) e a b
       /\ ~ (Num.ltb (PrimFloat.abs (v_x a - v_x b)) 1e-9%float = true
             /\ Num.ltb (PrimFloat.abs (v_y a - v_y b)) 1e-9%float = true).

(** The same with the third test in the words of the specification: the
    endpoints differ by at least [1e-9] in at least one coordinate. *)
Definition passesApart (bbox : BBox) (e : eref) (t : Turn) : Prop :=
  t_edge t = e
  /\ exists w1 a b,
       connectEdge e bbox (t_before t) = (w1, Ret true)
       /\ clipEdge e bbox w1 = (t_after t, Ret true)
       /\ endpointsAt (t_after t) e a b
       /\ differ a b.

(** The endpoints that the turn [t] leaves its edge, if it leaves two, have
    coordinate deltas that are numbers. *)
Definition numericTurn (t : Turn) : Prop :=
  forall a b, endpointsAt (t_after t) (t_edge t) a b -> numeric a b.

(** What setting [closeMe] flags leaves alone. *)
Definition sameVertexEdge (w w' : World) : Prop :=
  vertices w' = vertices w /\ vertexStore w' = vertexStore w
  /\ vertexJunkyard w' = vertexJunkyard w /\ edgeStore w' = edgeStore w.

(** ** Circle events *)

(** The event object [attachCircleEvent] takes: the last one of the pool, or
    a new one. *)
Definition eventCreated (w w' : World) (c : cref) : Prop :=
  match last (circleEventJunkyard w) with
  | Some c0 =>
      c = c0 /\ circleEventJunkyard w' = removelast (circleEventJunkyard w)
  | None =>
      c = length (eventStore w)
      /\ length (eventStore w') = S (length (eventStore w))
  end.

(** Between [w] and [w'] an event was created and stored in
    [arc.circleEvent], with [arc] as its arc. *)
Definition attachesEvent (w w' : World) (arc : aref) (ev : CircleEvent) : Prop :=
  exists c a',
    eventCreated w w' c
    /\ arcStore w' !! arc = Some a' /\ circleEvent a' = Some c
    /\ eventStore w' !! c = Some ev /\ ce_arc ev = Some arc.

(** Every address in the event junkyard names a stored event. *)
Definition eventPoolValid (w : World) : Prop :=
  forall c, c ∈ circleEventJunkyard w -> c < length (eventStore w).

(** ** compute *)

(** The beachline holds no node: so it is when the instance is created and
    after every [reset]. *)
Definition rootless (w : World) : Prop :=
  match beachline w with
  | Some t => root t = None
  | None => True
  end.

(** The world [reset] leaves. *)
Definition resetWorld (w : World) : World :=
  set_cells (Some [])
    (set_edges (Some [])
       (set_vertices (Some [])
          (set_firstCircleEvent None
             (set_circleEvents (Some (mkRBTree None))
                (set_beachline (Some (mkRBTree None)) w))))).

(** The world after the pools have taken the diagram to recycle. *)
Definition recycledWorld (w : World) : World :=
  match toRecycle w with
  | Some d =>
      set_toRecycle None
        (set_cellJunkyard (cellJunkyard w ++ d_cells d)
           (set_edgeJunkyard (edgeJunkyard w ++ d_edges d)
              (set_vertexJunkyard (vertexJunkyard w ++ d_vertices d) w)))
  | None => w
  end.

(** Two site stores with the same coordinates, site by site. *)
Definition sameCoords (st1 st2 : list Site) : Prop :=
  Forall2 (fun a b => s_x a = s_x b /\ s_y a = s_y b) st1 st2.

(** The listed sites have coordinates that are not NaN. *)
Definition numericSites (st : list Site) (sites : list sref) : Prop :=
  forall s x, s ∈ sites -> st !! s = Some x ->
    Num.is_nan (s_x x) = false /\ Num.is_nan (s_y x) = false.

(** The site events after the sort, for the sites [sites] of store [st]. *)
Definition siteEventsOf (st : list Site) (sites : list sref) : list sref :=
  (sortSites (omap (fun s => pair s <$> st !! s) sites)).*1.

(** Writing [voronoiId] on one site, or on none. *)
Definition assignId (asg : option (sref * nat)) (st : list Site) : list Site :=
  match asg with
  | Some (s, i) => alter (fun x => mkSite (s_x x) (s_y x) (Some i)) s st
  | None => st
  end.

(** The same site address, with the same coordinates. *)
Definition relSite (p q : sref * Site) : Prop :=
  p.1 = q.1 /\ s_x p.2 = s_x q.2 /\ s_y p.2 = s_y q.2.

(** What the sweep's first site event keeps of the world. *)
Definition sameSweepState (w w' : World) : Prop :=
  siteStore w' = siteStore w /\ beachline w' = beachline w /\ cells w' = cells w.

(** * Concrete inputs *)

Definition unitBox : BBox := mkBBox 0 1 0 1.

(** The polygon of the specification's example. *)
Definition examplePolygon : list Point :=
  [mkPoint 0 0; mkPoint 0 0.0001; mkPoint 1 1].

(** Two sites left and right of the middle of the unit box, each with its
    cell, and the edge between them as the sweep leaves it: no endpoint. *)
Definition danglingEdgeWorld : World :=
  mkWorld (Some []) (Some [0])
    (Some [mkCell 0 [] false; mkCell 1 [] false]) None [] [] [] [] []
    (Some (mkRBTree None)) (Some (mkRBTree None)) None
    [mkSite 0.25 0.5 (Some 0); mkSite 0.75 0.5 (Some 1)]
    [] [mkEdge 0 (Some 1) None None] [] [].

(** The same with both sites to the right of the box: the bisector misses
    the box. *)
Definition outsideEdgeWorld : World :=
  mkWorld (Some []) (Some [0])
    (Some [mkCell 0 [] false; mkCell 1 [] false]) None [] [] [] [] []
    (Some (mkRBTree None)) (Some (mkRBTree None)) None
    [mkSite 2 0.5 (Some 0); mkSite 3 0.5 (Some 1)]
    [] [mkEdge 0 (Some 1) None None] [] [].

(** An edge from [(-0.5, 0.5)] to [(0.5, 0.5)], which enters the unit box
    half way; both endpoints are in the vertex collection, and the pool
    holds one recycled vertex. *)
Definition crossingEdgeWorld : World :=
  mkWorld (Some [0; 1]) (Some [0])
    (Some [mkCell 0 [] false; mkCell 1 [] false]) None [] [] [2] [] []
    (Some (mkRBTree None)) (Some (mkRBTree None)) None
    [mkSite 0.25 0.75 (Some 0); mkSite 0.25 0.25 (Some 1)]
    [mkVertex (-0.5) 0.5; mkVertex 0.5 0.5; mkVertex 7 7]
    [mkEdge 0 (Some 1) (Some 0) (Some 1)] [] [].

(** An edge between [(-1e308, 0.5)] and [(1e308, 0.5)]: the difference of
    the abscissas overflows to infinity. *)
Definition hugeEdgeWorld : World :=
  mkWorld (Some [0; 1]) (Some [0])
    (Some [mkCell 0 [] false; mkCell 1 [] false]) None [] [] [] [] []
    (Some (mkRBTree None)) (Some (mkRBTree None)) None
    [mkSite 0.25 0.75 (Some 0); mkSite 0.25 0.25 (Some 1)]
    [mkVertex (-1e308) 0.5; mkVertex 1e308 0.5]
    [mkEdge 0 (Some 1) (Some 0) (Some 1)] [] [].

(** Three arcs in a row over the sites [(-1, 1)], [(0, 0)], [(1, 1)]. *)
Definition threeArcWorld : World :=
  mkWorld (Some []) (Some []) (Some []) None [] [] [] [] []
    (Some (mkRBTree None)) (Some (mkRBTree None)) None
    [mkSite (-1) 1 (Some 0); mkSite 0 0 (Some 1); mkSite 1 1 (Some 2)]
    [] []
    [mkBeachsection 0 None None (Some 1) None None;
     mkBeachsection 1 None (Some 0) (Some 2) None None;
     mkBeachsection 2 None (Some 1) None None None]
    [].

(** A new instance over one site, over three sites of which the first and
    the last have equal coordinates, and a used instance over the same
    three sites: pools filled, a diagram waiting to be recycled. *)
Definition oneSiteWorld : World := newVoronoi [mkSite 0.5 0.5 None].

Definition duplicateSites : list Site :=
  [mkSite 0.25 0.5 None; mkSite 0.75 0.5 None; mkSite 0.25 0.5 None].

Definition duplicateWorld : World := newVoronoi duplicateSites.

Definition usedWorld : World :=
  mkWorld (Some [3]) (Some []) (Some []) (Some (mkDiagram [mkCell 0 [] false] [] [0; 1]))
    [0] [] [2] [] [mkCell 1 [] true]
    (Some (mkRBTree None)) (Some (mkRBTree None)) None
    duplicateSites
    [mkVertex 0 0; mkVertex 1 1; mkVertex 2 2; mkVertex 3 3] []
    [mkBeachsection 0 None None None None None] [].

(** * The comparisons up to the tolerance *)

(** [equalWithEpsilon] and its four siblings. *)
Definition equalWithEpsilon (a b : float) : bool :=
  Num.ltb (PrimFloat.abs (a - b)) 1e-9%float.
Definition greaterThanWithEpsilon (a b : float) : bool :=
  Num.gtb (a - b) 1e-9%float.
Definition greaterThanOrEqualWithEpsilon (a b : float) : bool :=
  Num.ltb (b - a) 1e-9%float.
Definition lessThanWithEpsilon (a b : float) : bool :=
  Num.gtb (b - a) 1e-9%float.
Definition lessThanOrEqualWithEpsilon (a b : float) : bool :=
  Num.ltb (a - b) 1e-9%float.

(** * The cell queries *)

(** A halfedge object has the properties [site], [edge] and [angle] that
    its constructor assigns, and no method: the accessors [getStartpoint]
    and [getEndpoint] are methods of the [Voronoi] class that take the
    halfedge. *)





(** The loop of [getNeighborIds]; [!=] on identifiers, which are numbers or
    [undefined], is inequality of [option nat]. *)
Fixpoint neighborLoop (cell : Cell) (iHalfedge : nat) (neighbors : list (option nat))
    : M (list (option nat)) :=
  match iHalfedge with
  | 0 => ret neighbors
  | S i =>
      let* h := deref (halfedges cell !! i) in
      let* edge := getEdge (h_edge h) in
      let* ls := getSite (lSite edge) in
      let* own := getSite (c_site cell) in
      if bool_decide (voronoiId ls <> voronoiId own) then
        neighborLoop cell i (neighbors ++ [voronoiId ls])
      else
        match rSite edge with
        | Some r =>
            let* rs := getSite r in
            if bool_decide (voronoiId rs <> voronoiId own) then
              neighborLoop cell i (neighbors ++ [voronoiId rs])
            else neighborLoop cell i neighbors
        | None => neighborLoop cell i neighbors
        end
  end.

Definition getNeighborIds (cell : Cell) : M (list (option nat)) :=
  neighborLoop cell (length (halfedges cell)) [].

(** * Edges *)

(** [Math.atan2], which the primitive floats do not offer. *)
Class MathLib : Type := { atan2 : float -> float -> float }.

(** [createHalfedge], the constructor [Halfedge]: the angle of the line from
    the left to the right site, or, on a border edge, of the edge itself. *)
Definition createHalfedge `{MathLib} (edge : eref) (l : sref) (r : option sref)
    : M Halfedge :=
  match r with
  | Some r' =>
      let* rs := getSite r' in
      let* ls := getSite l in
      ret (mkHalfedge l edge (atan2 (s_y rs - s_y ls) (s_x rs - s_x ls)))
  | None =>
      let* ed := getEdge edge in
      let* b := deref (vb ed) in
      let* pb := getVertex b in
      let* a := deref (va ed) in
      let* pa := getVertex a in
      ret (mkHalfedge l edge
             (if Nat.eqb (lSite ed) l
              then atan2 (v_x pb - v_x pa) (v_y pa - v_y pb)
              else atan2 (v_x pa - v_x pb) (v_y pb - v_y pa)))
  end.

(** [setEdgeStartpoint(edge, lSite, rSite, vertex)] and
    [setEdgeEndpoint(edge, lSite, rSite, vertex)], for two site objects [l]
    and [r]. *)
Definition setEdgeStartpoint (edge : eref) (l r : sref) (vertex : vref) : M unit :=
  let* ed := getEdge edge in
  match va ed, vb ed with
  | None, None => setEdge edge (mkEdge l (Some r) (Some vertex) None)
  | _, _ =>
      if Nat.eqb (lSite ed) r
      then setEdge edge (mkEdge (lSite ed) (rSite ed) (va ed) (Some vertex))
      else setEdge edge (mkEdge (lSite ed) (rSite ed) (Some vertex) (vb ed))
  end.

Definition setEdgeEndpoint (edge : eref) (l r : sref) (vertex : vref) : M unit :=
  setEdgeStartpoint edge r l vertex.

(** The start of [createEdge] and [createBorderEdge]: take the last edge of
    the junkyard or allocate one, and give it its sites. *)
Definition takeEdge (fresh : Edge) (reuse : Edge -> Edge) : M eref :=
  let* junk := get edgeJunkyard in
  match last junk with
  | None =>
      let* st := get edgeStore in
      do* modify (set_edgeStore (st ++ [fresh])) in
      ret (length st)
  | Some e =>
      do* modify (set_edgeJunkyard (removelast junk)) in
      let* old := getEdge e in
      do* setEdge e (reuse old) in
      ret e
  end.

(** [this.edges.push(edge)]. *)
Definition pushEdge (e : eref) : M unit :=
  let* es := get edges in
  let* l := deref es in
  modify (set_edges (Some (l ++ [e]))).

(** [this.cells[site.voronoiId].halfedges.push(h)]. *)
Definition pushHalfedge (site : sref) (h : Halfedge) : M unit :=
  let* s := getSite site in
  let* cs := get cells in
  let* l := deref cs in
  let* i := deref (voronoiId s) in
  let* c := deref (l !! i) in
  modify (set_cells (Some (<[i := mkCell (c_site c) (halfedges c ++ [h]) (closeMe c)]> l))).

(** [createEdge(lSite, rSite, va, vb)], for two site objects [l] and [r]
    and the optional endpoints [a] and [b]. *)
Definition createEdge `{MathLib} (l r : sref) (a b : option vref) : M eref :=
  let* edge := takeEdge (mkEdge l (Some r) None None)
                 (fun _ => mkEdge l (Some r) None None) in
  do* pushEdge edge in
  do* (match a with
       | Some v => setEdgeStartpoint edge l r v
       | None => ret tt
       end) in
  do* (match b with
       | Some v => setEdgeEndpoint edge l r v
       | None => ret tt
       end) in
  let* hl := createHalfedge edge l (Some r) in
  do* pushHalfedge l hl in
  let* hr := createHalfedge edge r (Some l) in
  do* pushHalfedge r hr in
  ret edge.

(** [createBorderEdge(lSite, va, vb)]. *)
Definition createBorderEdge (l : sref) (a b : option vref) : M eref :=
  let* edge := takeEdge (mkEdge l None None None)
                 (fun old => mkEdge l None (va old) (vb old)) in
  let* ed := getEdge edge in
  do* setEdge edge (mkEdge (lSite ed) (rSite ed) a (vb ed)) in
  let* ed := getEdge edge in
  do* setEdge edge (mkEdge (lSite ed) (rSite ed) (va ed) b) in
  do* pushEdge edge in
  ret edge.

(** * The red-black tree *)

(** The tree operations are methods of the [Voronoi] class that read and
    write six properties of the nodes they are given (beach sections or
    circle events), and [this.beachline.root], whichever tree the node is
    in.  The nodes live in a store of their own; a link is [null] or a
    node. *)
Module RB.

Record Node : Type := mkNode {
  rbParent : option nat;
  rbLeft : option nat;
  rbRight : option nat;
  rbPrevious : option nat;
  rbNext : option nat;
  rbRed : bool
}.

(** The node store and [this.beachline] ([undefined] before the first
    [reset]). *)
Record Heap : Type := mkHeap {
  nodes : list Node;
  beachline : option RBTree
}.

Definition H (A : Type) : Type := Heap -> Heap * outcome A.

Definition ret {A} (a : A) : H A := fun h => (h, Ret a).
Definition throw {A} (e : exn) : H A := fun h => (h, Throw e).
Definition outOfFuel {A} : H A := fun h => (h, OutOfFuel).
Definition bind {A B} (m : H A) (k : A -> H B) : H B :=
  fun h =>
    match m h with
    | (h', Ret a) => k a h'
    | (h', Throw e) => (h', Throw e)
    | (h', OutOfFuel) => (h', OutOfFuel)
    end.
Definition get {A} (f : Heap -> A) : H A := fun h => (h, Ret (f h)).
Definition modify (f : Heap -> Heap) : H unit := fun h => (f h, Ret tt).
Definition deref {A} (o : option A) : H A :=
  match o with
  | Some a => ret a
  | None => throw TypeError
  end.

Declare Scope rb_scope.
Delimit Scope rb_scope with rb.
Notation "'let*' x ':=' m 'in' k" := (bind m (fun x => k))
  (at level 10, x name, m at level 100, k at level 200) : rb_scope.
Notation "'do*' m 'in' k" := (bind m (fun _ => k))
  (at level 10, m at level 100, k at level 200) : rb_scope.
Local Open Scope rb_scope.

Definition getNode (n : nat) : H Node :=
  let* st := get nodes in deref (st !! n).

(** [n.f = v] for each of the six properties. *)
Definition update (n : nat) (f : Node -> Node) : H unit :=
  let* x := getNode n in
  modify (fun h => mkHeap (<[n := f x]> (nodes h)) (beachline h)).

Definition setParent (n : nat) (v : option nat) : H unit :=
  update n (fun x => mkNode v (rbLeft x) (rbRight x) (rbPrevious x) (rbNext x) (rbRed x)).
Definition setLeft (n : nat) (v : option nat) : H unit :=
  update n (fun x => mkNode (rbParent x) v (rbRight x) (rbPrevious x) (rbNext x) (rbRed x)).
Definition setRight (n : nat) (v : option nat) : H unit :=
  update n (fun x => mkNode (rbParent x) (rbLeft x) v (rbPrevious x) (rbNext x) (rbRed x)).
Definition setPrevious (n : nat) (v : option nat) : H unit :=
  update n (fun x => mkNode (rbParent x) (rbLeft x) (rbRight x) v (rbNext x) (rbRed x)).
Definition setNext (n : nat) (v : option nat) : H unit :=
  update n (fun x => mkNode (rbParent x) (rbLeft x) (rbRight x) (rbPrevious x) v (rbRed x)).
Definition setRed (n : nat) (v : bool) : H unit :=
  update n (fun x => mkNode (rbParent x) (rbLeft x) (rbRight x) (rbPrevious x) (rbNext x) v).

(** [this.beachline.root], read and written. *)
Definition getRoot : H (option nat) :=
  let* b := get beachline in
  let* t := deref b in
  ret (root t).
Definition setRoot (r : option nat) : H unit :=
  let* b := get beachline in
  let* t := deref b in
  modify (fun h => mkHeap (nodes h) (Some (mkRBTree r))).

(** [x && x.rbRed]. *)
Definition isRed (x : option nat) : H bool :=
  match x with
  | Some n => let* nd := getNode n in ret (rbRed nd)
  | None => ret false
  end.

(** [getFirst(node)]: [while (node.rbLeft) { node = node.rbLeft; }]; each
    visited node costs one unit of fuel. *)
Fixpoint getFirst (fuel : nat) (node : nat) : H nat :=
  match fuel with
  | 0 => outOfFuel
  | S fuel' =>
      let* nd := getNode node in
      match rbLeft nd with
      | Some l => getFirst fuel' l
      | None => ret node
      end
  end.

Fixpoint getLast (fuel : nat) (node : nat) : H nat :=
  match fuel with
  | 0 => outOfFuel
  | S fuel' =>
      let* nd := getNode node in
      match rbRight nd with
      | Some r => getLast fuel' r
      | None => ret node
      end
  end.

(** The parent's link to [p], or the root when there is no parent, now
    names [q]: the first statement of both rotations, and the step of
    [rbRemoveNode] that puts [next] in the place of the node. *)
Definition replaceChild (parent : option nat) (p : nat) (q : option nat) : H unit :=
  match parent with
  | Some pa =>
      let* pan := getNode pa in
      if decide (rbLeft pan = Some p) then setLeft pa q else setRight pa q
  | None => setRoot q
  end.

Definition rbRotateLeft (node : nat) : H unit :=
  let p := node in
  let* pn := getNode p in
  let q := rbRight pn in
  let parent := rbParent pn in
  do* replaceChild parent p q in
  let* q := deref q in
  do* setParent q parent in
  do* setParent p (Some q) in
  let* qn := getNode q in
  do* setRight p (rbLeft qn) in
  let* pn := getNode p in
  do* (match rbRight pn with
       | Some x => setParent x (Some p)
       | None => ret tt
       end) in
  setLeft q (Some p).

Definition rbRotateRight (node : nat) : H unit :=
  let p := node in
  let* pn := getNode p in
  let q := rbLeft pn in
  let parent := rbParent pn in
  do* replaceChild parent p q in
  let* q := deref q in
  do* setParent q parent in
  do* setParent p (Some q) in
  let* qn := getNode q in
  do* setLeft p (rbRight qn) in
  let* pn := getNode p in
  do* (match rbLeft pn with
       | Some x => setParent x (Some p)
       | None => ret tt
       end) in
  setRight q (Some p).

(** The loop [while (parent && parent.rbRed)] of [rbInsertSuccessor]; each
    turn costs one unit of fuel. *)
Fixpoint rebalance (fuel : nat) (node : nat) (parent : option nat) : H unit :=
  match parent with
  | None => ret tt
  | Some p =>
      let* pn := getNode p in
      if negb (rbRed pn) then ret tt
      else
        match fuel with
        | 0 => outOfFuel
        | S fuel' =>
            let grandpa := rbParent pn in
            let* g := deref grandpa in
            let* gn := getNode g in
            let* node' :=
              (if decide (Some p = rbLeft gn) then
                 let uncle := rbRight gn in
                 let* red := isRed uncle in
                 if red then
                   let* u := deref uncle in
                   do* setRed u false in
                   do* setRed p false in
                   do* setRed g true in
                   ret g
                 else
                   let* pn := getNode p in
                   let* np :=
                     (if decide (Some node = rbRight pn) then
                        do* rbRotateLeft p in
                        let* nn := getNode p in
                        let* parent' := deref (rbParent nn) in
                        ret (p, parent')
                      else ret (node, p)) in
                   do* setRed np.2 false in
                   do* setRed g true in
                   do* rbRotateRight g in
                   ret np.1
               else
                 let uncle := rbLeft gn in
                 let* red := isRed uncle in
                 if red then
                   let* u := deref uncle in
                   do* setRed u false in
                   do* setRed p false in
                   do* setRed g true in
                   ret g
                 else
                   let* pn := getNode p in
                   let* np :=
                     (if decide (Some node = rbLeft pn) then
                        do* rbRotateRight p in
                        let* nn := getNode p in
                        let* parent' := deref (rbParent nn) in
                        ret (p, parent')
                      else ret (node, p)) in
                   do* setRed np.2 false in
                   do* setRed g true in
                   do* rbRotateLeft g in
                   ret np.1) in
            let* nn := getNode node' in
            rebalance fuel' node' (rbParent nn)
        end
  end.

(** [rbInsertSuccessor(node, successor)].  With [node] null and a root in
    the beachline, the second branch starts with
    [this.beachline.getFirst(...)], a call of a property the tree object
    does not have. *)
Definition rbInsertSuccessor (fuel : nat) (node : option nat) (successor : nat) : H unit :=
  let* parent :=
    match node with
    | Some parent =>
        do* setPrevious successor (Some parent) in
        let* pn := getNode parent in
        do* setNext successor (rbNext pn) in
        let* pn := getNode parent in
        do* (match rbNext pn with
             | Some nx => setPrevious nx (Some successor)
             | None => ret tt
             end) in
        do* setNext parent (Some successor) in
        let* pn := getNode parent in
        match rbRight pn with
        | Some r =>
            let* lm := getFirst fuel r in
            do* setLeft lm (Some successor) in
            ret (Some lm)
        | None =>
            do* setRight parent (Some successor) in
            ret (Some parent)
        end
    | None =>
        let* r := getRoot in
        match r with
        | Some _ => throw TypeError
        | None =>
            do* setNext successor None in
            do* setPrevious successor None in
            do* setRoot (Some successor) in
            ret None
        end
    end in
  do* setRight successor None in
  do* setLeft successor None in
  do* setParent successor parent in
  do* setRed successor true in
  do* rebalance fuel successor parent in
  let* r := getRoot in
  let* rt := deref r in
  setRed rt false.

(** The loop [do { ... } while (!node.rbRed)] of [rbRemoveNode]; each turn
    costs one unit of fuel.  The result is [node] when the loop is left. *)
Fixpoint removeLoop (fuel : nat) (node parent : option nat) : H (option nat) :=
  match fuel with
  | 0 => outOfFuel
  | S fuel' =>
      let* r := getRoot in
      if decide (node = r) then ret node
      else
        let* p := deref parent in
        let* pn := getNode p in
        if decide (node = rbLeft pn) then
          let* sibling := deref (rbRight pn) in
          let* sn := getNode sibling in
          let* sibling :=
            (if rbRed sn then
               do* setRed sibling false in
               do* setRed p true in
               do* rbRotateLeft p in
               let* pn := getNode p in
               deref (rbRight pn)
             else ret sibling) in
          let* sn := getNode sibling in
          let* lred := isRed (rbLeft sn) in
          let* anyRed := (if lred then ret true else isRed (rbRight sn)) in
          if anyRed then
            let* rred := isRed (rbRight sn) in
            let* sibling :=
              (if negb rred then
                 let* sl := deref (rbLeft sn) in
                 do* setRed sl false in
                 do* setRed sibling true in
                 do* rbRotateRight sibling in
                 let* pn := getNode p in
                 deref (rbRight pn)
               else ret sibling) in
            let* pn := getNode p in
            do* setRed sibling (rbRed pn) in
            let* sn := getNode sibling in
            let* sr := deref (rbRight sn) in
            do* setRed sr false in
            do* setRed p false in
            do* rbRotateLeft p in
            getRoot
          else
            do* setRed sibling true in
            let* pn := getNode p in
            if negb (rbRed pn) then removeLoop fuel' (Some p) (rbParent pn)
            else ret (Some p)
        else
          let* sibling := deref (rbLeft pn) in
          let* sn := getNode sibling in
          let* sibling :=
            (if rbRed sn then
               do* setRed sibling false in
               do* setRed p true in
               do* rbRotateRight p in
               let* pn := getNode p in
               deref (rbLeft pn)
             else ret sibling) in
          let* sn := getNode sibling in
          let* lred := isRed (rbLeft sn) in
          let* anyRed := (if lred then ret true else isRed (rbRight sn)) in
          if anyRed then
            let* lred := isRed (rbLeft sn) in
            let* sibling :=
              (if negb lred then
                 let* sr := deref (rbRight sn) in
                 do* setRed sr false in
                 do* setRed sibling true in
                 do* rbRotateLeft sibling in
                 let* pn := getNode p in
                 deref (rbLeft pn)
               else ret sibling) in
            let* pn := getNode p in
            do* setRed sibling (rbRed pn) in
            let* sn := getNode sibling in
            let* sl := deref (rbLeft sn) in
            do* setRed sl false in
            do* setRed p false in
            do* rbRotateRight p in
            getRoot
          else
            do* setRed sibling true in
            let* pn := getNode p in
            if negb (rbRed pn) then removeLoop fuel' (Some p) (rbParent pn)
            else ret (Some p)
  end.

(** [rbRemoveNode(node)]. *)
Definition rbRemoveNode (fuel : nat) (node : nat) : H unit :=
  let* nd := getNode node in
  do* (match rbNext nd with
       | Some nx => setPrevious nx (rbPrevious nd)
       | None => ret tt
       end) in
  let* nd := getNode node in
  do* (match rbPrevious nd with
       | Some pv => setNext pv (rbNext nd)
       | None => ret tt
       end) in
  do* setPrevious node None in
  do* setNext node None in
  let* nd := getNode node in
  let parent := rbParent nd in
  let left := rbLeft nd in
  let right := rbRight nd in
  let* next :=
    match left, right with
    | None, _ => ret right
    | Some _, None => ret left
    | Some _, Some r => let* f := getFirst fuel r in ret (Some f)
    end in
  do* replaceChild parent node next in
  let* st :=
    match left, right with
    | Some l, Some r =>
        let* nx := deref next in
        let* nxn := getNode nx in
        let red := rbRed nxn in
        let* nd := getNode node in
        do* setRed nx (rbRed nd) in
        do* setLeft nx left in
        do* setParent l (Some nx) in
        if decide (nx <> r) then
          let* nxn := getNode nx in
          let parent := rbParent nxn in
          let* nd := getNode node in
          do* setParent nx (rbParent nd) in
          let* nxn := getNode nx in
          let node' := rbRight nxn in
          let* p := deref parent in
          do* setLeft p node' in
          do* setRight nx right in
          do* setParent r (Some nx) in
          ret (red, node', parent)
        else
          do* setParent nx parent in
          let* nxn := getNode nx in
          ret (red, rbRight nxn, Some nx)
    | _, _ =>
        let* nd := getNode node in
        ret (rbRed nd, next, parent)
    end in
  let red := st.1.1 in
  let node' := st.1.2 in
  let parent' := st.2 in
  do* (match node' with
       | Some n => setParent n parent'
       | None => ret tt
       end) in
  if red then ret tt
  else
    let* nred := isRed node' in
    if nred then
      let* n := deref node' in
      setRed n false
    else
      let* final := removeLoop fuel node' parent' in
      match final with
      | Some n => setRed n false
      | None => ret tt
      end.

End RB.

(** * Notions the further properties are stated with *)

(** The pools and the diagram to recycle, less the cell pool. *)
Definition samePools (w w' : World) : Prop :=
  toRecycle w' = toRecycle w /\ vertexJunkyard w' = vertexJunkyard w
  /\ edgeJunkyard w' = edgeJunkyard w /\ cellJunkyard w' = cellJunkyard w.



(** From [w] to [w'] nothing changed but the beach sections: their store
    and their pool. *)
Definition onlyArcs (w w' : World) : Prop :=
  w' = set_arcStore (arcStore w')
         (set_beachsectionJunkyard (beachsectionJunkyard w') w).

(** The pair of clip parameters is ordered and within [[0, 1]]. *)
Definition inUnit (t : float * float) : Prop :=
  Num.leb 0%float t.1 = true /\ Num.leb t.1 t.2 = true /\ Num.leb t.2 1%float = true.


(** [cell.halfedges.push(h)] on a cell. *)
Definition addHalfedge (h : Halfedge) (c : Cell) : Cell :=
  mkCell (c_site c) (halfedges c ++ [h]) (closeMe c).

(** The identifier [getNeighborIds] pushes for a halfedge of a cell whose
    own identifier is [own], if it pushes one. *)
Definition neighborOf (w : World) (own : option nat) (h : Halfedge) : option (option nat) :=
  ed ← edgeStore w !! h_edge h;
  ls ← siteStore w !! lSite ed;
  if bool_decide (voronoiId ls <> own) then Some (voronoiId ls)
  else
    r ← rSite ed;
    rs ← siteStore w !! r;
    if bool_decide (voronoiId rs <> own) then Some (voronoiId rs) else None.

(** The references of a cell lead to stored objects. *)
Definition cellStored (w : World) (cell : Cell) : Prop :=
  is_Some (siteStore w !! c_site cell)
  /\ forall h, h ∈ halfedges cell ->
       exists ed, edgeStore w !! h_edge h = Some ed
         /\ lSite ed < length (siteStore w)
         /\ forall r, rSite ed = Some r -> r < length (siteStore w).

(** Every address in the edge junkyard names a stored edge. *)
Definition edgePoolValid (w : World) : Prop :=
  forall e, e ∈ edgeJunkyard w -> e < length (edgeStore w).

(** The edge [takeEdge] hands out: the last one of the junkyard, or a new
    address. *)
Definition nextEdge (w : World) : eref :=
  default (length (edgeStore w)) (last (edgeJunkyard w)).

(** From [w] to [w'] nothing changed but the edges: their store, their
    junkyard, the diagram's edge collection, and the cells. *)
Definition onlyEdges (w w' : World) : Prop :=
  w' = set_cells (cells w') (set_edges (edges w')
         (set_edgeStore (edgeStore w') (set_edgeJunkyard (edgeJunkyard w') w))).

Module RBSpec.
Import RB.

(** A binary tree of node addresses, and the addresses in order. *)
Inductive tree : Type :=
  | Leaf
  | Tr (l : tree) (n : nat) (r : tree).

Fixpoint inorder (t : tree) : list nat :=
  match t with
  | Leaf => []
  | Tr l n r => inorder l ++ n :: inorder r
  end.

Fixpoint height (t : tree) : nat :=
  match t with
  | Leaf => 0
  | Tr l _ r => S (Nat.max (height l) (height r))
  end.

(** The child links of the store draw the tree [t] below the link [x]. *)
Inductive shape (h : Heap) : option nat -> tree -> Prop :=
  | shape_leaf : shape h None Leaf
  | shape_node n nd l r :
      nodes h !! n = Some nd ->
      shape h (rbLeft nd) l -> shape h (rbRight nd) r ->
      shape h (Some n) (Tr l n r).

(** From [h] to [h'] no node was added or removed and the links of the
    list of nodes, [rbPrevious] and [rbNext], are what they were. *)
Definition sameList (h h' : Heap) : Prop :=
  length (nodes h') = length (nodes h)
  /\ forall k, rbPrevious <$> nodes h' !! k = rbPrevious <$> nodes h !! k
            /\ rbNext <$> nodes h' !! k = rbNext <$> nodes h !! k.

(** [m] relates the store before to the store after by [P], whatever the
    outcome. *)
Definition keeps {A} (P : Heap -> Heap -> Prop) (m : H A) : Prop :=
  forall h h' o, m h = (h', o) -> P h h'.

End RBSpec.

(** ** Further concrete inputs *)

(** The cell of the first site of [danglingEdgeWorld] with its halfedge on
    the edge between the two sites. *)
Definition leftCell : Cell := mkCell 0 [mkHalfedge 0 0 0] false.


(** A diagram to recycle: one cell, two vertices. *)
Definition oldDiagram : Diagram := mkDiagram [mkCell 0 [] false] [] [0; 1].

(** A stand-in for [Math.atan2] where an example needs one: which angle it
    answers plays no role there. *)
Definition flatAngles : MathLib := {| atan2 := fun _ _ => 0%float |}.

Module RBExamples.
Import RB RBSpec.

(** One node outside any tree, and an empty beachline. *)
Definition emptyHeap : Heap :=
  mkHeap [mkNode None None None None None false] (Some (mkRBTree None)).

(** The tree [0 < 1 < 2] with root [1], its nodes linked in order, and a
    node [3] outside the tree. *)
Definition threeNodeHeap : Heap :=
  mkHeap [mkNode (Some 1) None None None (Some 1) true;
          mkNode None (Some 0) (Some 2) (Some 0) (Some 2) false;
          mkNode (Some 1) None None (Some 1) None true;
          mkNode None None None None None false]
    (Some (mkRBTree (Some 1))).

Definition threeNodeTree : tree := Tr (Tr Leaf 0 Leaf) 1 (Tr Leaf 2 Leaf).

End RBExamples.

(** * Properties *)

(** ** Numbers *)

Lemma SFcompare_None_iff f1 f2 :
  SFcompare f1 f2 = None <-> f1 = S754_nan \/ f2 = S754_nan.
Proof.
  destruct f1, f2; simpl; split; intros H; try done; try (by left); try (by right);
    try (by destruct H as [H|H]).
Qed.

Lemma SFcompare_antisym f1 f2 :
  SFcompare f2 f1 = CompOpp <$> SFcompare f1 f2.
Proof.
  destruct f1 as [s1|s1| |s1 m1 e1], f2 as [s2|s2| |s2 m2 e2]; simpl; try done;
    try (by destruct s1); try (by destruct s2); try (by destruct s1, s2).
  f_equal. destruct s1, s2; try done.
  - rewrite (Z.compare_antisym e1 e2). destruct (e1 ?= e2)%Z; simpl; try done.
    f_equal. change PosDef.Pos.compare_cont with Pos.compare_cont.
    symmetry. apply (Pos.compare_cont_antisym m1 m2 Eq).
  - rewrite (Z.compare_antisym e1 e2). destruct (e1 ?= e2)%Z; simpl; try done.
    change PosDef.Pos.compare_cont with Pos.compare_cont.
    symmetry. apply (Pos.compare_cont_antisym m1 m2 Eq).
Qed.

Lemma is_nan_Prim2SF x : Num.is_nan x = false -> Prim2SF x <> S754_nan.
Proof.
  unfold Num.is_nan, PrimFloat.is_nan. rewrite FloatAxioms.eqb_spec. unfold SFeqb. intros H Hn.
  rewrite Hn in H. done.
Qed.

(** On numbers that are not NaN, [a < b] is the negation of [a >= b]. *)
Lemma ltb_not_geb (a b : float) :
  Num.is_nan a = false -> Num.is_nan b = false ->
  Num.ltb a b = negb (Num.geb a b).
Proof.
  intros Ha Hb. unfold Num.ltb, Num.geb. rewrite FloatAxioms.ltb_spec, FloatAxioms.leb_spec.
  unfold SFltb, SFleb. rewrite (SFcompare_antisym (Prim2SF a) (Prim2SF b)).
  destruct (SFcompare (Prim2SF a) (Prim2SF b)) as [[]|] eqn:Hc; try done.
  apply SFcompare_None_iff in Hc as [Hc|Hc]; by apply is_nan_Prim2SF in Hc.
Qed.

(** ** filterSimilarPoints refines its specification *)

Import Filter.

Section FilterProofs.
Context (threshold : float).
Local Abbreviation close := (tooClose threshold).

Lemma markLoop_spec (points : list Point) (k : nat) :
  k + 1 <= length points ->
  exists S : gset nat,
    foldl (markStep points threshold) (Ret ∅) (seq 0 k) = Ret S
    /\ forall j, j ∈ S <-> markedUpTo threshold points k j.
Proof.
  induction k as [|k IH]; intros Hk.
  - exists ∅. split; [done|]. intros j. split; [set_solver|].
    intros (i & ? & ? & _ & Hi & _). lia.
  - destruct IH as (S & HS & Hmem); [lia|].
    rewrite seq_S, foldl_app, HS. simpl. unfold markStep. simpl.
    destruct (lookup_lt_is_Some_2 points k) as [pt Hpt]; [lia|].
    destruct (lookup_lt_is_Some_2 points (k + 1)) as [nx Hnx]; [lia|].
    unfold elemAt. rewrite Hpt, Hnx. simpl.
    destruct (close pt nx) eqn:Hc.
    + eexists. split; [done|]. intros j. rewrite elem_of_union, elem_of_singleton, Hmem.
      split.
      * intros [-> | (i & p & q & ? & ? & ?)].
        -- exists k, pt, nx. repeat split; auto.
        -- exists i, p, q. repeat split; try tauto; lia.
      * intros (i & p & q & -> & Hi & Hp & Hq & Hcl).
        destruct (decide (i = k)) as [->|]; [by left|].
        right. exists i, p, q. repeat split; auto. lia.
    + exists S. split; [done|]. intros j. rewrite Hmem. split.
      * intros (i & p & q & ? & ? & ?). exists i, p, q. repeat split; try tauto; lia.
      * intros (i & p & q & -> & Hi & Hp & Hq & Hcl).
        destruct (decide (i = k)) as [->|].
        -- congruence.
        -- exists i, p, q. repeat split; auto. lia.
Qed.

Lemma keepFrom_cons (S : gset nat) k p l :
  keepFrom S k (p :: l) = (if decide (k ∈ S) then [] else [p]) ++ keepFrom S (k + 1) l.
Proof.
  unfold keepFrom. rewrite imap_cons. simpl.
  rewrite (imap_ext _ (fun i p => (k + 1 + i, p)) l) by (intros; simpl; f_equal; lia).
  rewrite filter_cons. simpl. replace (k + 0) with k by lia.
  destruct (decide (k ∈ S)); destruct (decide (k ∉ S)); try tauto; done.
Qed.

Lemma keepFrom_dropNearPrevious (S : gset nat) (points : list Point) (first : Point) :
  (forall j, 1 <= j -> j ∈ S <->
     (exists pt nx, points !! (j - 1) = Some pt /\ points !! j = Some nx
                    /\ close pt nx = true)
     \/ (j = length points - 1 /\ exists lst, points !! j = Some lst
                    /\ close first lst = true)) ->
  forall l pre prev, points = pre ++ prev :: l ->
    keepFrom S (length pre + 1) l = dropNearPrevious threshold first prev l.
Proof.
  intros HS l. induction l as [|p l' IH]; intros pre prev Hpts; [done|].
  rewrite keepFrom_cons. simpl.
  rewrite <- (IH (pre ++ [prev]) p)
    by (rewrite Hpts, <- app_assoc; done).
  rewrite length_app. simpl. f_equal.
  assert (Hprev : points !! (length pre + 1 - 1) = Some prev).
  { rewrite Hpts. replace (length pre + 1 - 1) with (length pre + 0) by lia.
    by rewrite lookup_app_r, Nat.add_comm, Nat.add_sub by lia. }
  assert (Hp : points !! (length pre + 1) = Some p).
  { rewrite Hpts. rewrite lookup_app_r by lia.
    by replace (length pre + 1 - length pre) with 1 by lia. }
  assert (Hlen : length points = length pre + 2 + length l').
  { rewrite Hpts, length_app. simpl. lia. }
  specialize (HS (length pre + 1) ltac:(lia)).
  destruct (decide (length pre + 1 ∈ S)) as [Hin|Hout].
  - apply HS in Hin. destruct Hin as [(pt & nx & H1 & H2 & Hc)|(Hj & lst & H1 & Hc)].
    + rewrite Hprev in H1. rewrite Hp in H2. simplify_eq. by rewrite Hc.
    + rewrite Hp in H1. simplify_eq. destruct l'; simpl in *; [|lia].
      rewrite Hc. by rewrite orb_true_r.
  - destruct (close prev p) eqn:Hc1.
    { exfalso. apply Hout, HS. left. eauto. }
    simpl. destruct l' as [|q l'']; [|done].
    destruct (close first p) eqn:Hc2; [|done].
    exfalso. apply Hout, HS. right. split; [simpl in Hlen; lia|]. eauto.
Qed.

Lemma indexes_spec (points : list Point) first rest :
  points = first :: rest -> rest <> [] ->
  exists S : gset nat,
    indexesTooCloseToPrevious points threshold = Ret S
    /\ (0 ∉ S)
    /\ forall j, 1 <= j -> j ∈ S <->
     (exists pt nx, points !! (j - 1) = Some pt /\ points !! j = Some nx
                    /\ close pt nx = true)
     \/ (j = length points - 1 /\ exists lst, points !! j = Some lst
                    /\ close first lst = true).
Proof.
  intros Hpts Hrest.
  assert (Hlen : 2 <= length points).
  { rewrite Hpts. destruct rest; [done|simpl; lia]. }
  destruct (markLoop_spec points (length points - 1)) as (S & HS & Hmem); [lia|].
  unfold indexesTooCloseToPrevious. rewrite HS. simpl.
  destruct (lookup_lt_is_Some_2 points (length points - 1)) as [lst Hlst]; [lia|].
  assert (H0 : points !! 0 = Some first) by (by rewrite Hpts).
  unfold elemAt. rewrite H0, Hlst. simpl.
  assert (Hmarked : forall j, 1 <= j -> markedUpTo threshold points (length points - 1) j <->
     (exists pt nx, points !! (j - 1) = Some pt /\ points !! j = Some nx
                    /\ close pt nx = true)).
  { intros j Hj. split.
    - intros (i & pt & nx & -> & Hi & Hp & Hn & Hc).
      exists pt, nx. replace (i + 1 - 1) with i by lia. done.
    - intros (pt & nx & Hp & Hn & Hc). exists (j - 1), pt, nx.
      pose proof (lookup_lt_Some _ _ _ Hn). repeat split; auto; lia. }
  assert (H0S : 0 ∉ S).
  { rewrite Hmem. intros (i & ? & ? & ? & _). lia. }
  destruct (close first lst) eqn:Hc.
  - eexists. split; [done|]. split; [rewrite elem_of_union, elem_of_singleton; intros [? | ?]; [lia | done]|].
    intros j Hj. rewrite elem_of_union, elem_of_singleton, Hmem, Hmarked by done.
    split.
    + intros [-> | ?]; [right; eauto | by left].
    + intros [? | (-> & _)]; [by right | by left].
  - exists S. split; [done|]. split; [done|].
    intros j Hj. rewrite Hmem, Hmarked by done. split; [by left|].
    intros [? | (-> & l' & Hl & Hc')]; [done|]. congruence.
Qed.

Lemma filterSimilarPoints_refines (points : list Point) :
  2 <= length points ->
  filterSimilarPoints points threshold = Ret (filterSimilarPoints_spec threshold points).
Proof.
  intros Hlen. destruct points as [|first rest]; [simpl in Hlen; lia|].
  assert (Hrest : rest <> []) by (destruct rest; [simpl in Hlen; lia|done]).
  destruct (indexes_spec (first :: rest) first rest eq_refl Hrest) as (S & HS & H0 & Hmem).
  unfold filterSimilarPoints. rewrite HS. simpl.
  assert (Hf : filterByIndex S (first :: rest)
               = first :: dropNearPrevious threshold first first rest).
  { change (filterByIndex S (first :: rest)) with (keepFrom S 0 (first :: rest)).
    rewrite keepFrom_cons. destruct (decide (0 ∈ S)); [done|]. simpl. f_equal.
    apply (keepFrom_dropNearPrevious S (first :: rest) first Hmem rest [] first eq_refl). }
  rewrite Hf. set (l := dropNearPrevious threshold first first rest).
  unfold elemAt. simpl lookup at 1. simpl.
  unfold dropLastIfNearFirst.
  rewrite (last_lookup (first :: l)). simpl length. simpl pred.
  replace (Datatypes.S (length l) - 1) with (length l) by lia.
  destruct (lookup_lt_is_Some_2 (first :: l) (length l)) as [lst Hl]; [simpl; lia|].
  rewrite Hl. simpl. rewrite Nat.sub_0_r, Hl. done.
Qed.
End FilterProofs.

(** ** The world monad *)

Lemma bind_Ret {A B} (m : M A) (k : A -> M B) w w' a :
  m w = (w', Ret a) -> bind m k w = k a w'.
Proof. unfold bind. by intros ->. Qed.

Lemma bind_Throw {A B} (m : M A) (k : A -> M B) w w' e :
  m w = (w', Throw e) -> bind m k w = (w', Throw e).
Proof. unfold bind. by intros ->. Qed.

Lemma bind_get {A B} (f : World -> A) (k : A -> M B) w :
  bind (get f) k w = k (f w) w.
Proof. done. Qed.

Lemma bind_modify {B} (f : World -> World) (k : unit -> M B) w :
  bind (modify f) k w = k tt (f w).
Proof. done. Qed.

Lemma bind_ret {A B} (a : A) (k : A -> M B) w : bind (ret a) k w = k a w.
Proof. done. Qed.

Lemma bind_deref_Some {A B} (a : A) (k : A -> M B) w :
  bind (deref (Some a)) k w = k a w.
Proof. done. Qed.

Lemma bind_bind {A B C} (m : M A) (k : A -> M B) (h : B -> M C) w :
  bind (bind m k) h w = bind m (fun a => bind (k a) h) w.
Proof. unfold bind. destruct (m w) as [w' [a|e|]]; done. Qed.

Lemma getSite_Some s x w : siteStore w !! s = Some x -> getSite s w = (w, Ret x).
Proof. unfold getSite. rewrite bind_get. by intros ->. Qed.
Lemma getVertex_Some v x w : vertexStore w !! v = Some x -> getVertex v w = (w, Ret x).
Proof. unfold getVertex. rewrite bind_get. by intros ->. Qed.
Lemma getEdge_Some e x w : edgeStore w !! e = Some x -> getEdge e w = (w, Ret x).
Proof. unfold getEdge. rewrite bind_get. by intros ->. Qed.
Lemma getArc_Some a x w : arcStore w !! a = Some x -> getArc a w = (w, Ret x).
Proof. unfold getArc. rewrite bind_get. by intros ->. Qed.
Lemma getEvent_Some c x w : eventStore w !! c = Some x -> getEvent c w = (w, Ret x).
Proof. unfold getEvent. rewrite bind_get. by intros ->. Qed.

Ltac mstep :=
  repeat first [rewrite bind_bind | rewrite bind_get | rewrite bind_modify
               | rewrite bind_ret | rewrite bind_deref_Some];
  cbn beta iota.

(** ** vertexStep is a preorder *)

Lemma vertexStep_refl w : vertexStep w w.
Proof.
  split; [|split; [lia|split; [done|]]].
  - intros vs ->. exists []. by rewrite app_nil_r.
  - intros _ Hp. split; [done|]. intros vs Hvs. split; [done|].
    exists []. split; [by rewrite app_nil_r|]. intros v Hv. by apply elem_of_nil in Hv.
Qed.

Lemma vertexStep_trans w1 w2 w3 :
  vertexStep w1 w2 -> vertexStep w2 w3 -> vertexStep w1 w3.
Proof.
  intros (Ha1 & Ha2 & Ha3 & Ha4) (Hb1 & Hb2 & Hb3 & Hb4).
  split; [|split; [lia|split; [auto|]]].
  - intros vs Hvs. destruct (Ha1 _ Hvs) as [n1 H1]. destruct (Hb1 _ H1) as [n2 H2].
    exists (n1 ++ n2). by rewrite app_assoc.
  - intros Hj Hp. destruct (Ha4 Hj Hp) as [Hp2 Hc2].
    destruct (Hb4 (Ha3 Hj) Hp2) as [Hp3 Hc3]. split; [done|].
    intros vs Hvs. destruct (Hc2 _ Hvs) as (Hk2 & n1 & H1 & Hn1).
    destruct (Hc3 _ H1) as (Hk3 & n2 & H2 & Hn2). split.
    + intros v Hv. rewrite Hk3, Hk2; auto. apply elem_of_app; auto.
    + exists (n1 ++ n2). split; [by rewrite app_assoc|].
      intros v Hv. apply elem_of_app in Hv as [Hv|Hv]; [auto|].
      intros Hin. apply (Hn2 _ Hv). apply elem_of_app; auto.
Qed.

Lemma restSame_refl w : restSame w w.
Proof. by repeat split. Qed.

Lemma restSame_trans w1 w2 w3 : restSame w1 w2 -> restSame w2 w3 -> restSame w1 w3.
Proof.
  intros (?&?&?&?) (?&?&?&?). repeat split; congruence.
Qed.

(** ** createVertex *)

Lemma createVertex_ok x y w :
  is_Some (vertices w) -> junkValid w ->
  exists w' v,
    createVertex x y w = (w', Ret v)
    /\ vertexStep w w' /\ restSame w w'
    /\ vertexStore w' !! v = Some (mkVertex x y)
    /\ (forall vs, vertices w = Some vs -> vertices w' = Some (vs ++ [v]) /\
          (poolOk w -> v ∉ vs)).
Proof.
  intros [vs Hvs] Hjunk. unfold createVertex. mstep.
  destruct (last (vertexJunkyard w)) as [v|] eqn:Hlast.
  - (* a recycled vertex *)
    mstep. simpl. rewrite Hvs. mstep.
    assert (Hv : v ∈ vertexJunkyard w).
    { apply last_Some in Hlast as [l' ->]. apply elem_of_app. right. by left. }
    assert (Hjk : vertexJunkyard w = removelast (vertexJunkyard w) ++ [v]).
    { apply last_Some in Hlast as [l' ->]. by rewrite removelast_last. }
    eexists _, v. split; [done|]. simpl.
    split; [|split; [by repeat split|split]].
    + unfold vertexStep, junkValid, poolOk. simpl. rewrite !length_insert.
      split; [intros ? ?; simplify_eq; eauto|]. split; [lia|]. split.
      { intros H u Hu. apply H. rewrite Hjk. apply elem_of_app; auto. }
      intros _ (vs' & ? & Hnd & Hdis & Hval). simplify_eq.
      rewrite Hjk in Hnd. apply NoDup_app in Hnd as (Hnd1 & Hnd2 & _).
      split.
      * exists (vs ++ [v]). repeat split; auto.
        -- intros u Hu Hin. apply elem_of_app in Hin as [Hin|Hin].
           ++ apply (Hdis u); [|done]. rewrite Hjk. apply elem_of_app; auto.
           ++ apply list_elem_of_singleton in Hin as ->. apply (Hnd2 _ Hu). by left.
        -- intros u Hu. apply elem_of_app in Hu as [Hu|Hu]; [auto|].
           apply list_elem_of_singleton in Hu as ->. auto.
      * intros vs' ?. simplify_eq. split.
        -- intros u Hu. rewrite list_lookup_insert_ne; [done|].
           intros ->. by apply (Hdis u).
        -- exists [v]. split; [done|]. intros u Hu.
           apply list_elem_of_singleton in Hu as ->. by apply Hdis.
    + apply list_lookup_insert_eq. auto.
    + intros vs' ?. simplify_eq. split; [done|].
      intros (vs2 & ? & _ & Hdis & _). simplify_eq. by apply Hdis.
  - (* a new vertex *)
    mstep. simpl. rewrite Hvs. mstep.
    eexists _, _. split; [done|]. simpl.
    split; [|split; [by repeat split|split]].
    + unfold vertexStep, junkValid, poolOk. simpl. rewrite !length_app. simpl.
      split; [intros ? ?; simplify_eq; eauto|]. split; [lia|]. split.
      { intros H u Hu. specialize (H u Hu). lia. }
      intros Hj (vs' & ? & Hnd & Hdis & Hval). simplify_eq. split.
      * exists (vs ++ [length (vertexStore w)]). repeat split; auto.
        -- intros u Hu Hin. apply elem_of_app in Hin as [Hin|Hin].
           ++ by apply (Hdis u).
           ++ apply list_elem_of_singleton in Hin as ->. specialize (Hj _ Hu). lia.
        -- intros u Hu. apply elem_of_app in Hu as [Hu|Hu].
           ++ specialize (Hval _ Hu). lia.
           ++ apply list_elem_of_singleton in Hu as ->. lia.
      * intros vs' ?. simplify_eq. split.
        -- intros u Hu. apply lookup_app_l. auto.
        -- exists [length (vertexStore w)]. split; [done|]. intros u Hu.
           apply list_elem_of_singleton in Hu as ->. intros Hin.
           specialize (Hval _ Hin). lia.
    + rewrite lookup_app_r by lia. by rewrite Nat.sub_diag.
    + intros vs' ?. simplify_eq. split; [done|].
      intros (vs2 & ? & _ & _ & Hval) Hin. simplify_eq. specialize (Hval _ Hin). lia.
Qed.

Lemma vertexStep_is_Some w w' :
  vertexStep w w' -> is_Some (vertices w) -> is_Some (vertices w').
Proof. intros (H & _) [vs Hvs]. destruct (H _ Hvs) as [n ->]. eauto. Qed.

Lemma vertexStep_junkValid w w' : vertexStep w w' -> junkValid w -> junkValid w'.
Proof. intros (_ & _ & H & _). exact H. Qed.

Lemma vertexStep_length w w' :
  vertexStep w w' -> length (vertexStore w) <= length (vertexStore w').
Proof. intros (_ & H & _). exact H. Qed.

Lemma connectTo_ok va0 before beyond a b w :
  is_Some (vertices w) -> junkValid w ->
  (forall v, va0 = Some v -> v < length (vertexStore w)) ->
  exists w' r,
    connectTo va0 before beyond a b w = (w', Ret r)
    /\ vertexStep w w' /\ restSame w w'
    /\ (forall x y, r = Some (x, y) ->
          x < length (vertexStore w') /\ y < length (vertexStore w')).
Proof.
  intros Hvs Hjunk Hva. unfold connectTo.
  assert (Hstart : exists w1 r1,
    (match va0 with
     | Some v =>
         let* p := getVertex v in
         if before p then let* v' := createVertex a.1 a.2 in ret (Some v')
         else if beyond p then ret None else ret (Some v)
     | None => let* v := createVertex a.1 a.2 in ret (Some v)
     end) w = (w1, Ret r1)
    /\ vertexStep w w1 /\ restSame w w1
    /\ (forall x, r1 = Some x -> x < length (vertexStore w1))).
  { destruct va0 as [v|].
    - destruct (lookup_lt_is_Some_2 (vertexStore w) v) as [p Hp]; [auto|].
      rewrite (bind_Ret _ _ _ _ _ (getVertex_Some _ _ _ Hp)).
      destruct (before p).
      + destruct (createVertex_ok a.1 a.2 w Hvs Hjunk) as (w1 & v1 & Hc & Hs & Hr & Hl & _).
        rewrite (bind_Ret _ _ _ _ _ Hc). eexists _, _. split; [done|].
        split; [exact Hs|split; [exact Hr|]].
        intros x [= <-]. by apply lookup_lt_Some in Hl.
      + destruct (beyond p); eexists _, _; (split; [done|]);
          (split; [apply vertexStep_refl|split; [apply restSame_refl|]]);
          intros x ?; simplify_eq; auto.
    - destruct (createVertex_ok a.1 a.2 w Hvs Hjunk) as (w1 & v1 & Hc & Hs & Hr & Hl & _).
      rewrite (bind_Ret _ _ _ _ _ Hc). eexists _, _. split; [done|].
      split; [exact Hs|split; [exact Hr|]].
      intros x [= <-]. by apply lookup_lt_Some in Hl. }
  destruct Hstart as (w1 & r1 & Hrun & Hs1 & Hr1 & Hv1).
  rewrite (bind_Ret _ _ _ _ _ Hrun). destruct r1 as [va'|].
  - destruct (createVertex_ok b.1 b.2 w1) as (w2 & v2 & Hc & Hs & Hr & Hl & _);
      [by eapply vertexStep_is_Some|by eapply vertexStep_junkValid|].
    rewrite (bind_Ret _ _ _ _ _ Hc). eexists _, _. split; [done|].
    split; [by eapply vertexStep_trans|]. split; [by eapply restSame_trans|].
    intros x y [= <- <-]. split; [|by apply lookup_lt_Some in Hl].
    specialize (Hv1 _ eq_refl). apply vertexStep_length in Hs. lia.
  - eexists _, _. split; [done|]. split; [exact Hs1|split; [exact Hr1|done]].
Qed.

Lemma markCloseMe_ok i cs w :
  cells w = Some cs -> i < length cs ->
  exists cs',
    markCloseMe (Some i) w = (set_cells (Some cs') w, Ret tt)
    /\ length cs' = length cs
    /\ closeMe <$> cs' !! i = Some true
    /\ (forall k, closeMe <$> cs !! k = Some true -> closeMe <$> cs' !! k = Some true).
Proof.
  intros Hcs Hi. unfold markCloseMe. mstep. rewrite Hcs.
  destruct (lookup_lt_is_Some_2 cs i Hi) as [c Hc]. rewrite Hc.
  eexists. split; [done|]. rewrite length_insert. split; [done|]. split.
  - by rewrite list_lookup_insert_eq.
  - intros k Hk. destruct (decide (k = i)) as [->|].
    + by rewrite list_lookup_insert_eq.
    + by rewrite list_lookup_insert_ne.
Qed.

Lemma vertexStep_same w w' :
  vertices w' = vertices w -> vertexStore w' = vertexStore w ->
  vertexJunkyard w' = vertexJunkyard w -> vertexStep w w'.
Proof.
  intros H1 H2 H3. unfold vertexStep, junkValid, poolOk. rewrite H1, H2, H3.
  apply vertexStep_refl.
Qed.

Lemma frame_refl e w : frame e w w.
Proof. unfold frame, cellsLen. repeat split; eauto. Qed.

Lemma frame_trans e w1 w2 w3 : frame e w1 w2 -> frame e w2 w3 -> frame e w1 w3.
Proof.
  intros (Ha1 & Ha2 & Ha3 & Ha4 & Ha5 & Ha6) (Hb1 & Hb2 & Hb3 & Hb4 & Hb5 & Hb6).
  repeat split; try congruence.
  - intros cs Hcs. destruct (Ha3 _ Hcs) as (cs2 & H2 & Hl2).
    destruct (Hb3 _ H2) as (cs3 & H3 & Hl3). exists cs3. split; [done|lia].
  - intros e' Hne. rewrite Hb5, Ha5; done.
  - intros ed Hed. destruct (Ha6 _ Hed) as (ed2 & H2 & ? & ?).
    destruct (Hb6 _ H2) as (ed3 & H3 & ? & ?). exists ed3. repeat split; congruence.
Qed.

Lemma frame_restSame e w w' : restSame w w' -> frame e w w'.
Proof.
  intros (H1 & H2 & H3 & H4). unfold frame, cellsLen. rewrite H1, H2, H3, H4.
  repeat split; eauto.
Qed.

Lemma edgeReady_step e e' w w' :
  vertexStep w w' -> frame e w w' -> endpointsOk w' e ->
  edgeReady w e' -> edgeReady w' e'.
Proof.
  intros Hs (Hf1 & Hf2 & Hf3 & Hf4 & Hf5 & Hf6) Hend
    (ed & ls & r & rs & i & j & cs & Hed & Hls & Hr & Hrs & Hi & Hj & Hcs & Hil & Hjl
       & Hva & Hvb & Hab).
  destruct (Hf3 _ Hcs) as (cs' & Hcs' & Hlen).
  apply vertexStep_length in Hs.
  destruct (decide (e' = e)) as [->|Hne].
  - destruct (Hf6 _ Hed) as (ed' & Hed' & Hl & Hr').
    destruct (Hend _ Hed') as (? & ? & ?).
    exists ed', ls, r, rs, i, j, cs'. rewrite Hf1, Hl, Hr', Hlen. repeat split; auto.
  - exists ed, ls, r, rs, i, j, cs'. rewrite Hf1, Hf5, Hlen by done.
    repeat split; auto; intros v Hv; [specialize (Hva v Hv)|specialize (Hvb v Hv)]; lia.
Qed.

Lemma endpointsOk_of_ready w e : edgeReady w e -> endpointsOk w e.
Proof.
  intros (ed & ls & r & rs & i & j & cs & Hed & _ & _ & _ & _ & _ & _ & _ & _
            & Hva & Hvb & Hab) ed' Hed'. by simplify_eq.
Qed.

Lemma connectEnds_ok va0 lx ly rx ry bbox w :
  is_Some (vertices w) -> junkValid w ->
  (forall v, va0 = Some v -> v < length (vertexStore w)) ->
  exists w' r,
    connectEnds va0 lx ly rx ry bbox w = (w', Ret r)
    /\ vertexStep w w' /\ restSame w w'
    /\ (forall x y, r = Some (x, y) ->
          x < length (vertexStore w') /\ y < length (vertexStore w')).
Proof.
  intros Hvs Hj Hva. unfold connectEnds.
  repeat case_match; try (by apply connectTo_ok).
  eexists _, _. split; [done|]. split; [apply vertexStep_refl|].
  split; [apply restSame_refl|done].
Qed.

Lemma connectEdge_ok e bbox w :
  is_Some (vertices w) -> junkValid w -> edgeReady w e ->
  exists w' b,
    connectEdge e bbox w = (w', Ret b)
    /\ vertexStep w w' /\ frame e w w' /\ endpointsOk w' e
    /\ (b = true -> bothEndpoints w' e).
Proof.
  intros Hvs Hjunk Hready.
  pose proof (endpointsOk_of_ready _ _ Hready) as Hend0.
  destruct Hready as (ed & ls & r & rs & i & j & cs & Hed & Hls & Hr & Hrs & Hi & Hj
                        & Hcs & Hil & Hjl & Hva & Hvb & Hab).
  unfold connectEdge. rewrite (bind_Ret _ _ _ _ _ (getEdge_Some _ _ _ Hed)).
  destruct (vb ed) as [b0|] eqn:Hvbed.
  - exists w, true. split; [done|]. split; [apply vertexStep_refl|].
    split; [apply frame_refl|]. split; [done|]. intros _.
    destruct Hab as [a0 Ha0]; [eauto|]. exists ed, a0, b0. repeat split; auto.
  - rewrite (bind_Ret _ _ _ _ _ (getSite_Some _ _ _ Hls)), Hr. mstep.
    rewrite (bind_Ret _ _ _ _ _ (getSite_Some _ _ _ Hrs)), Hi, Hj.
    destruct (markCloseMe_ok i cs w Hcs Hil) as (cs1 & Hm1 & Hl1 & _).
    rewrite (bind_Ret _ _ _ _ _ Hm1).
    destruct (markCloseMe_ok j cs1 (set_cells (Some cs1) w) eq_refl ltac:(lia))
      as (cs2 & Hm2 & Hl2 & _).
    rewrite (bind_Ret _ _ _ _ _ Hm2). simpl.
    set (w2 := set_cells (Some cs2) w).
    destruct (connectEnds_ok (va ed) (s_x ls) (s_y ls) (s_x rs) (s_y rs) bbox w2)
      as (w3 & ends & Hce & Hs3 & Hr3 & Hv3); [done|done|by apply Hva|].
    rewrite (bind_Ret _ _ _ _ _ Hce).
    assert (Hs02 : vertexStep w w2) by (by apply vertexStep_same).
    assert (Hf02 : frame e w w2).
    { unfold frame, cellsLen. repeat split; eauto.
      intros cs0 ?. simplify_eq. exists cs2. split; [done|lia]. }
    destruct Hr3 as (Hr31 & Hr32 & Hr33 & Hr34).
    assert (Hed3 : edgeStore w3 !! e = Some ed) by (by rewrite Hr34).
    destruct ends as [[va' vb']|].
    + rewrite (bind_Ret _ _ _ _ _ (getEdge_Some _ _ _ Hed3)). mstep.
      destruct (Hv3 _ _ eq_refl) as [Hva' Hvb'].
      eexists _, true. split; [done|]. simpl.
      assert (He : e < length (edgeStore w3)) by (by apply lookup_lt_Some in Hed3).
      split; [|split; [|split]].
      * eapply vertexStep_trans; [exact Hs02|]. eapply vertexStep_trans; [exact Hs3|].
        by apply vertexStep_same.
      * eapply frame_trans; [exact Hf02|]. unfold frame, cellsLen. simpl.
        rewrite length_insert, Hr31, Hr32, Hr33, Hr34. repeat split; eauto.
        -- intros e' Hne. by rewrite list_lookup_insert_ne.
        -- intros ed0 Hed0. rewrite list_lookup_insert_eq by (by rewrite <- Hr34).
           simplify_eq. eauto.
      * intros ed' Hed'. simpl in Hed'. rewrite list_lookup_insert_eq in Hed' by done.
        simplify_eq. simpl. repeat split; intros; simplify_eq; eauto.
      * intros _. eexists _, va', vb'. simpl.
        rewrite list_lookup_insert_eq by done. repeat split; auto.
    + exists w3, false. split; [done|]. split; [by eapply vertexStep_trans|].
      split; [eapply frame_trans; [exact Hf02|]; by apply frame_restSame|].
      split; [|done]. intros ed' Hed'. simplify_eq.
      apply vertexStep_length in Hs3. simpl in Hs3.
      rewrite Hvbed. repeat split; [|done|by intros [? ?]].
      intros v Hv. specialize (Hva v Hv). lia.
Qed.

(** ** clipEdge *)

Lemma createVertex_fresh x y w vs :
  vertices w = Some vs -> junkValid w -> poolOk w ->
  forall w' v, createVertex x y w = (w', Ret v) -> v ∉ vs.
Proof.
  intros Hvs Hj Hp w' v Hc.
  destruct (createVertex_ok x y w) as (w1 & v1 & Hc1 & _ & _ & _ & Hnew); [eauto|done|].
  rewrite Hc in Hc1. simplify_eq. by apply (Hnew vs Hvs).
Qed.

(** The vertex and edge part of [clipEdge]: the two conditional
    replacements of the endpoints. *)
Lemma clipEdge_effect e bbox w ed a0 b0 a b :
  edgeStore w !! e = Some ed -> va ed = Some a0 -> vb ed = Some b0 ->
  vertexStore w !! a0 = Some a -> vertexStore w !! b0 = Some b ->
  is_Some (vertices w) -> junkValid w ->
  match clipParams a b bbox with
  | None => clipEdge e bbox w = (w, Ret false)
  | Some (t0, t1) =>
      let dx := (v_x b - v_x a)%float in
      let dy := (v_y b - v_y a)%float in
      exists w2 a1 b1,
        clipEdge e bbox w
        = (do* (if Num.gtb t0 0%float || Num.ltb t1 1%float
                then closeBothCells e else ret tt) in ret true) w2
        /\ vertexStep w w2
        /\ siteStore w2 = siteStore w /\ cells w2 = cells w /\ edges w2 = edges w
        /\ length (edgeStore w2) = length (edgeStore w)
        /\ (forall e', e' <> e -> edgeStore w2 !! e' = edgeStore w !! e')
        /\ edgeStore w2 !! e = Some (mkEdge (lSite ed) (rSite ed) (Some a1) (Some b1))
        /\ a1 < length (vertexStore w2) /\ b1 < length (vertexStore w2)
        /\ (if Num.gtb t0 0%float
            then forall vs, vertices w = Some vs -> poolOk w ->
                   (a1 ∉ vs)
                   /\ vertexStore w2 !! a1
                      = Some (mkVertex (v_x a + t0 * dx) (v_y a + t0 * dy))
            else a1 = a0)
        /\ (if Num.ltb t1 1%float
            then forall vs, vertices w = Some vs -> poolOk w ->
                   (b1 ∉ vs)
                   /\ vertexStore w2 !! b1
                      = Some (mkVertex (v_x a + t1 * dx) (v_y a + t1 * dy))
            else b1 = b0)
  end.
Proof.
  intros Hed Hva Hvb Ha Hb Hvs Hjunk.
  assert (He : e < length (edgeStore w)) by (by apply lookup_lt_Some in Hed).
  assert (Ha0 : a0 < length (vertexStore w)) by (by apply lookup_lt_Some in Ha).
  assert (Hb0 : b0 < length (vertexStore w)) by (by apply lookup_lt_Some in Hb).
  unfold clipEdge.
  rewrite (bind_Ret _ _ _ _ _ (getEdge_Some _ _ _ Hed)), Hva. mstep.
  rewrite (bind_Ret _ _ _ _ _ (getVertex_Some _ _ _ Ha)), Hvb. mstep.
  rewrite (bind_Ret _ _ _ _ _ (getVertex_Some _ _ _ Hb)).
  destruct (clipParams a b bbox) as [[t0 t1]|]; [|done]. cbn zeta.
  set (xa := (v_x a + t0 * (v_x b - v_x a))%float).
  set (ya := (v_y a + t0 * (v_y b - v_y a))%float).
  set (xb := (v_x a + t1 * (v_x b - v_x a))%float).
  set (yb_ := (v_y a + t1 * (v_y b - v_y a))%float).
  (* the first replacement *)
  assert (H1 : exists w1 a1,
    (if Num.gtb t0 0%float then let* v := createVertex xa ya in setVa e v else ret tt) w
      = (w1, Ret tt)
    /\ vertexStep w w1
    /\ siteStore w1 = siteStore w /\ cells w1 = cells w /\ edges w1 = edges w
    /\ length (edgeStore w1) = length (edgeStore w)
    /\ (forall e', e' <> e -> edgeStore w1 !! e' = edgeStore w !! e')
    /\ edgeStore w1 !! e = Some (mkEdge (lSite ed) (rSite ed) (Some a1) (Some b0))
    /\ a1 < length (vertexStore w1)
    /\ (if Num.gtb t0 0%float
        then forall vs, vertices w = Some vs ->
               vertices w1 = Some (vs ++ [a1])
               /\ vertexStore w1 !! a1 = Some (mkVertex xa ya)
               /\ (poolOk w -> a1 ∉ vs)
        else a1 = a0)).
  { destruct (Num.gtb t0 0%float).
    - destruct (createVertex_ok xa ya w Hvs Hjunk) as (w1 & v & Hc & Hs & Hr & Hl & Hnew).
      destruct Hr as (Hr1 & Hr2 & Hr3 & Hr4).
      rewrite (bind_Ret _ _ _ _ _ Hc). unfold setVa.
      rewrite (bind_Ret _ _ _ _ _ (getEdge_Some e ed w1 ltac:(by rewrite Hr4))).
      eexists _, v. split; [done|]. simpl. rewrite length_insert, Hr4.
      split; [eapply vertexStep_trans; [exact Hs|by apply vertexStep_same]|].
      repeat split; auto.
      + intros e' Hne. by rewrite list_lookup_insert_ne.
      + rewrite list_lookup_insert_eq by done. by rewrite Hvb.
      + by apply lookup_lt_Some in Hl.
      + by apply (Hnew vs).
      + by apply (Hnew vs).
    - exists w, a0. split; [done|]. split; [apply vertexStep_refl|].
      repeat split; auto. rewrite Hed. destruct ed; simpl in *; congruence. }
  destruct H1 as (w1 & a1 & Hrun1 & Hs1 & Hsite1 & Hcells1 & Hedges1 & Hlen1 & Hoth1
                    & Hed1 & Hval1 & Hnew1).
  rewrite (bind_Ret _ _ _ _ _ Hrun1).
  pose proof (vertexStep_is_Some _ _ Hs1 Hvs) as Hvs1.
  pose proof (vertexStep_junkValid _ _ Hs1 Hjunk) as Hjunk1.
  (* the second replacement *)
  assert (H2 : exists w2 b1,
    (if Num.ltb t1 1%float then let* v := createVertex xb yb_ in setVb e v else ret tt) w1
      = (w2, Ret tt)
    /\ vertexStep w1 w2
    /\ siteStore w2 = siteStore w1 /\ cells w2 = cells w1 /\ edges w2 = edges w1
    /\ length (edgeStore w2) = length (edgeStore w1)
    /\ (forall e', e' <> e -> edgeStore w2 !! e' = edgeStore w1 !! e')
    /\ edgeStore w2 !! e = Some (mkEdge (lSite ed) (rSite ed) (Some a1) (Some b1))
    /\ b1 < length (vertexStore w2)
    /\ (if Num.ltb t1 1%float
        then (forall vs1, vertices w1 = Some vs1 ->
               vertexStore w2 !! b1 = Some (mkVertex xb yb_)
               /\ (poolOk w1 -> b1 ∉ vs1))
        else b1 = b0)).
  { destruct (Num.ltb t1 1%float).
    - destruct (createVertex_ok xb yb_ w1 Hvs1 Hjunk1) as (w2 & v & Hc & Hs & Hr & Hl & Hnew).
      destruct Hr as (Hr1 & Hr2 & Hr3 & Hr4).
      rewrite (bind_Ret _ _ _ _ _ Hc). unfold setVb.
      rewrite (bind_Ret _ _ _ _ _ (getEdge_Some e _ w2 ltac:(by rewrite Hr4))).
      eexists _, v. split; [done|]. simpl. rewrite length_insert, Hr4.
      split; [eapply vertexStep_trans; [exact Hs|by apply vertexStep_same]|].
      repeat split; auto.
      + intros e' Hne. by rewrite list_lookup_insert_ne.
      + by rewrite list_lookup_insert_eq by lia.
      + by apply lookup_lt_Some in Hl.
      + by apply (Hnew vs1).
    - exists w1, b0. split; [done|]. split; [apply vertexStep_refl|].
      repeat split; auto. apply vertexStep_length in Hs1. lia. }
  destruct H2 as (w2 & b1 & Hrun2 & Hs2 & Hsite2 & Hcells2 & Hedges2 & Hlen2 & Hoth2
                    & Hed2 & Hval2 & Hnew2).
  rewrite (bind_Ret _ _ _ _ _ Hrun2).
  exists w2, a1, b1. split; [done|].
  split; [by eapply vertexStep_trans|].
  repeat split; try congruence.
  - intros e' Hne. by rewrite Hoth2, Hoth1.
  - apply vertexStep_length in Hs2. lia.
  - destruct (Num.gtb t0 0%float); [|done].
    intros vs Hw Hpool. destruct (Hnew1 vs Hw) as (Hpush & Hcoord & Hfresh).
    split; [by apply Hfresh|].
    destruct Hs1 as (_ & _ & _ & Hp1). destruct (Hp1 Hjunk Hpool) as [Hpool1 _].
    destruct Hs2 as (_ & _ & _ & Hp2). destruct (Hp2 Hjunk1 Hpool1) as [_ Hcol2].
    destruct (Hcol2 _ Hpush) as (Hkeep & _).
    rewrite Hkeep; [done|]. apply elem_of_app. right. by left.
  - destruct (Num.ltb t1 1%float); [|done].
    intros vs Hw Hpool.
    destruct Hs1 as (_ & _ & _ & Hp1). destruct (Hp1 Hjunk Hpool) as [Hpool1 Hcol1].
    destruct (Hcol1 vs Hw) as (_ & new & Hvs1' & _).
    destruct (Hnew2 _ Hvs1') as [Hcoord Hfresh]. split; [|done].
    intros Hin. apply (Hfresh Hpool1). apply elem_of_app. by left.
Qed.

Lemma closeBothCells_ok e w :
  edgeReady w e ->
  exists cs cs',
    cells w = Some cs /\ length cs' = length cs
    /\ closeBothCells e w = (set_cells (Some cs') w, Ret tt).
Proof.
  intros (ed & ls & r & rs & i & j & cs & Hed & Hls & Hr & Hrs & Hi & Hj & Hcs & Hil & Hjl & _).
  unfold closeBothCells.
  rewrite (bind_Ret _ _ _ _ _ (getEdge_Some _ _ _ Hed)).
  rewrite (bind_Ret _ _ _ _ _ (getSite_Some _ _ _ Hls)), Hi.
  destruct (markCloseMe_ok i cs w Hcs Hil) as (cs1 & Hm1 & Hl1 & _).
  rewrite (bind_Ret _ _ _ _ _ Hm1), Hr. mstep.
  rewrite (bind_Ret _ _ _ _ _ (getSite_Some r rs (set_cells (Some cs1) w) Hrs)), Hj.
  destruct (markCloseMe_ok j cs1 (set_cells (Some cs1) w) eq_refl ltac:(lia))
    as (cs2 & Hm2 & Hl2 & _).
  rewrite Hm2. exists cs, cs2. split; [done|]. split; [lia|done].
Qed.

Lemma bothEndpoints_inv w e :
  bothEndpoints w e ->
  exists ed a0 b0 a b,
    edgeStore w !! e = Some ed /\ va ed = Some a0 /\ vb ed = Some b0
    /\ vertexStore w !! a0 = Some a /\ vertexStore w !! b0 = Some b.
Proof.
  intros (ed & a0 & b0 & Hed & Ha & Hb & Hla & Hlb).
  destruct (lookup_lt_is_Some_2 _ _ Hla) as [a Hva].
  destruct (lookup_lt_is_Some_2 _ _ Hlb) as [b Hvb].
  exists ed, a0, b0, a, b. done.
Qed.

Lemma clipEdge_ok e bbox w :
  is_Some (vertices w) -> junkValid w -> edgeReady w e -> bothEndpoints w e ->
  exists w' b,
    clipEdge e bbox w = (w', Ret b)
    /\ vertexStep w w' /\ frame e w w' /\ endpointsOk w' e /\ bothEndpoints w' e.
Proof.
  intros Hvs Hjunk Hready Hboth.
  destruct (bothEndpoints_inv _ _ Hboth) as (ed & a0 & b0 & a & b & Hed & Ha0 & Hb0 & Ha & Hb).
  pose proof (clipEdge_effect e bbox w ed a0 b0 a b Hed Ha0 Hb0 Ha Hb Hvs Hjunk) as Heff.
  destruct (clipParams a b bbox) as [[t0 t1]|].
  - destruct Heff as (w2 & a1 & b1 & Hrun & Hs & Hsite & Hcells & Hedges & Hlen & Hoth
                        & Hed2 & Hva1 & Hvb1 & _).
    assert (Hf : frame e w w2).
    { unfold frame, cellsLen. rewrite Hsite, Hcells, Hedges, Hlen.
      repeat split; eauto. intros ed0 ?. simplify_eq. eauto. }
    assert (Hend : endpointsOk w2 e).
    { intros ed' ?. simplify_eq. simpl. repeat split; intros; simplify_eq; eauto. }
    assert (Hboth2 : bothEndpoints w2 e).
    { eexists _, a1, b1. split; [exact Hed2|]. done. }
    pose proof (edgeReady_step e e w w2 Hs Hf Hend Hready) as Hready2.
    rewrite Hrun. destruct (Num.gtb t0 0%float || Num.ltb t1 1%float).
    + destruct (closeBothCells_ok e w2 Hready2) as (cs & cs' & Hcs & Hl & Hclose).
      rewrite (bind_Ret _ _ _ _ _ Hclose). eexists _, true. split; [done|].
      split; [eapply vertexStep_trans; [exact Hs|by apply vertexStep_same]|].
      split; [eapply frame_trans; [exact Hf|]|split; [done|done]].
      unfold frame, cellsLen. simpl. repeat split; eauto.
      intros cs0 ?. simplify_eq. eauto.
    + exists w2, true. done.
  - exists w, false. split; [done|]. split; [apply vertexStep_refl|].
    split; [apply frame_refl|]. split; [by apply endpointsOk_of_ready|done].
Qed.

(** The third test of [clipEdges] answers by the coordinates of the two
    endpoints. *)
Lemma nearZero_ok e w :
  bothEndpoints w e ->
  exists a b, endpointsAt w e a b /\ nearZero e w = (w, Ret (pointLike a b)).
Proof.
  intros Hboth.
  destruct (bothEndpoints_inv _ _ Hboth) as (ed & a0 & b0 & a & b & Hed & Ha0 & Hb0 & Ha & Hb).
  exists a, b. split; [by exists ed, a0, b0|].
  unfold nearZero.
  rewrite (bind_Ret _ _ _ _ _ (getEdge_Some _ _ _ Hed)), Ha0. mstep.
  rewrite (bind_Ret _ _ _ _ _ (getVertex_Some _ _ _ Ha)), Hb0. mstep.
  rewrite (bind_Ret _ _ _ _ _ (getVertex_Some _ _ _ Hb)). done.
Qed.

Lemma endpointsAt_functional w e a b a' b' :
  endpointsAt w e a b -> endpointsAt w e a' b' -> a = a' /\ b = b'.
Proof.
  intros (ed & a0 & b0 & Hed & Ha0 & Hb0 & Ha & Hb)
         (ed' & a0' & b0' & Hed' & Ha0' & Hb0' & Ha' & Hb').
  by simplify_eq.
Qed.

(** The world after [dropEdge i e]. *)
Lemma dropEdge_ok i e w ed l :
  edgeStore w !! e = Some ed -> edges w = Some l ->
  dropEdge i e w
  = (set_edges (Some (delete i l))
       (set_edgeStore (<[e := mkEdge (lSite ed) (rSite ed) None None]> (edgeStore w)) w),
     Ret tt).
Proof.
  intros Hed Hl. unfold dropEdge.
  rewrite (bind_Ret _ _ _ _ _ (getEdge_Some _ _ _ Hed)). unfold setEdge. mstep.
  simpl. rewrite Hl. done.
Qed.

(** ** clipEdges *)

Lemma survivors_snoc ts e wb wa b :
  survivors (ts ++ [mkTurn e wb wa b]) = survivors ts ++ (if b then [e] else []).
Proof.
  unfold survivors. rewrite filter_app, fmap_app. f_equal.
  rewrite filter_cons, filter_nil. simpl. destruct b; by case_decide.
Qed.

Lemma elem_of_survivors ts e :
  e ∈ survivors ts <-> exists t, t ∈ ts /\ t_edge t = e /\ t_passed t = true.
Proof.
  unfold survivors. rewrite list_elem_of_fmap. split.
  - intros (t & -> & Hin). apply list_elem_of_filter in Hin as [Hb Hin]. eauto.
  - intros (t & Hin & <- & Hb). exists t. split; [done|].
    by apply list_elem_of_filter.
Qed.

(** Every recorded turn is a turn of its edge. *)
Lemma clipRun_turns bbox es w w' ts :
  clipRun bbox es w w' ts ->
  forall t, t ∈ ts -> verdict bbox (t_edge t) (t_before t) (t_after t) (t_passed t).
Proof.
  induction 1 as [|es e w w1 w2 w3 b ts Hv Hd Hrun IH]; intros t Hin.
  - by apply elem_of_nil in Hin.
  - apply elem_of_app in Hin as [Hin|Hin]; [by apply IH|].
    apply list_elem_of_singleton in Hin as ->. done.
Qed.

Lemma clipReady_drop e l w es ed :
  clipReady w es -> e ∉ es ->
  clipReady
    (set_edges (Some l)
       (set_edgeStore (<[e := ed]> (edgeStore w)) w)) es.
Proof.
  intros (Hvs & Hj & Hall) Hnot. split; [done|]. split; [done|].
  intros e' He'. destruct (Hall _ He')
    as (ed' & ls & r & rs & i & j & cs & Hed & Hrest).
  exists ed', ls, r, rs, i, j, cs. simpl. split; [|done].
  rewrite list_lookup_insert_ne; [done|]. intros ->. done.
Qed.

Lemma clipEdgesLoop_run bbox front :
  forall w kept,
    edges w = Some (front ++ kept) -> NoDup front -> clipReady w front ->
    exists w' ts,
      clipEdgesLoop bbox (length front) w = (w', Ret tt)
      /\ clipRun bbox front w w' ts
      /\ t_edge <$> ts = front
      /\ edges w' = Some (survivors ts ++ kept)
      /\ vertexStep w w'.
Proof.
  induction front as [|e es IH] using rev_ind; intros w kept Hedges Hnd Hready.
  - exists w, []. split; [done|]. split; [constructor|].
    split; [done|]. split; [done|]. apply vertexStep_refl.
  - apply NoDup_app in Hnd as (Hnd & Hnot & _).
    assert (Hnotin : e ∉ es) by (intros Hin; apply (Hnot _ Hin); by left).
    destruct Hready as (Hvs & Hjunk & Hall).
    assert (Hre : edgeReady w e) by (apply Hall, elem_of_app; right; by left).
    rewrite length_app. simpl. rewrite Nat.add_1_r. simpl.
    mstep. rewrite Hedges. mstep.
    assert (Hlook : ((es ++ [e]) ++ kept) !! length es = Some e).
    { rewrite <- app_assoc. rewrite lookup_app_r by lia. by rewrite Nat.sub_diag. }
    rewrite Hlook. mstep.
    destruct (connectEdge_ok e bbox w Hvs Hjunk Hre)
      as (w1 & b1 & Hcon & Hs1 & Hf1 & Hend1 & Hboth1).
    rewrite (bind_Ret _ _ _ _ _ Hcon).
    pose proof (vertexStep_is_Some _ _ Hs1 Hvs) as Hvs1.
    pose proof (vertexStep_junkValid _ _ Hs1 Hjunk) as Hjunk1.
    assert (Hall1 : forall e', e' ∈ es ++ [e] -> edgeReady w1 e').
    { intros e' He'. eapply edgeReady_step; eauto. }
    assert (Hedges1 : edges w1 = Some ((es ++ [e]) ++ kept)).
    { destruct Hf1 as (_ & -> & _). done. }
    (* what remains to do once the edge is dropped from world [wd] *)
    assert (Hdrop : forall wd,
      is_Some (vertices wd) -> junkValid wd ->
      (forall e', e' ∈ es ++ [e] -> edgeReady wd e') ->
      edges wd = Some ((es ++ [e]) ++ kept) ->
      vertexStep w wd ->
      verdict bbox e w wd false ->
      exists w' ts,
        (do* dropEdge (length es) e in clipEdgesLoop bbox (length es)) wd = (w', Ret tt)
        /\ clipRun bbox (es ++ [e]) w w' ts
        /\ t_edge <$> ts = es ++ [e]
        /\ edges w' = Some (survivors ts ++ kept)
        /\ vertexStep w w').
    { intros wd Hvsd Hjd Halld Hed Hstep Hverdict.
      destruct (Halld e) as (ed & Hrest); [apply elem_of_app; right; by left|].
      destruct Hrest as (ls & r & rs & i & j & cs & Hede & _).
      pose proof (dropEdge_ok (length es) e wd ed _ Hede Hed) as Hd.
      rewrite (bind_Ret _ _ _ _ _ Hd).
      set (wd' := set_edges _ _) in *.
      destruct (IH wd' kept) as (w' & ts & Hloop & Hrun & Hfst & Hfin & Hvstep).
      { simpl. f_equal. rewrite <- app_assoc. simpl.
        rewrite delete_middle. done. }
      { done. }
      { apply clipReady_drop; [|done]. split; [done|]. split; [done|].
        intros e' He'. apply Halld, elem_of_app. by left. }
      exists w', (ts ++ [mkTurn e w wd false]). split; [done|]. split.
      - econstructor; [exact Hverdict|exact Hd|exact Hrun].
      - rewrite fmap_app, Hfst, survivors_snoc, app_nil_r.
        split; [done|]. split; [done|].
        eapply vertexStep_trans; [exact Hstep|].
        eapply vertexStep_trans; [|exact Hvstep]. by apply vertexStep_same. }
    destruct b1; cbn [negb].
    + (* connected *)
      destruct (clipEdge_ok e bbox w1 Hvs1 Hjunk1)
        as (w2 & b2 & Hclip & Hs2 & Hf2 & Hend2 & Hboth2);
        [apply Hall1, elem_of_app; right; by left|by apply Hboth1|].
      rewrite bind_bind, (bind_Ret _ _ _ _ _ Hclip).
      pose proof (vertexStep_is_Some _ _ Hs2 Hvs1) as Hvs2.
      pose proof (vertexStep_junkValid _ _ Hs2 Hjunk1) as Hjunk2.
      assert (Hall2 : forall e', e' ∈ es ++ [e] -> edgeReady w2 e').
      { intros e' He'. eapply edgeReady_step; eauto. }
      assert (Hedges2 : edges w2 = Some ((es ++ [e]) ++ kept)).
      { destruct Hf2 as (_ & -> & _). done. }
      destruct b2; cbn [negb].
      * destruct (nearZero_ok e w2 Hboth2) as (pa & pb & Hends & Hshort).
        rewrite bind_bind, (bind_Ret _ _ _ _ _ Hshort).
        destruct (pointLike pa pb) eqn:Hpoint.
        -- apply Hdrop; auto; [by eapply vertexStep_trans|].
           by eapply verdict_near_zero.
        -- mstep.
           destruct (IH w2 (e :: kept)) as (w' & ts & Hloop & Hrun & Hfst & Hfin & Hvstep).
           { by rewrite Hedges2, <- app_assoc. }
           { done. }
           { split; [done|]. split; [done|]. intros e' He'.
             apply Hall2, elem_of_app. by left. }
           exists w', (ts ++ [mkTurn e w w2 true]). split; [done|]. split.
           ++ econstructor; [by eapply verdict_kept| |exact Hrun]. done.
           ++ rewrite fmap_app, Hfst, survivors_snoc, <- app_assoc.
              split; [done|]. split; [done|].
              eapply vertexStep_trans; [exact Hs1|]. by eapply vertexStep_trans.
      * apply Hdrop; auto; [by eapply vertexStep_trans|]. by eapply verdict_not_clipped.
    + apply Hdrop; auto. by eapply verdict_not_connected.
Qed.

(** ** Relations kept whatever the outcome *)

Lemma preserves_bind {A B} (P : World -> World -> Prop) `{!PreOrder P}
    (m : M A) (k : A -> M B) :
  preserves P m -> (forall a, preserves P (k a)) -> preserves P (bind m k).
Proof.
  intros Hm Hk w w' o. unfold bind.
  destruct (m w) as [w1 [a|e|]] eqn:Hmw; intros Hrun.
  - etrans; [by eapply Hm|by eapply Hk].
  - simplify_eq. by eapply Hm.
  - simplify_eq. by eapply Hm.
Qed.

Lemma preserves_pure {A} (P : World -> World -> Prop) `{!PreOrder P} (m : M A) :
  (forall w, (m w).1 = w) -> preserves P m.
Proof. intros H w w' o Hrun. specialize (H w). rewrite Hrun in H. simpl in H. by subst. Qed.

Lemma preserves_modify (P : World -> World -> Prop) (f : World -> World) :
  (forall w, P w (f w)) -> preserves P (modify f).
Proof. intros H w w' o [= <- <-]. apply H. Qed.

#[local] Instance sameCells_preorder : PreOrder sameCells.
Proof. split; [by intros w|intros w1 w2 w3; unfold sameCells; congruence]. Qed.

#[local] Instance sameVertexEdge_preorder : PreOrder sameVertexEdge.
Proof.
  split; [by intros w|].
  intros w1 w2 w3 (?&?&?&?) (?&?&?&?). repeat split; congruence.
Qed.

Ltac pres :=
  repeat first
    [ apply preserves_modify; intros; done
    | apply preserves_pure; [tc_solve|]; intros; unfold deref; repeat case_match; done
    | apply preserves_bind; [tc_solve| |intros]
    | case_match ].

Lemma createVertex_sameCells x y : preserves sameCells (createVertex x y).
Proof. unfold createVertex. pres. Qed.

Lemma connectTo_sameCells va0 before beyond a b :
  preserves sameCells (connectTo va0 before beyond a b).
Proof. unfold connectTo, getVertex. pres; apply createVertex_sameCells. Qed.

Lemma connectEnds_sameCells va0 lx ly rx ry bbox :
  preserves sameCells (connectEnds va0 lx ly rx ry bbox).
Proof. unfold connectEnds. pres; apply connectTo_sameCells. Qed.

Lemma closeBothCells_sameVertexEdge e : preserves sameVertexEdge (closeBothCells e).
Proof. unfold closeBothCells, getEdge, getSite, markCloseMe. pres. Qed.

(** ** connectEdge and the closeMe flags *)

(** Claim C9.  On an edge whose [vb] is set, [connectEdge] returns [true]
    and the world is the one it started from: the edge is not modified, no
    vertex is created, no [closeMe] flag is set.  On an edge whose [vb] is
    unset, and whose two sites name cells of the collection, both cells are
    flagged in the world the call leaves, however the call ends: with
    [true], with [false], or with an exception. *)
Theorem connectEdge_closeMe (e : eref) (bbox : BBox) (w : World) (ed : Edge) :
  edgeStore w !! e = Some ed ->
  (is_Some (vb ed) -> connectEdge e bbox w = (w, Ret true))
  /\ (vb ed = None ->
      forall ls r rs i j cs,
        siteStore w !! lSite ed = Some ls ->
        rSite ed = Some r -> siteStore w !! r = Some rs ->
        voronoiId ls = Some i -> voronoiId rs = Some j ->
        cells w = Some cs -> i < length cs -> j < length cs ->
        forall w' o, connectEdge e bbox w = (w', o) ->
          exists cs', cells w' = Some cs'
            /\ closeMe <$> cs' !! i = Some true
            /\ closeMe <$> cs' !! j = Some true).
Proof.
  intros Hed. split.
  - intros [b Hb]. unfold connectEdge.
    rewrite (bind_Ret _ _ _ _ _ (getEdge_Some _ _ _ Hed)), Hb. done.
  - intros Hvb ls r rs i j cs Hls Hr Hrs Hi Hj Hcs Hil Hjl w' o.
    unfold connectEdge.
    rewrite (bind_Ret _ _ _ _ _ (getEdge_Some _ _ _ Hed)), Hvb.
    rewrite (bind_Ret _ _ _ _ _ (getSite_Some _ _ _ Hls)), Hr. mstep.
    rewrite (bind_Ret _ _ _ _ _ (getSite_Some _ _ _ Hrs)), Hi, Hj.
    destruct (markCloseMe_ok i cs w Hcs Hil) as (cs1 & Hm1 & Hl1 & Hi1 & _).
    rewrite (bind_Ret _ _ _ _ _ Hm1).
    destruct (markCloseMe_ok j cs1 (set_cells (Some cs1) w) eq_refl ltac:(lia))
      as (cs2 & Hm2 & Hl2 & Hj2 & Hmono).
    rewrite (bind_Ret _ _ _ _ _ Hm2). simpl.
    intros Hrun. exists cs2. split; [|split; [by apply Hmono|done]].
    assert (Hpres : preserves sameCells
      (let* ends := connectEnds (va ed) (s_x ls) (s_y ls) (s_x rs) (s_y rs) bbox in
       match ends with
       | Some (va', vb') =>
           let* edge' := getEdge e in
           do* setEdge e (mkEdge (lSite edge') (rSite edge') (Some va') (Some vb')) in
           ret true
       | None => ret false
       end)).
    { unfold getEdge, setEdge. pres. apply connectEnds_sameCells. }
    apply Hpres in Hrun. done.
Qed.

(** ** clipEdge never moves a vertex of the collection *)

(** Claim C5.  [clipEdge] changes the coordinates of no vertex of the
    diagram's vertex collection.  Where the clip parameters satisfy [t0 > 0]
    the edge's [va] becomes a vertex that was not in the collection, at
    [(ax + t0 * dx, ay + t0 * dy)], and otherwise [va] stays; likewise [vb]
    for [t1 < 1].  The pool is assumed to be in order: its objects are
    stored, none occurs twice, none is in the collection.  The vertex store
    is written by [createVertex] only, and every method threads it through
    the steps of [vertexStep]. *)
Theorem clipEdge_creates_clipped_endpoints
    (e : eref) (bbox : BBox) (w : World) (ed : Edge) (a0 b0 : vref)
    (a b : Vertex) (vs : list vref) :
  edgeStore w !! e = Some ed -> va ed = Some a0 -> vb ed = Some b0 ->
  vertexStore w !! a0 = Some a -> vertexStore w !! b0 = Some b ->
  vertices w = Some vs -> junkValid w -> poolOk w ->
  forall w' o, clipEdge e bbox w = (w', o) ->
    (forall v, v ∈ vs -> vertexStore w' !! v = vertexStore w !! v)
    /\ forall t0 t1, clipParams a b bbox = Some (t0, t1) ->
         let dx := (v_x b - v_x a)%float in
         let dy := (v_y b - v_y a)%float in
         exists a1 b1 new,
           edgeStore w' !! e = Some (mkEdge (lSite ed) (rSite ed) (Some a1) (Some b1))
           /\ vertices w' = Some (vs ++ new)
           /\ (if Num.gtb t0 0%float
               then (a1 ∉ vs)
                    /\ vertexStore w' !! a1
                       = Some (mkVertex (v_x a + t0 * dx) (v_y a + t0 * dy))
               else a1 = a0)
           /\ (if Num.ltb t1 1%float
               then (b1 ∉ vs)
                    /\ vertexStore w' !! b1
                       = Some (mkVertex (v_x a + t1 * dx) (v_y a + t1 * dy))
               else b1 = b0).
Proof.
  intros Hed Ha0 Hb0 Ha Hb Hvs Hjunk Hpool w' o Hrun.
  pose proof (clipEdge_effect e bbox w ed a0 b0 a b Hed Ha0 Hb0 Ha Hb
                ltac:(eauto) Hjunk) as Heff.
  destruct (clipParams a b bbox) as [[t0 t1]|].
  - destruct Heff as (w2 & a1 & b1 & Hrun2 & Hs & _ & _ & _ & _ & _ & Hed2 & _ & _
                        & Hnew1 & Hnew2).
    rewrite Hrun2 in Hrun.
    assert (Hsame : sameVertexEdge w2 w').
    { revert Hrun. generalize (Num.gtb t0 0%float || Num.ltb t1 1%float).
      intros c. apply (preserves_bind sameVertexEdge).
      - destruct c; [apply closeBothCells_sameVertexEdge|].
        apply preserves_pure; [tc_solve|done].
      - intros. apply preserves_pure; [tc_solve|done]. }
    destruct Hsame as (Hv' & Hst' & _ & He').
    destruct Hs as (_ & _ & _ & Hp). destruct (Hp Hjunk Hpool) as [_ Hcol].
    destruct (Hcol _ Hvs) as (Hkeep & new & Hvs2 & _).
    rewrite Hst', He', Hv'. split; [done|].
    intros t0' t1' [= <- <-]. cbn zeta. exists a1, b1, new.
    split; [done|]. split; [done|]. split.
    + destruct (Num.gtb t0 0%float); [by apply (Hnew1 vs)|done].
    + destruct (Num.ltb t1 1%float); [by apply (Hnew2 vs)|done].
  - rewrite Heff in Hrun. simplify_eq. done.
Qed.

(** ** clipEdges keeps exactly the edges that pass *)

Lemma verdict_true_iff bbox e w w' :
  verdict bbox e w w' true <->
  exists w1 a b, connectEdge e bbox w = (w1, Ret true)
    /\ clipEdge e bbox w1 = (w', Ret true)
    /\ endpointsAt w' e a b /\ pointLike a b = false.
Proof.
  split.
  - inversion 1; subst. eauto 10.
  - intros (w1 & a & b & ? & ? & ? & ?). by eapply verdict_kept.
Qed.

Lemma verdict_functional bbox e w w1 w2 b1 b2 :
  verdict bbox e w w1 b1 -> verdict bbox e w w2 b2 -> w1 = w2 /\ b1 = b2.
Proof.
  intros H1 H2. inversion H1; inversion H2; subst;
    repeat match goal with
           | Ha : ?x = _, Hb : ?x = _ |- _ => rewrite Ha in Hb; simplify_eq
           end;
    try done;
    match goal with
    | Ha : endpointsAt ?w ?e _ _, Hb : endpointsAt ?w ?e _ _ |- _ =>
        destruct (endpointsAt_functional _ _ _ _ _ _ Ha Hb) as [-> ->]; congruence
    end.
Qed.

Lemma pointLike_false_iff a b :
  pointLike a b = false <->
  ~ (Num.ltb (PrimFloat.abs (v_x a - v_x b)) 1e-9%float = true
     /\ Num.ltb (PrimFloat.abs (v_y a - v_y b)) 1e-9%float = true).
Proof.
  unfold pointLike.
  destruct (Num.ltb (PrimFloat.abs (v_x a - v_x b)) _),
           (Num.ltb (PrimFloat.abs (v_y a - v_y b)) _); simpl; intuition congruence.
Qed.

(** "Not both deltas below [1e-9]" is "some delta at least [1e-9]" on
    numbers that are not NaN. *)
Lemma not_both_below_iff (dx dy : float) :
  Num.is_nan dx = false -> Num.is_nan dy = false ->
  Num.ltb dx Num.eps && Num.ltb dy Num.eps = false
  <-> Num.geb dx Num.eps = true \/ Num.geb dy Num.eps = true.
Proof.
  intros Hx Hy.
  rewrite (ltb_not_geb dx Num.eps Hx eq_refl), (ltb_not_geb dy Num.eps Hy eq_refl).
  destruct (Num.geb dx Num.eps), (Num.geb dy Num.eps); simpl; intuition congruence.
Qed.

Lemma passes_iff_apart bbox e t :
  t_edge t = e -> numericTurn t -> passes bbox e t <-> passesApart bbox e t.
Proof.
  intros He Hnum. unfold passes, passesApart.
  split; intros (Ht & w1 & a & b & Hc & Hk & Hends & Hthird);
    (split; [done|]); exists w1, a, b; (split; [done|]); (split; [done|]);
    (split; [done|]);
    destruct (Hnum a b) as [Hx Hy]; try (by rewrite He);
    pose proof (not_both_below_iff _ _ Hx Hy) as Hiff;
    change Num.eps with 1e-9%float in Hiff.
  - apply Hiff. by apply pointLike_false_iff.
  - apply pointLike_false_iff. by apply Hiff.
Qed.

(** Claim C3, amended.  On a collection of distinct edges as the sweep
    leaves them, [clipEdges] returns without raising.  Its run is the
    sequence of the edges' turns, last edge first, one turn for each edge,
    and an edge is in the collection the run leaves if and only if its turn
    passed: [connectEdge] returned [true], then [clipEdge] returned [true],
    and the endpoints they left are not both within [1e-9] in [x] and in
    [y].  For an edge whose endpoint deltas are numbers this is the
    specification's condition: the endpoints differ by at least [1e-9] in
    at least one coordinate.  An edge that fails has its endpoints reset and
    is dropped before the next edge's turn; the edges that stay keep their
    order. *)
Theorem clipEdges_keeps_exactly (bbox : BBox) (w : World) (es : list eref) :
  edges w = Some es -> NoDup es -> clipReady w es ->
  exists w' ts kept,
    clipEdges bbox w = (w', Ret tt)
    /\ clipRun bbox es w w' ts
    /\ t_edge <$> ts = es
    /\ edges w' = Some kept
    /\ kept = survivors ts
    /\ (forall e, e ∈ kept <-> exists t, t ∈ ts /\ passes bbox e t)
    /\ (forall e, (forall t, t ∈ ts -> t_edge t = e -> numericTurn t) ->
          (e ∈ kept <-> exists t, t ∈ ts /\ passesApart bbox e t)).
Proof.
  intros Hedges Hnd Hready.
  destruct (clipEdgesLoop_run bbox es w [])
    as (w' & ts & Hloop & Hrun & Hfst & Hfin & _);
    [by rewrite app_nil_r|done|done|].
  rewrite app_nil_r in Hfin.
  exists w', ts, (survivors ts). unfold clipEdges. mstep. rewrite Hedges. mstep.
  split; [done|]. split; [done|]. split; [done|]. split; [done|]. split; [done|].
  assert (Hiff : forall e, e ∈ survivors ts <-> exists t, t ∈ ts /\ passes bbox e t).
  { intros e. rewrite elem_of_survivors. split.
    - intros (t & Hin & He & Hb). exists t. split; [done|]. split; [done|].
      pose proof (clipRun_turns _ _ _ _ _ Hrun t Hin) as Hv.
      rewrite He, Hb in Hv. apply verdict_true_iff in Hv as (w1 & a & b & ? & ? & ? & ?).
      exists w1, a, b. repeat (split; [done|]). by apply pointLike_false_iff.
    - intros (t & Hin & He & w1 & a & b & Hc & Hk & Hends & Hthird).
      exists t. split; [done|]. split; [done|].
      pose proof (clipRun_turns _ _ _ _ _ Hrun t Hin) as Hv. rewrite He in Hv.
      assert (Hpass : verdict bbox e (t_before t) (t_after t) true).
      { eapply verdict_kept; eauto. by apply pointLike_false_iff. }
      by destruct (verdict_functional _ _ _ _ _ _ _ Hv Hpass) as [_ ->]. }
  split; [exact Hiff|].
  intros e Hnum. rewrite Hiff. split.
  - intros (t & Hin & Hp). exists t. split; [done|].
    apply passes_iff_apart; [by destruct Hp|apply Hnum; [done|by destruct Hp]|done].
  - intros (t & Hin & Hp). exists t. split; [done|].
    apply passes_iff_apart; [by destruct Hp|apply Hnum; [done|by destruct Hp]|done].
Qed.

(** The pool and the collection are disjoint when [compute] starts, if the
    pool holds no object twice. *)
Lemma poolOk_after_reset w :
  NoDup (vertexJunkyard w) -> poolOk (resetWorld w).
Proof.
  intros Hnd. exists []. simpl. repeat split; try done.
  - intros v _ Hin. by apply elem_of_nil in Hin.
  - intros v Hin. by apply elem_of_nil in Hin.
Qed.

Lemma poolOk_newVoronoi sites : poolOk (resetWorld (newVoronoi sites)).
Proof. apply poolOk_after_reset. simpl. constructor. Qed.

(** The whole clipping pass leaves the vertices of the collection where
    they are. *)
Lemma clipEdges_vertices_stay bbox w es vs :
  edges w = Some es -> NoDup es -> clipReady w es ->
  vertices w = Some vs -> poolOk w ->
  forall v, v ∈ vs -> vertexStore (clipEdges bbox w).1 !! v = vertexStore w !! v.
Proof.
  intros Hedges Hnd Hready Hvs Hpool v Hv.
  destruct (clipEdgesLoop_run bbox es w []) as (w' & ts & Hloop & _ & _ & _ & Hstep);
    [by rewrite app_nil_r|done|done|].
  unfold clipEdges. mstep. rewrite Hedges. mstep. rewrite Hloop. simpl.
  destruct Hstep as (_ & _ & _ & Hp).
  destruct Hready as (_ & Hjunk & _).
  destruct (Hp Hjunk Hpool) as [_ Hcol]. destruct (Hcol _ Hvs) as [Hkeep _]. auto.
Qed.

#[local] Instance eq_world_preorder : PreOrder (@eq World).
Proof. split; [by intros w|intros w1 w2 w3; congruence]. Qed.

Lemma findPredecessor_pure fuel y x node :
  preserves eq (findPredecessor fuel y x node).
Proof.
  revert node. induction fuel as [|fuel IH]; intros [n|]; simpl;
    try (apply preserves_pure; [tc_solve|done]).
  unfold getEvent. pres; apply IH.
Qed.

Lemma SFcompare_refl f : f <> S754_nan -> SFcompare f f = Some Eq.
Proof.
  destruct f as [s|s| |s m e]; intros Hf; try done; simpl.
  - by destruct s.
  - rewrite Z.compare_refl. change (Pos.compare_cont Eq m m) with (m ?= m)%positive.
    rewrite Pos.compare_refl. by destruct s.
Qed.

(** [a >= b] fails when [a < b], and when [a] is NaN. *)
Lemma geb_false (a b : float) :
  Num.ltb a b = true \/ Num.is_nan a = true -> Num.geb a b = false.
Proof.
  unfold Num.ltb, Num.geb, Num.is_nan, PrimFloat.is_nan.
  rewrite FloatAxioms.ltb_spec, FloatAxioms.leb_spec, FloatAxioms.eqb_spec.
  unfold SFltb, SFleb, SFeqb.
  rewrite (SFcompare_antisym (Prim2SF a) (Prim2SF b)).
  intros [H|H].
  - by destruct (SFcompare (Prim2SF a) (Prim2SF b)) as [[]|].
  - destruct (Prim2SF a) as [s|s| |s m e] eqn:Hf; [| |done|];
      by rewrite SFcompare_refl in H.
Qed.

(** Claim C4, on the code.  For an arc with a left and a right neighbour,
    let [d = 2 * (ax * cy - ay * cx)] from the three sites.  When the
    neighbours' sites are distinct objects and [d < -2e-12] (or [d] is NaN,
    which the source's test [d >= -2e-12] lets through as well),
    [attachCircleEvent] creates the event, with [y] equal to [ycenter] plus
    the circumradius, and stores it in [arc.circleEvent]; then the queue
    insertion [this.circleEvents.rbInsertSuccessor] raises a TypeError: the
    event does not enter the queue, and [firstCircleEvent] is what it was.
    Otherwise the call returns and changes nothing.  The queue is taken as
    every run finds it: without a node. *)
Theorem attachCircleEvent_raises
    (fuel : nat) (arc lArc rArc : aref) (w : World)
    (a la ra : Beachsection) (l c r : Site) :
  arcStore w !! arc = Some a ->
  rbPrevious a = Some lArc -> rbNext a = Some rArc ->
  arcStore w !! lArc = Some la -> arcStore w !! rArc = Some ra ->
  siteStore w !! b_site la = Some l ->
  siteStore w !! b_site a = Some c ->
  siteStore w !! b_site ra = Some r ->
  eventPoolValid w ->
  (forall tree, circleEvents w = Some tree -> root tree = None) ->
  let ax := (s_x l - s_x c)%float in
  let ay := (s_y l - s_y c)%float in
  let cx := (s_x r - s_x c)%float in
  let cy := (s_y r - s_y c)%float in
  let d := (2 * (ax * cy - ay * cx))%float in
  let ha := (ax * ax + ay * ay)%float in
  let hc := (cx * cx + cy * cy)%float in
  let x := ((cy * ha - ay * hc) / d)%float in
  let y := ((ax * hc - cx * ha) / d)%float in
  (b_site la <> b_site ra ->
   Num.ltb d (-2e-12)%float = true \/ Num.is_nan d = true ->
   exists w' ev,
     attachCircleEvent fuel arc w = (w', Throw TypeError)
     /\ firstCircleEvent w' = firstCircleEvent w
     /\ circleEvents w' = circleEvents w
     /\ attachesEvent w w' arc ev
     /\ ce_site ev = Some (b_site a)
     /\ ce_x ev = (x + s_x c)%float
     /\ ce_ycenter ev = (y + s_y c)%float
     /\ ce_y ev = (y + s_y c + PrimFloat.sqrt (x * x + y * y))%float)
  /\ (b_site la = b_site ra \/ Num.geb d (-2e-12)%float = true ->
      attachCircleEvent fuel arc w = (w, Ret tt)).
Proof.
  intros Ha Hprev Hnext Hla Hra Hl Hc Hr Hpool Hqueue ax ay cx cy d ha hc x y.
  assert (Hd : orientation l c r = d) by reflexivity.
  assert (Hxy : circumcentre l c r = (x, y)) by reflexivity.
  split.
  - intros Hneq Hlt. apply geb_false in Hlt.
    unfold attachCircleEvent.
    rewrite (bind_Ret _ _ _ _ _ (getArc_Some _ _ _ Ha)), Hprev, Hnext.
    rewrite (bind_Ret _ _ _ _ _ (getArc_Some _ _ _ Hla)).
    rewrite (bind_Ret _ _ _ _ _ (getArc_Some _ _ _ Hra)). cbn zeta.
    destruct (Nat.eqb_spec (b_site la) (b_site ra)) as [Heq|_]; [done|].
    rewrite (bind_Ret _ _ _ _ _ (getSite_Some _ _ _ Hc)).
    rewrite (bind_Ret _ _ _ _ _ (getSite_Some _ _ _ Hl)).
    rewrite (bind_Ret _ _ _ _ _ (getSite_Some _ _ _ Hr)).
    rewrite Hd, Hlt, Hxy. cbn [fst snd].
    mstep.
    (* the event object *)
    assert (Hev : exists w1 ce old,
      (match last (circleEventJunkyard w) with
       | Some ce => do* modify (set_circleEventJunkyard (removelast (circleEventJunkyard w)))
                    in ret ce
       | None =>
           let* st := get eventStore in
           do* modify (set_eventStore
                         (st ++ [mkCircleEvent None None 0 0 0 None None None None])) in
           ret (length st)
       end) w = (w1, Ret ce)
      /\ eventCreated w w1 ce /\ eventStore w1 !! ce = Some old
      /\ arcStore w1 = arcStore w
      /\ circleEvents w1 = circleEvents w
      /\ firstCircleEvent w1 = firstCircleEvent w).
    { unfold eventCreated.
      destruct (last (circleEventJunkyard w)) as [ce|] eqn:Hlast.
      - assert (Hin : ce ∈ circleEventJunkyard w).
        { apply last_Some in Hlast as [l' ->]. apply elem_of_app. right. by left. }
        destruct (lookup_lt_is_Some_2 _ _ (Hpool _ Hin)) as [old Hold].
        mstep. eexists _, ce, old. split; [done|]. simpl. done.
      - mstep. eexists _, _, _. split; [done|]. simpl.
        rewrite length_app. simpl. split; [split; [done|lia]|].
        split; [by rewrite lookup_app_r, Nat.sub_diag by lia|]. done. }
    destruct Hev as (w1 & ce & old & Hrun1 & Hcreated & Hold & Harcs & Hq1 & Hf1).
    rewrite (bind_Ret _ _ _ _ _ Hrun1).
    rewrite (bind_Ret _ _ _ _ _ (getEvent_Some _ _ _ Hold)).
    unfold setEvent. mstep.
    erewrite (bind_Ret (getArc arc)) by (apply getArc_Some; simpl; rewrite Harcs; exact Ha).
    unfold setArc. mstep.
    set (ev := mkCircleEvent (Some arc) (Some (b_site a)) (x + s_x c)
                 (y + s_y c + PrimFloat.sqrt (x * x + y * y)) (y + s_y c)
                 (ce_rbPrevious old) (ce_rbNext old) (ce_rbLeft old) (ce_rbRight old)).
    set (wA := set_arcStore _ _).
    assert (HqA : circleEvents wA = circleEvents w) by (subst wA; simpl; exact Hq1).
    assert (Hthrow : (let* tree := deref (circleEvents wA) in
                      let* predecessor := findPredecessor fuel
                          (y + s_y c + PrimFloat.sqrt (x * x + y * y)) (x + s_x c) (root tree) in
                      throw TypeError) wA = (wA, Throw TypeError : outcome unit)).
    { rewrite HqA. destruct (circleEvents w) as [tree|]; [|done].
      mstep. rewrite (Hqueue tree eq_refl). by destruct fuel. }
    rewrite Hthrow.
    exists wA, ev. split; [done|]. split; [exact Hf1|]. split; [exact HqA|].
    split; [|done].
    exists ce, (mkBeachsection (b_site a) (Some ce) (rbPrevious a)
                  (rbNext a) (rbLeft a) (rbRight a)).
    split.
    { unfold eventCreated in *. subst wA. simpl.
      destruct (last (circleEventJunkyard w)); [done|].
      rewrite length_insert. done. }
    split.
    { subst wA. simpl. rewrite list_lookup_insert_eq; [done|].
      rewrite Harcs. by apply lookup_lt_Some in Ha. }
    split; [done|]. split; [|done].
    subst wA. simpl. rewrite list_lookup_insert_eq; [done|].
    by apply lookup_lt_Some in Hold.
  - intros Hret. unfold attachCircleEvent.
    rewrite (bind_Ret _ _ _ _ _ (getArc_Some _ _ _ Ha)), Hprev, Hnext.
    rewrite (bind_Ret _ _ _ _ _ (getArc_Some _ _ _ Hla)).
    rewrite (bind_Ret _ _ _ _ _ (getArc_Some _ _ _ Hra)). cbn zeta.
    destruct (Nat.eqb_spec (b_site la) (b_site ra)) as [Heq|Hneq]; [done|].
    destruct Hret as [Heq|Hge]; [done|].
    rewrite (bind_Ret _ _ _ _ _ (getSite_Some _ _ _ Hc)).
    rewrite (bind_Ret _ _ _ _ _ (getSite_Some _ _ _ Hl)).
    rewrite (bind_Ret _ _ _ _ _ (getSite_Some _ _ _ Hr)).
    by rewrite Hd, Hge.
Qed.

Lemma reset_rootless w : rootless w -> reset w = (resetWorld w, Ret tt).
Proof.
  unfold rootless, reset. mstep. destruct (beachline w) as [t|] eqn:Hb.
  - intros Hroot. mstep. rewrite Hb. mstep. rewrite Hroot. mstep. done.
  - intros _. mstep. simpl. mstep. done.
Qed.

Lemma resetWorld_rootless w : rootless (resetWorld w).
Proof. done. Qed.

Lemma resolveSites_ok (sites : list sref) w :
  (forall s, s ∈ sites -> s < length (siteStore w)) ->
  resolveSites sites w
  = (w, Ret (omap (fun s => pair s <$> siteStore w !! s) sites)).
Proof.
  induction sites as [|s sites IH]; intros Hvalid; [done|].
  simpl. destruct (lookup_lt_is_Some_2 (siteStore w) s) as [x Hx].
  { apply Hvalid. by left. }
  rewrite (bind_Ret _ _ _ _ _ (getSite_Some _ _ _ Hx)).
  rewrite (bind_Ret _ _ _ _ _ (IH ltac:(intros; apply Hvalid; by right))).
  rewrite Hx. done.
Qed.

Lemma resolved_length (st : list Site) (sites : list sref) :
  (forall s, s ∈ sites -> s < length st) ->
  length (omap (fun s => pair s <$> st !! s) sites) = length sites.
Proof.
  induction sites as [|s sites IH]; intros Hvalid; [done|]. simpl.
  destruct (lookup_lt_is_Some_2 st s) as [x Hx]; [apply Hvalid; by left|].
  rewrite Hx. simpl. f_equal. apply IH. intros. apply Hvalid. by right.
Qed.

Lemma insertSite_length x l : length (insertSite x l) = S (length l).
Proof. induction l as [|y l IH]; simpl; [done|]. case_match; simpl; lia. Qed.

Lemma sortSites_length l : length (sortSites l) = length l.
Proof.
  unfold sortSites. rewrite <- (Nat.add_0_l (length l)).
  change 0 with (length (@nil (sref * Site))).
  generalize (@nil (sref * Site)). induction l as [|x l IH]; intros acc; simpl; [lia|].
  rewrite IH, insertSite_length. lia.
Qed.

Lemma insertSite_elem x l y : y ∈ insertSite x l -> y = x \/ y ∈ l.
Proof.
  induction l as [|z l IH]; simpl.
  - intros ->%list_elem_of_singleton. by left.
  - destruct (Num.ltb _ _).
    + intros [->|H]%elem_of_cons; [by left|by right].
    + intros [->|H]%elem_of_cons; [right; by left|].
      destruct (IH H) as [->|?]; [by left|right; by right].
Qed.

Lemma sortSites_elem l y : y ∈ sortSites l -> y ∈ l.
Proof.
  unfold sortSites. assert (Hgen : forall acc, y ∈ foldl (fun acc x => insertSite x acc) acc l
                                      -> y ∈ acc \/ y ∈ l).
  { induction l as [|x l IH]; intros acc; simpl; [by left|].
    intros H. destruct (IH _ H) as [H'|H']; [|right; by right].
    destruct (insertSite_elem _ _ _ H') as [->|?]; [right; by left|by left]. }
  intros H. destruct (Hgen [] H) as [H'|H']; [by apply elem_of_nil in H'|done].
Qed.

(** The first site event of a non-empty list: the site popped before the
    loop, with its record. *)
Lemma first_event (st : list Site) (sites : list sref) :
  sites <> [] -> (forall s, s ∈ sites -> s < length st) ->
  exists s x, last (siteEventsOf st sites) = Some s /\ st !! s = Some x.
Proof.
  intros Hne Hvalid. unfold siteEventsOf.
  set (l := omap _ sites).
  assert (Hlen : length (sortSites l) <> 0).
  { rewrite sortSites_length. unfold l. rewrite resolved_length by done.
    by destruct sites. }
  destruct (last (sortSites l)) as [[s x]|] eqn:Hlast.
  - exists s, x. rewrite fmap_last, Hlast. split; [done|].
    assert (Hin : (s, x) ∈ l).
    { apply sortSites_elem. apply last_Some in Hlast as [l' ->].
      apply elem_of_app. right. by left. }
    unfold l in Hin. apply list_elem_of_omap in Hin as (s' & _ & Hs').
    destruct (st !! s') eqn:E; simpl in Hs'; by simplify_eq.
  - apply last_None in Hlast. by rewrite Hlast in Hlen.
Qed.

#[local] Instance sameSweepState_preorder : PreOrder sameSweepState.
Proof.
  split; [by intros w|].
  intros w1 w2 w3 (?&?&?) (?&?&?). repeat split; congruence.
Qed.

Lemma createBeachsection_sameSweepState s : preserves sameSweepState (createBeachsection s).
Proof.
  unfold createBeachsection, getArc, setArc.
  apply preserves_bind; [tc_solve|apply preserves_pure; [tc_solve|done]|].
  intros junk. destruct (last junk); pres.
Qed.

Lemma createBeachsection_outcome s w :
  (exists b, (createBeachsection s w).2 = Ret b)
  \/ (createBeachsection s w).2 = Throw TypeError.
Proof.
  unfold createBeachsection. mstep.
  destruct (last (beachsectionJunkyard w)) as [b|].
  - mstep. unfold getArc. mstep. simpl.
    destruct (arcStore w !! b); [left|right]; eauto.
  - mstep. left. eauto.
Qed.

Lemma locateArcs_empty fuel x directrix w :
  locateArcs fuel x directrix None w = (w, Ret (None, None)).
Proof. by destruct fuel. Qed.

(** Every call of [addBeachsection] on an empty beachline raises. *)
Lemma addBeachsection_raises fuel s x w :
  siteStore w !! s = Some x -> beachline w = Some (mkRBTree None) ->
  exists w', addBeachsection fuel s w = (w', Throw TypeError) /\ sameSweepState w w'.
Proof.
  intros Hs Hb. unfold addBeachsection.
  rewrite (bind_Ret _ _ _ _ _ (getSite_Some _ _ _ Hs)). mstep. rewrite Hb. mstep.
  simpl. rewrite (bind_Ret _ _ _ _ _ (locateArcs_empty _ _ _ _)).
  pose proof (createBeachsection_outcome s w) as Ho.
  unfold bind. destruct (createBeachsection s w) as [w1 o] eqn:Hc.
  pose proof (createBeachsection_sameSweepState s _ _ _ Hc) as Hp. simpl in Ho.
  destruct Ho as [[b ->]| ->]; eauto.
Qed.

(** The first turn of the main loop with a site at hand and no circle
    event: the cell is created, the site gets identifier [0], and
    [addBeachsection] raises. *)
Lemma mainLoop_first_site fuel evs s x w :
  firstCircleEvent w = None -> siteStore w !! s = Some x ->
  cells w = Some [] -> beachline w = Some (mkRBTree None) ->
  exists w',
    mainLoop (S fuel) evs (Some s) 0 None w = (w', Throw TypeError)
    /\ siteStore w' = assignId (Some (s, 0)) (siteStore w)
    /\ beachline w' = beachline w
    /\ cells w' = Some [mkCell s [] false].
Proof.
  intros Hfirst Hs Hcells Hb. simpl. mstep. rewrite Hfirst. mstep.
  rewrite (bind_Ret _ _ _ _ _ (getSite_Some _ _ _ Hs)). mstep.
  unfold createCell, storeCell, setSite. mstep. simpl. rewrite Hcells. mstep. simpl.
  set (w1 := set_siteStore _ _).
  destruct (addBeachsection_raises (S fuel) s (mkSite (s_x x) (s_y x) (Some 0)) w1)
    as (w' & Hadd & Hsite & Hbl & Hcl).
  { subst w1. simpl. apply list_lookup_insert_eq. by apply lookup_lt_Some in Hs. }
  { done. }
  rewrite (bind_Throw _ _ _ _ _ Hadd). exists w'. split; [done|].
  rewrite Hsite, Hbl, Hcl. subst w1. simpl. split; [|done].
  apply list_eq. intros i. rewrite list_lookup_alter.
  destruct (decide (i = s)) as [->|Hne].
  - rewrite list_lookup_insert_eq by (by apply lookup_lt_Some in Hs).
    case_decide; [by rewrite Hs|done].
  - rewrite list_lookup_insert_ne by done. case_decide; [congruence|done].
Qed.

Lemma recycled_ok w :
  (match toRecycle w with
   | Some d =>
       do* modify (fun w => set_vertexJunkyard (vertexJunkyard w ++ d_vertices d) w) in
       do* modify (fun w => set_edgeJunkyard (edgeJunkyard w ++ d_edges d) w) in
       do* modify (fun w => set_cellJunkyard (cellJunkyard w ++ d_cells d) w) in
       modify (set_toRecycle None)
   | None => ret tt
   end) w = (recycledWorld w, Ret tt).
Proof. unfold recycledWorld. destruct (toRecycle w); mstep; done. Qed.

(** [compute] on a non-empty site list. *)
Lemma compute_nonempty_raises fuel (sites : list sref) bbox w :
  rootless w -> sites <> [] ->
  (forall s, s ∈ sites -> s < length (siteStore w)) ->
  exists w' s,
    compute (S fuel) sites bbox w = (w', Throw TypeError)
    /\ last (siteEventsOf (siteStore w) sites) = Some s
    /\ siteStore w' = assignId (Some (s, 0)) (siteStore w)
    /\ cells w' = Some [mkCell s [] false]
    /\ rootless w'.
Proof.
  intros Hroot Hne Hvalid. unfold compute.
  rewrite (bind_Ret _ _ _ _ _ (reset_rootless _ Hroot)).
  mstep. rewrite (bind_Ret _ _ _ _ _ (recycled_ok _)).
  set (w1 := recycledWorld (resetWorld w)).
  assert (Hsites1 : siteStore w1 = siteStore w).
  { unfold w1, recycledWorld. simpl. by destruct (toRecycle w). }
  assert (Hfirst1 : firstCircleEvent w1 = None).
  { unfold w1, recycledWorld. simpl. by destruct (toRecycle w). }
  assert (Hcells1 : cells w1 = Some []).
  { unfold w1, recycledWorld. simpl. by destruct (toRecycle w). }
  assert (Hbl1 : beachline w1 = Some (mkRBTree None)).
  { unfold w1, recycledWorld. simpl. by destruct (toRecycle w). }
  rewrite (bind_Ret _ _ _ _ _ (resolveSites_ok sites w1 ltac:(by rewrite Hsites1))).
  rewrite Hsites1. fold (siteEventsOf (siteStore w) sites).
  destruct (first_event (siteStore w) sites Hne Hvalid) as (s & x & Hlast & Hx).
  rewrite Hlast.
  destruct (mainLoop_first_site fuel (removelast (siteEventsOf (siteStore w) sites))
              s x w1 Hfirst1 ltac:(by rewrite Hsites1) Hcells1 Hbl1)
    as (w' & Hloop & Hst & Hbl & Hcl).
  rewrite (bind_Throw _ _ _ _ _ Hloop). exists w', s. split; [done|].
  split; [done|]. split; [by rewrite Hst, Hsites1|]. split; [done|].
  unfold rootless. by rewrite Hbl, Hbl1.
Qed.

(** [compute] on the empty site list. *)
Lemma compute_empty fuel bbox w :
  rootless w ->
  exists w',
    compute (S fuel) [] bbox w = (w', Ret (mkDiagram [] [] []))
    /\ siteStore w' = siteStore w /\ rootless w'.
Proof.
  intros Hroot. unfold compute.
  rewrite (bind_Ret _ _ _ _ _ (reset_rootless _ Hroot)).
  mstep. rewrite (bind_Ret _ _ _ _ _ (recycled_ok _)).
  set (w1 := recycledWorld (resetWorld w)).
  assert (Hsites1 : siteStore w1 = siteStore w).
  { unfold w1, recycledWorld. simpl. by destruct (toRecycle w). }
  assert (Hfirst1 : firstCircleEvent w1 = None).
  { unfold w1, recycledWorld. simpl. by destruct (toRecycle w). }
  assert (Hcells1 : cells w1 = Some []).
  { unfold w1, recycledWorld. simpl. by destruct (toRecycle w). }
  assert (Hedges1 : edges w1 = Some []).
  { unfold w1, recycledWorld. simpl. by destruct (toRecycle w). }
  assert (Hvs1 : vertices w1 = Some []).
  { unfold w1, recycledWorld. simpl. by destruct (toRecycle w). }
  assert (Hbl1 : rootless w1).
  { unfold w1, recycledWorld, rootless. simpl. by destruct (toRecycle w). }
  simpl resolveSites. mstep. simpl mainLoop. mstep. rewrite Hfirst1. mstep.
  unfold clipEdges. mstep. rewrite Hedges1. mstep. simpl clipEdgesLoop. mstep.
  unfold closeCells. mstep. rewrite Hcells1. mstep. rewrite Hcells1. mstep.
  rewrite Hedges1. mstep. rewrite Hvs1. mstep.
  rewrite (bind_Ret _ _ _ _ _ (reset_rootless _ Hbl1)).
  eexists. split; [done|]. split; [done|]. apply resetWorld_rootless.
Qed.

(** ** The sort reads coordinates only *)

Lemma compareSites_coords a a' b b' :
  s_x a = s_x a' -> s_y a = s_y a' -> s_x b = s_x b' -> s_y b = s_y b' ->
  compareSites a b = compareSites a' b'.
Proof. unfold compareSites. by intros -> -> -> ->. Qed.

Lemma insertSite_rel x y l1 l2 :
  relSite x y -> Forall2 relSite l1 l2 ->
  Forall2 relSite (insertSite x l1) (insertSite y l2).
Proof.
  intros Hxy Hl. induction Hl as [|a b l1 l2 Hab Hl IH]; simpl.
  - by constructor.
  - destruct Hxy as (? & ? & ?), Hab as (? & ? & ?).
    rewrite (compareSites_coords x.2 y.2 a.2 b.2) by done.
    destruct (Num.ltb _ _); repeat constructor; done.
Qed.

Lemma sortSites_rel l1 l2 :
  Forall2 relSite l1 l2 -> Forall2 relSite (sortSites l1) (sortSites l2).
Proof.
  unfold sortSites. intros Hl.
  assert (Hacc : Forall2 relSite (@nil (sref * Site)) []) by constructor.
  revert Hacc. generalize (@nil (sref * Site)) at 1 3.
  generalize (@nil (sref * Site)).
  induction Hl as [|a b l1 l2 Hab Hl IH]; intros acc2 acc1 Hacc; simpl; [done|].
  apply IH. by apply insertSite_rel.
Qed.

Lemma resolved_rel st1 st2 (sites : list sref) :
  sameCoords st1 st2 ->
  Forall2 relSite (omap (fun s => pair s <$> st1 !! s) sites)
                  (omap (fun s => pair s <$> st2 !! s) sites).
Proof.
  intros Hst. induction sites as [|s sites IH]; simpl; [constructor|].
  pose proof (Forall2_length _ _ _ Hst) as Hlen.
  destruct (st1 !! s) as [x|] eqn:H1.
  - destruct (Forall2_lookup_l _ _ _ s x Hst H1) as (y & H2 & Hx & Hy).
    rewrite H2. simpl. constructor; [done|exact IH].
  - assert (H2 : st2 !! s = None).
    { apply lookup_ge_None. apply lookup_ge_None in H1. lia. }
    rewrite H2. simpl. exact IH.
Qed.

Lemma relSite_fst l1 l2 : Forall2 relSite l1 l2 -> l1.*1 = l2.*1.
Proof.
  induction 1 as [|a b l1 l2 (? & _) _ IH]; simpl; [done|]. by f_equal.
Qed.

Lemma siteEventsOf_sameCoords st1 st2 sites :
  sameCoords st1 st2 -> siteEventsOf st1 sites = siteEventsOf st2 sites.
Proof.
  intros Hst. unfold siteEventsOf. apply relSite_fst, sortSites_rel.
  by apply resolved_rel.
Qed.

(** ** Two calls on the same sites *)

(** Claim C7, on the code.  Two calls of [compute] on the same non-empty
    site list and box, from two instances whose site objects have the same
    coordinates (none of them NaN), whatever the pools, the stores and the
    diagram to recycle hold: both calls raise the TypeError of the first
    site event, when each has created one cell and written [voronoiId] [0]
    on the same site.  Neither call returns a diagram: there are no
    polygons to compare. *)
Theorem compute_twice_raises
    (fuel : nat) (sites : list sref) (bbox : BBox) (w1 w2 : World) :
  rootless w1 -> rootless w2 ->
  sameCoords (siteStore w1) (siteStore w2) ->
  (forall s, s ∈ sites -> s < length (siteStore w1)) ->
  numericSites (siteStore w1) sites ->
  sites <> [] ->
  exists s,
    (compute (S fuel) sites bbox w1).2 = Throw TypeError
    /\ (compute (S fuel) sites bbox w2).2 = Throw TypeError
    /\ siteStore (compute (S fuel) sites bbox w1).1 = assignId (Some (s, 0)) (siteStore w1)
    /\ siteStore (compute (S fuel) sites bbox w2).1 = assignId (Some (s, 0)) (siteStore w2)
    /\ cells (compute (S fuel) sites bbox w1).1 = Some [mkCell s [] false]
    /\ cells (compute (S fuel) sites bbox w2).1 = Some [mkCell s [] false].
Proof.
  intros Hr1 Hr2 Hst Hvalid _ Hne.
  assert (Hvalid2 : forall s, s ∈ sites -> s < length (siteStore w2)).
  { intros s Hs. rewrite <- (Forall2_length _ _ _ Hst). by apply Hvalid. }
  destruct (compute_nonempty_raises fuel sites bbox w1 Hr1 Hne Hvalid)
    as (w1' & s1 & -> & Hl1 & H1 & Hc1 & _).
  destruct (compute_nonempty_raises fuel sites bbox w2 Hr2 Hne Hvalid2)
    as (w2' & s2 & -> & Hl2 & H2 & Hc2 & _).
  rewrite (siteEventsOf_sameCoords _ _ _ Hst), Hl2 in Hl1.
  injection Hl1 as <-. exists s2. done.
Qed.

(** ** recycle *)

(** Claim C8, amended.  For a value that is not a [Diagram] object,
    [recycle] leaves [toRecycle] and every pool as they were; it raises its
    error when the value is truthy, and returns when the value is falsy
    ([null], [undefined], [false], [0], NaN, the empty string). *)
Theorem recycle_non_diagram (v : JsValue) (w : World) :
  isDiagram v = false ->
  recycle v w
  = (w, if truthy v then Throw (Thrown recycleMessage) else Ret tt).
Proof. intros Hv. unfold recycle. destruct v; try done; simpl; by case_match. Qed.

(** * Examples *)

Example filterSimilarPoints_example :
  filterSimilarPoints examplePolygon 0.001 = Ret [mkPoint 0 0; mkPoint 1 1].
Proof. vm_compute. reflexivity. Qed.

Example clipEdges_keeps_dangling_edge :
  let w' := (clipEdges unitBox danglingEdgeWorld).1 in
  edges w' = Some [0]
  /\ edgeStore w' !! 0 = Some (mkEdge 0 (Some 1) (Some 0) (Some 1))
  /\ vertexStore w' = [mkVertex 0.5 1; mkVertex 0.5 0].
Proof. vm_compute. done. Qed.

Example clipEdges_drops_outside_edge :
  let w' := (clipEdges unitBox outsideEdgeWorld).1 in
  edges w' = Some [] /\ edgeStore w' !! 0 = Some (mkEdge 0 (Some 1) None None).
Proof. vm_compute. done. Qed.

Example clipEdge_example :
  let w' := (clipEdge 0 unitBox crossingEdgeWorld).1 in
  edgeStore w' !! 0 = Some (mkEdge 0 (Some 1) (Some 2) (Some 1))
  /\ vertexStore w' = [mkVertex (-0.5) 0.5; mkVertex 0.5 0.5; mkVertex 0 0.5]
  /\ vertices w' = Some [0; 1; 2].
Proof. vm_compute. done. Qed.

Example attachCircleEvent_example :
  let w' := (attachCircleEvent 0 1 threeArcWorld).1 in
  arcStore w' !! 1 = Some (mkBeachsection 1 (Some 0) (Some 0) (Some 2) None None)
  /\ (ce_y <$> eventStore w' !! 0) = Some 2%float
  /\ (ce_ycenter <$> eventStore w' !! 0) = Some 1%float.
Proof. vm_compute. done. Qed.

(** * filterSimilarPoints: the claims *)

(** Claim C6, amended.  For every list of at least two points,
    [filterSimilarPoints] returns the list the specification describes:
    every point whose predecessor (for the last point, also the first
    point) is within the threshold in both axes is removed, then the new
    last point is dropped when it is within the threshold of the new first
    point.  On the specification's example it returns [{0,0}; {1,1}]. *)
Theorem filterSimilarPoints_filters :
  (forall (threshold : float) (points : list Point),
      2 <= length points ->
      filterSimilarPoints points threshold
      = Ret (filterSimilarPoints_spec threshold points))
  /\ filterSimilarPoints examplePolygon 0.001 = Ret [mkPoint 0 0; mkPoint 1 1].
Proof.
  split.
  - intros threshold points. apply filterSimilarPoints_refines.
  - exact filterSimilarPoints_example.
Qed.

Lemma filterSimilarPoints_filters_witness :
  2 <= length examplePolygon
  /\ filterSimilarPoints examplePolygon 0.001
     = Ret (filterSimilarPoints_spec 0.001 examplePolygon).
Proof.
  assert (H : 2 <= length examplePolygon) by (simpl; lia).
  split; [exact H|].
  exact (proj1 filterSimilarPoints_filters 0.001%float examplePolygon H).
Defined.

(** Claim C6 as stated fails on a non-empty list of one point: the call
    raises, where the described filtering gives the empty list. *)
Lemma filterSimilarPoints_single_point :
  [mkPoint 0 0] <> []
  /\ filterSimilarPoints [mkPoint 0 0] 0.001 = Throw TypeError
  /\ filterSimilarPoints_spec 0.001 [mkPoint 0 0] = [].
Proof. split; [done|]. split; vm_compute; reflexivity. Qed.

Lemma filterSimilarPoints_one_point (threshold : float) (p : Point) :
  filterSimilarPoints [p] threshold
  = if tooClose threshold p p then Throw TypeError else Ret [p].
Proof.
  unfold filterSimilarPoints, indexesTooCloseToPrevious. simpl.
  destruct (tooClose threshold p p) eqn:Hc; simpl.
  - replace (filterByIndex ({[0]} ∪ ∅) [p]) with (@nil Point); [done|].
    unfold filterByIndex. simpl. rewrite filter_cons. simpl.
    by rewrite decide_False by set_solver.
  - replace (filterByIndex ∅ [p]) with [p]; [simpl; by rewrite Hc|].
    unfold filterByIndex. simpl. rewrite filter_cons. simpl.
    by rewrite decide_True by set_solver.
Qed.

(** Claim C10, amended.  [filterSimilarPoints] raises on the empty list;
    on a list of one point it raises exactly when the point passes the
    closeness test against itself, and returns the list otherwise; on every
    list of at least two points it returns. *)
Theorem filterSimilarPoints_domain :
  (forall threshold, filterSimilarPoints [] threshold = Throw TypeError)
  /\ (forall threshold p,
        filterSimilarPoints [p] threshold
        = if tooClose threshold p p then Throw TypeError else Ret [p])
  /\ (forall threshold points,
        2 <= length points -> returns (filterSimilarPoints points threshold)).
Proof.
  split; [done|]. split; [apply filterSimilarPoints_one_point|].
  intros threshold points Hlen. eexists. by apply filterSimilarPoints_refines.
Qed.

Lemma filterSimilarPoints_domain_witness :
  2 <= length [mkPoint 0 0; mkPoint 0 0]
  /\ returns (filterSimilarPoints [mkPoint 0 0; mkPoint 0 0] defaultThreshold).
Proof.
  assert (H : 2 <= length [mkPoint 0 0; mkPoint 0 0]) by (simpl; lia).
  split; [exact H|].
  exact (proj2 (proj2 filterSimilarPoints_domain) defaultThreshold _ H).
Defined.

(** Claim C10 as stated fails on a list of length one, with the default
    threshold. *)
Lemma filterSimilarPoints_one_point_raises :
  1 <= length [mkPoint 1 1]
  /\ filterSimilarPoints [mkPoint 1 1] defaultThreshold = Throw TypeError.
Proof. split; [simpl; lia|]. vm_compute. reflexivity. Qed.

(** * recycle *)

Lemma recycle_non_diagram_witness :
  isDiagram (JsNumber 1) = false
  /\ recycle (JsNumber 1) oneSiteWorld
     = (oneSiteWorld, Throw (Thrown recycleMessage)).
Proof.
  assert (H : isDiagram (JsNumber 1) = false) by reflexivity.
  split; [exact H|]. exact (recycle_non_diagram (JsNumber 1) oneSiteWorld H).
Defined.

(** Claim C8 as stated fails on [null]: no error is raised. *)
Lemma recycle_null_returns :
  isDiagram JsNull = false
  /\ recycle JsNull oneSiteWorld = (oneSiteWorld, Ret tt).
Proof. split; reflexivity. Qed.

(** * compute *)

(** Claim C1, on the code.  With no site [compute] returns the empty
    diagram.  With one site inside the unit box it raises a TypeError at the
    site event, when one cell has been created: no diagram is returned. *)
Theorem compute_zero_or_one_site :
  (compute 1 [] unitBox (newVoronoi [])).2 = Ret (mkDiagram [] [] [])
  /\ (compute 1 [0] unitBox oneSiteWorld).2 = Throw TypeError
  /\ cells (compute 1 [0] unitBox oneSiteWorld).1 = Some [mkCell 0 [] false].
Proof. vm_compute. done. Qed.

(** Claim C2, on the code.  With three sites of which two coincide,
    [compute] raises a TypeError at the first site event: one cell has been
    created and one site has an identifier. *)
Theorem compute_duplicate_site :
  (compute 3 [0; 1; 2] unitBox duplicateWorld).2 = Throw TypeError
  /\ cells (compute 3 [0; 1; 2] unitBox duplicateWorld).1 = Some [mkCell 2 [] false]
  /\ voronoiId <$> siteStore (compute 3 [0; 1; 2] unitBox duplicateWorld).1
     = [None; None; Some 0].
Proof. vm_compute. done. Qed.

Lemma duplicateSites_numeric : numericSites (siteStore duplicateWorld) [0; 1; 2].
Proof.
  intros s x Hs Hx. apply list_elem_of_In in Hs. simpl in Hs.
  destruct Hs as [<-|[<-|[<-|[]]]]; simpl in Hx; by simplify_eq.
Defined.

Lemma compute_twice_raises_witness :
  rootless duplicateWorld /\ rootless usedWorld
  /\ sameCoords (siteStore duplicateWorld) (siteStore usedWorld)
  /\ (forall s, s ∈ [0; 1; 2] -> s < length (siteStore duplicateWorld))
  /\ numericSites (siteStore duplicateWorld) [0; 1; 2]
  /\ [0; 1; 2] <> []
  /\ exists s,
       (compute 1 [0; 1; 2] unitBox duplicateWorld).2 = Throw TypeError
       /\ (compute 1 [0; 1; 2] unitBox usedWorld).2 = Throw TypeError
       /\ siteStore (compute 1 [0; 1; 2] unitBox duplicateWorld).1
          = assignId (Some (s, 0)) (siteStore duplicateWorld)
       /\ siteStore (compute 1 [0; 1; 2] unitBox usedWorld).1
          = assignId (Some (s, 0)) (siteStore usedWorld)
       /\ cells (compute 1 [0; 1; 2] unitBox duplicateWorld).1 = Some [mkCell s [] false]
       /\ cells (compute 1 [0; 1; 2] unitBox usedWorld).1 = Some [mkCell s [] false].
Proof.
  assert (H1 : rootless duplicateWorld) by exact I.
  assert (H2 : rootless usedWorld) by reflexivity.
  assert (H3 : sameCoords (siteStore duplicateWorld) (siteStore usedWorld)).
  { repeat constructor. }
  assert (H4 : forall s, s ∈ [0; 1; 2] -> s < length (siteStore duplicateWorld)).
  { intros s Hs. simpl. apply list_elem_of_In in Hs. simpl in Hs. lia. }
  assert (H5 : [0; 1; 2] <> @nil sref) by discriminate.
  split; [exact H1|]. split; [exact H2|]. split; [exact H3|]. split; [exact H4|].
  split; [exact duplicateSites_numeric|]. split; [exact H5|].
  exact (compute_twice_raises 0 [0; 1; 2] unitBox duplicateWorld usedWorld
           H1 H2 H3 H4 duplicateSites_numeric H5).
Defined.

(** * The clipper *)

Lemma danglingEdgeWorld_ready : clipReady danglingEdgeWorld [0].
Proof.
  split; [by eexists|]. split; [by intros v Hv%elem_of_nil|].
  intros e ->%list_elem_of_singleton.
  exists (mkEdge 0 (Some 1) None None), (mkSite 0.25 0.5 (Some 0)), 1,
    (mkSite 0.75 0.5 (Some 1)), 0, 1, [mkCell 0 [] false; mkCell 1 [] false].
  simpl. repeat split; try done; try lia.
Defined.

Lemma clipEdges_keeps_exactly_witness :
  edges danglingEdgeWorld = Some [0] /\ NoDup [0] /\ clipReady danglingEdgeWorld [0]
  /\ exists w' ts kept,
       clipEdges unitBox danglingEdgeWorld = (w', Ret tt)
       /\ clipRun unitBox [0] danglingEdgeWorld w' ts
       /\ t_edge <$> ts = [0]
       /\ edges w' = Some kept
       /\ kept = survivors ts
       /\ (forall e, e ∈ kept <-> exists t, t ∈ ts /\ passes unitBox e t)
       /\ (forall e, (forall t, t ∈ ts -> t_edge t = e -> numericTurn t) ->
             (e ∈ kept <-> exists t, t ∈ ts /\ passesApart unitBox e t)).
Proof.
  assert (H1 : edges danglingEdgeWorld = Some [0]) by reflexivity.
  assert (H2 : NoDup [0]) by apply NoDup_singleton.
  split; [exact H1|]. split; [exact H2|]. split; [exact danglingEdgeWorld_ready|].
  exact (clipEdges_keeps_exactly unitBox danglingEdgeWorld [0] H1 H2
           danglingEdgeWorld_ready).
Defined.

Lemma hugeEdgeWorld_ready : clipReady hugeEdgeWorld [0].
Proof.
  split; [by eexists|]. split; [by intros v Hv%elem_of_nil|].
  intros e ->%list_elem_of_singleton.
  exists (mkEdge 0 (Some 1) (Some 0) (Some 1)), (mkSite 0.25 0.75 (Some 0)), 1,
    (mkSite 0.25 0.25 (Some 1)), 0, 1, [mkCell 0 [] false; mkCell 1 [] false].
  simpl. repeat split; try done; try lia; intros v [= <-]; lia.
Qed.

(** Claim C3 as stated fails on an edge from [(-1e308, 0.5)] to
    [(1e308, 0.5)] in the unit box: [connectEdge] and [clipEdge] succeed,
    the clipped endpoint is [(NaN, 0.5)], and the edge stays in the
    collection although its endpoints differ by at least [1e-9] in no
    coordinate. *)
Lemma clipEdges_keeps_nan_edge :
  edges hugeEdgeWorld = Some [0] /\ NoDup [0] /\ clipReady hugeEdgeWorld [0]
  /\ exists w',
       connectEdge 0 unitBox hugeEdgeWorld = (hugeEdgeWorld, Ret true)
       /\ clipEdge 0 unitBox hugeEdgeWorld = (w', Ret true)
       /\ clipEdges unitBox hugeEdgeWorld = (w', Ret tt)
       /\ edges w' = Some [0]
       /\ endpointsAt w' 0 (mkVertex (-1e308) 0.5) (mkVertex nan 0.5)
       /\ ~ differ (mkVertex (-1e308) 0.5) (mkVertex nan 0.5).
Proof.
  split; [reflexivity|]. split; [apply NoDup_singleton|].
  split; [exact hugeEdgeWorld_ready|].
  eexists. split; [vm_compute; reflexivity|]. split; [vm_compute; reflexivity|].
  split; [vm_compute; reflexivity|]. split; [reflexivity|]. split.
  - exists (mkEdge 0 (Some 1) (Some 0) (Some 2)), 0, 2. done.
  - intros [H|H]; vm_compute in H; discriminate.
Qed.

Lemma connectEdge_closeMe_witness :
  edgeStore outsideEdgeWorld !! 0 = Some (mkEdge 0 (Some 1) None None)
  /\ connectEdge 0 unitBox outsideEdgeWorld
     = ((connectEdge 0 unitBox outsideEdgeWorld).1, Ret false)
  /\ exists cs',
       cells (connectEdge 0 unitBox outsideEdgeWorld).1 = Some cs'
       /\ closeMe <$> cs' !! 0 = Some true
       /\ closeMe <$> cs' !! 1 = Some true.
Proof.
  assert (H : edgeStore outsideEdgeWorld !! 0 = Some (mkEdge 0 (Some 1) None None))
    by reflexivity.
  assert (Hrun : connectEdge 0 unitBox outsideEdgeWorld
                 = ((connectEdge 0 unitBox outsideEdgeWorld).1, Ret false))
    by (vm_compute; reflexivity).
  split; [exact H|]. split; [exact Hrun|].
  refine (proj2 (connectEdge_closeMe 0 unitBox outsideEdgeWorld _ H) eq_refl
            (mkSite 2 0.5 (Some 0)) 1 (mkSite 3 0.5 (Some 1)) 0 1
            [mkCell 0 [] false; mkCell 1 [] false]
            eq_refl eq_refl eq_refl eq_refl eq_refl eq_refl _ _ _ _ Hrun);
    simpl; lia.
Defined.

Lemma crossingEdgeWorld_pool : junkValid crossingEdgeWorld /\ poolOk crossingEdgeWorld.
Proof.
  split.
  - intros v ->%list_elem_of_singleton. simpl. lia.
  - exists [0; 1]. split; [reflexivity|]. split; [apply NoDup_singleton|]. split.
    + intros v ->%list_elem_of_singleton Hin.
      apply list_elem_of_In in Hin. simpl in Hin. lia.
    + intros v Hin. apply list_elem_of_In in Hin. simpl in *. lia.
Defined.

Lemma clipEdge_creates_clipped_endpoints_witness :
  junkValid crossingEdgeWorld /\ poolOk crossingEdgeWorld
  /\ clipParams (mkVertex (-0.5) 0.5) (mkVertex 0.5 0.5) unitBox = Some (0.5%float, 1%float)
  /\ (forall v, v ∈ [0; 1] ->
        vertexStore (clipEdge 0 unitBox crossingEdgeWorld).1 !! v
        = vertexStore crossingEdgeWorld !! v)
  /\ exists a1 b1 new,
       edgeStore (clipEdge 0 unitBox crossingEdgeWorld).1 !! 0
       = Some (mkEdge 0 (Some 1) (Some a1) (Some b1))
       /\ vertices (clipEdge 0 unitBox crossingEdgeWorld).1 = Some ([0; 1] ++ new)
       /\ ((a1 ∉ [0; 1])
           /\ vertexStore (clipEdge 0 unitBox crossingEdgeWorld).1 !! a1
              = Some (mkVertex (-0.5 + 0.5 * (0.5 - -0.5)) (0.5 + 0.5 * (0.5 - 0.5))))
       /\ b1 = 1.
Proof.
  assert (Hp : clipParams (mkVertex (-0.5) 0.5) (mkVertex 0.5 0.5) unitBox
               = Some (0.5%float, 1%float)) by (vm_compute; reflexivity).
  pose proof (clipEdge_creates_clipped_endpoints 0 unitBox crossingEdgeWorld
                (mkEdge 0 (Some 1) (Some 0) (Some 1)) 0 1
                (mkVertex (-0.5) 0.5) (mkVertex 0.5 0.5) [0; 1]
                eq_refl eq_refl eq_refl eq_refl eq_refl eq_refl
                (proj1 crossingEdgeWorld_pool) (proj2 crossingEdgeWorld_pool)
                (clipEdge 0 unitBox crossingEdgeWorld).1
                (clipEdge 0 unitBox crossingEdgeWorld).2
                (surjective_pairing _)) as [Hkeep Hnew].
  split; [exact (proj1 crossingEdgeWorld_pool)|].
  split; [exact (proj2 crossingEdgeWorld_pool)|].
  split; [exact Hp|]. split; [exact Hkeep|].
  exact (Hnew _ _ Hp).
Defined.

(** * Circle events *)

Lemma attachCircleEvent_raises_witness :
  eventPoolValid threeArcWorld
  /\ (forall tree, circleEvents threeArcWorld = Some tree -> root tree = None)
  /\ 0 <> 2
  /\ Num.ltb (2 * ((-1 - 0) * (1 - 0) - (1 - 0) * (1 - 0))) (-2e-12)%float = true
  /\ exists w' ev,
       attachCircleEvent 0 1 threeArcWorld = (w', Throw TypeError)
       /\ firstCircleEvent w' = None
       /\ circleEvents w' = Some (mkRBTree None)
       /\ attachesEvent threeArcWorld w' 1 ev
       /\ ce_site ev = Some 1
       /\ ce_x ev = 0%float
       /\ ce_ycenter ev = 1%float
       /\ ce_y ev = 2%float.
Proof.
  assert (Hpool : eventPoolValid threeArcWorld) by (by intros c Hc%elem_of_nil).
  assert (Hqueue : forall tree, circleEvents threeArcWorld = Some tree -> root tree = None)
    by (by intros tree [= <-]).
  assert (Hneq : 0 <> 2) by lia.
  assert (Hlt : Num.ltb (2 * ((-1 - 0) * (1 - 0) - (1 - 0) * (1 - 0))) (-2e-12)%float = true)
    by reflexivity.
  split; [exact Hpool|]. split; [exact Hqueue|]. split; [exact Hneq|]. split; [exact Hlt|].
  exact (proj1 (attachCircleEvent_raises 0 1 0 2 threeArcWorld
                  (mkBeachsection 1 None (Some 0) (Some 2) None None)
                  (mkBeachsection 0 None None (Some 1) None None)
                  (mkBeachsection 2 None (Some 1) None None None)
                  (mkSite (-1) 1 (Some 0)) (mkSite 0 0 (Some 1)) (mkSite 1 1 (Some 2))
                  eq_refl eq_refl eq_refl eq_refl eq_refl eq_refl eq_refl eq_refl
                  Hpool Hqueue)
           Hneq (or_introl Hlt)).
Defined.

(** * Further properties *)

#[local] Instance samePools_preorder : PreOrder samePools.
Proof.
  split; [by intros w|].
  intros w1 w2 w3 (?&?&?&?) (?&?&?&?). repeat split; congruence.
Qed.

Lemma bind_inv_Ret {A B} (m : M A) (k : A -> M B) w w' b :
  bind m k w = (w', Ret b) ->
  exists w1 a, m w = (w1, Ret a) /\ k a w1 = (w', Ret b).
Proof.
  unfold bind. destruct (m w) as [w1 [a|e|]]; intros H; simplify_eq. eauto.
Qed.

Lemma leftBreakPoint_pure arc directrix w : (leftBreakPoint arc directrix w).1 = w.
Proof.
  unfold leftBreakPoint, getArc, getSite, deref, bind, get, ret, throw.
  repeat (case_match; simpl in *; simplify_eq; try done).
Qed.

Lemma rightBreakPoint_pure arc directrix w : (rightBreakPoint arc directrix w).1 = w.
Proof.
  unfold rightBreakPoint, getArc. mstep.
  destruct (arcStore w !! arc) as [a|]; [|done]. mstep.
  destruct (rbNext a); [apply leftBreakPoint_pure|].
  unfold getSite. mstep. by destruct (siteStore w !! b_site a).
Qed.

Lemma locateArcs_pure fuel x directrix node w :
  (locateArcs fuel x directrix node w).1 = w.
Proof.
  revert node w. induction fuel as [|fuel IH]; intros [n|] w; try done.
  simpl. unfold getArc, bind, get, deref, ret, throw. simpl.
  destruct (arcStore w !! n) as [nd|]; [|done]. simpl.
  pose proof (leftBreakPoint_pure n directrix w) as Hl.
  destruct (leftBreakPoint n directrix w) as [w1 [lbp|e|]]; simpl in Hl; subst; try done.
  case_match; [apply IH|].
  pose proof (rightBreakPoint_pure n directrix w) as Hr.
  destruct (rightBreakPoint n directrix w) as [w1 [rbp|e|]]; simpl in Hr; subst; try done.
  repeat case_match; try done; apply IH.
Qed.

Lemma createBeachsection_samePools s : preserves samePools (createBeachsection s).
Proof.
  unfold createBeachsection, getArc, setArc.
  apply preserves_bind; [tc_solve|apply preserves_pure; [tc_solve|done]|].
  intros junk. destruct (last junk); pres.
Qed.

Lemma addBeachsection_samePools fuel s : preserves samePools (addBeachsection fuel s).
Proof.
  unfold addBeachsection, getSite.
  pres; try apply createBeachsection_samePools.
  apply preserves_pure; [tc_solve|]. apply locateArcs_pure.
Qed.

Lemma mainLoop_first_site_pools fuel evs s x w :
  firstCircleEvent w = None -> siteStore w !! s = Some x ->
  cells w = Some [] -> beachline w = Some (mkRBTree None) ->
  let w' := (mainLoop (S fuel) evs (Some s) 0 None w).1 in
  toRecycle w' = toRecycle w /\ vertexJunkyard w' = vertexJunkyard w
  /\ edgeJunkyard w' = edgeJunkyard w
  /\ cellJunkyard w' = removelast (cellJunkyard w).
Proof.
  intros Hfirst Hs Hcells Hb. simpl. mstep. rewrite Hfirst. mstep.
  rewrite (bind_Ret _ _ _ _ _ (getSite_Some _ _ _ Hs)). mstep.
  unfold createCell, storeCell, setSite. mstep. simpl. rewrite Hcells. mstep. simpl.
  set (w1 := set_siteStore _ _).
  destruct (addBeachsection_raises (S fuel) s (mkSite (s_x x) (s_y x) (Some 0)) w1)
    as (w' & Hadd & _).
  { subst w1. simpl. apply list_lookup_insert_eq. by apply lookup_lt_Some in Hs. }
  { done. }
  rewrite (bind_Throw _ _ _ _ _ Hadd). simpl.
  destruct (addBeachsection_samePools _ _ _ _ _ Hadd) as (H1 & H2 & H3 & H4).
  rewrite H1, H2, H3, H4. done.
Qed.

(** Property X1.  After [recycle] has taken a diagram, the next [compute]
    on an instance whose beachline is empty moves the diagram's vertices,
    edges and cells to the ends of the three pools and forgets the diagram,
    whatever its own outcome; with a site in the input, the cell of the
    first site event is the pool's last cell, taken back out. *)
Theorem recycle_compute_pools
    (fuel : nat) (d : Diagram) (sites : list sref) (bbox : BBox) (w : World) :
  rootless w -> (forall s, s ∈ sites -> s < length (siteStore w)) ->
  exists w1,
    recycle (JsDiagram d) w = (w1, Ret tt)
    /\ let w2 := (compute (S fuel) sites bbox w1).1 in
       toRecycle w2 = None
       /\ vertexJunkyard w2 = vertexJunkyard w ++ d_vertices d
       /\ edgeJunkyard w2 = edgeJunkyard w ++ d_edges d
       /\ cellJunkyard w2
          = match sites with
            | [] => cellJunkyard w ++ d_cells d
            | _ :: _ => removelast (cellJunkyard w ++ d_cells d)
            end.
Proof.
  intros Hroot Hvalid. eexists. split; [reflexivity|].
  set (w0 := set_toRecycle (Some d) w).
  assert (Hroot0 : rootless w0) by done.
  unfold compute.
  rewrite (bind_Ret _ _ _ _ _ (reset_rootless _ Hroot0)).
  mstep. rewrite (bind_Ret _ _ _ _ _ (recycled_ok _)).
  set (w1 := recycledWorld (resetWorld w0)).
  rewrite (bind_Ret _ _ _ _ _ (resolveSites_ok sites w1 Hvalid)).
  change (siteStore w1) with (siteStore w).
  fold (siteEventsOf (siteStore w) sites).
  destruct sites as [|s0 sites].
  - change (siteEventsOf (siteStore w) []) with (@nil sref).
    simpl mainLoop. mstep. change (firstCircleEvent w1) with (@None cref). mstep.
    unfold clipEdges. mstep. change (edges w1) with (Some (@nil eref)). mstep.
    simpl clipEdgesLoop. mstep.
    unfold closeCells. mstep. change (cells w1) with (Some (@nil Cell)). mstep.
    change (cells w1) with (Some (@nil Cell)). mstep.
    change (edges w1) with (Some (@nil eref)). mstep.
    change (vertices w1) with (Some (@nil vref)). mstep.
    rewrite (bind_Ret _ _ _ _ _ (reset_rootless w1 ltac:(done))). done.
  - destruct (first_event (siteStore w) (s0 :: sites) ltac:(done) Hvalid)
      as (s & x & Hlast & Hx).
    rewrite Hlast.
    destruct (mainLoop_first_site fuel (removelast (siteEventsOf (siteStore w) (s0 :: sites)))
                s x w1 eq_refl Hx eq_refl eq_refl) as (w' & Hloop & _).
    pose proof (mainLoop_first_site_pools fuel
                  (removelast (siteEventsOf (siteStore w) (s0 :: sites)))
                  s x w1 eq_refl Hx eq_refl eq_refl) as Hpools.
    rewrite Hloop in Hpools. simpl in Hpools.
    rewrite (bind_Throw _ _ _ _ _ Hloop). simpl.
    destruct Hpools as (H1 & H2 & H3 & H4). rewrite H1, H2, H3, H4. done.
Qed.



Lemma createVertex_inv_Ret x y w w' v :
  createVertex x y w = (w', Ret v) -> is_Some (vertices w).
Proof.
  unfold createVertex. mstep. destruct (last (vertexJunkyard w)); mstep; simpl;
    destruct (vertices w); eauto; done.
Qed.

Lemma connectTo_None va0 before beyond a b w w' :
  connectTo va0 before beyond a b w = (w', Ret None) -> w' = w.
Proof.
  unfold connectTo. intros (w1 & start & Hstart & Hrest)%bind_inv_Ret.
  destruct start as [va'|].
  - apply bind_inv_Ret in Hrest as (w2 & vb' & _ & Hret). by inversion Hret.
  - inversion Hrest; subst. destruct va0 as [v|].
    + apply bind_inv_Ret in Hstart as (w2 & p & Hp & Hk).
      unfold getVertex in Hp. rewrite bind_get in Hp.
      destruct (vertexStore w !! v); [|done]. inversion Hp; subst.
      destruct (before p).
      * apply bind_inv_Ret in Hk as (w3 & v' & _ & Hret). by inversion Hret.
      * destruct (beyond p); by inversion Hk.
    + apply bind_inv_Ret in Hstart as (w2 & v' & _ & Hret). by inversion Hret.
Qed.

Lemma connectEnds_None va0 lx ly rx ry bbox w w' :
  connectEnds va0 lx ly rx ry bbox w = (w', Ret None) -> w' = w.
Proof.
  unfold connectEnds. repeat case_match; try apply connectTo_None.
  by intros [= ->].
Qed.

(** Property X3.  When [connectEdge] answers [false] it has created no
    vertex and written no edge: the vertex collection, store and pool, the
    edges and the sites are what they were. *)
Theorem connectEdge_false_creates_nothing
    (e : eref) (bbox : BBox) (w w' : World) :
  connectEdge e bbox w = (w', Ret false) ->
  vertices w' = vertices w /\ vertexStore w' = vertexStore w
  /\ vertexJunkyard w' = vertexJunkyard w /\ edgeStore w' = edgeStore w
  /\ edges w' = edges w /\ siteStore w' = siteStore w.
Proof.
  unfold connectEdge. intros (w1 & edge & Hedge & Hrun)%bind_inv_Ret.
  unfold getEdge in Hedge. rewrite bind_get in Hedge.
  destruct (edgeStore w !! e); [|done]. inversion Hedge; subst. clear Hedge.
  destruct (vb edge); [by inversion Hrun|].
  apply bind_inv_Ret in Hrun as (w2 & ls & Hls & Hrun).
  unfold getSite in Hls. rewrite bind_get in Hls.
  destruct (siteStore w1 !! lSite edge); [|done]. inversion Hls; subst. clear Hls.
  apply bind_inv_Ret in Hrun as (w3 & r & Hr & Hrun).
  destruct (rSite edge); [|done]. inversion Hr; subst. clear Hr.
  apply bind_inv_Ret in Hrun as (w4 & rs & Hrs & Hrun).
  unfold getSite in Hrs. rewrite bind_get in Hrs.
  destruct (siteStore w3 !! r); [|done]. inversion Hrs; subst. clear Hrs.
  apply bind_inv_Ret in Hrun as (w5 & [] & Hm1 & Hrun).
  apply bind_inv_Ret in Hrun as (w6 & [] & Hm2 & Hrun).
  apply bind_inv_Ret in Hrun as (w7 & ends & Hends & Hrun).
  destruct ends as [[va' vb']|].
  { apply bind_inv_Ret in Hrun as (w8 & ? & _ & Hrun).
    apply bind_inv_Ret in Hrun as (w9 & ? & _ & Hrun). by inversion Hrun. }
  inversion Hrun; subst. clear Hrun.
  apply connectEnds_None in Hends as ->.
  assert (Hmark : forall id u u', markCloseMe id u = (u', Ret tt) ->
            vertices u' = vertices u /\ vertexStore u' = vertexStore u
            /\ vertexJunkyard u' = vertexJunkyard u /\ edgeStore u' = edgeStore u
            /\ edges u' = edges u /\ siteStore u' = siteStore u).
  { intros id u u'. unfold markCloseMe. rewrite bind_get.
    destruct (cells u) as [l|]; [|done]. destruct id as [i|]; [|done].
    destruct (l !! i); [|done]. by intros [= <-]. }
  destruct (Hmark _ _ _ Hm1) as (?&?&?&?&?&?).
  destruct (Hmark _ _ _ Hm2) as (?&?&?&?&?&?).
  repeat split; congruence.
Qed.

Lemma filterByIndex_sublist (S : gset nat) (points : list Point) :
  filterByIndex S points `sublist_of` points.
Proof.
  unfold filterByIndex.
  assert (H : forall k l, snd <$> filter (fun ip : nat * Point => ip.1 ∉ S)
                            (imap (fun i p => (k + i, p)) l) `sublist_of` l).
  { intros k l. revert k. induction l as [|p l IH]; intros k; [done|].
    rewrite imap_cons. simpl. rewrite filter_cons.
    rewrite (imap_ext _ (fun i p => (Datatypes.S k + i, p)) l)
      by (intros; simpl; f_equal; lia).
    case_decide; simpl; [apply sublist_skip|apply sublist_cons];
      apply (IH (Datatypes.S k)). }
  apply (H 0).
Qed.

Lemma removelast_sublist {A} (l : list A) : removelast l `sublist_of` l.
Proof.
  induction l as [|a l IH]; [done|]. destruct l as [|b l].
  - apply sublist_nil_l.
  - change (removelast (a :: b :: l)) with (a :: removelast (b :: l)).
    by apply sublist_skip.
Qed.

(** Property X4.  What [filterSimilarPoints] returns is a subsequence of
    its input: points are only removed, never added, moved or changed. *)
Theorem filterSimilarPoints_sublist
    (points : list Point) (threshold : float) (r : list Point) :
  filterSimilarPoints points threshold = Ret r -> r `sublist_of` points.
Proof.
  unfold filterSimilarPoints.
  destruct (indexesTooCloseToPrevious points threshold) as [S|e|]; [|done..]. simpl.
  destruct (elemAt (filterByIndex S points) 0) as [pt2|e|]; [|done..]. simpl.
  destruct (elemAt _ _) as [nextPt2|e|]; [|done..]. simpl.
  intros [= <-]. case_match; [|apply filterByIndex_sublist].
  etrans; [apply removelast_sublist|apply filterByIndex_sublist].
Qed.
#[local] Instance onlyArcs_preorder : PreOrder onlyArcs.
Proof.
  split.
  - intros w. by destruct w.
  - intros w1 w2 w3 H12 H23. unfold onlyArcs in *.
    rewrite H23 at 1. rewrite H12 at 1. by destruct w1.
Qed.

Lemma createBeachsection_onlyArcs s : preserves onlyArcs (createBeachsection s).
Proof.
  unfold createBeachsection, getArc, setArc.
  apply preserves_bind; [tc_solve|apply preserves_pure; [tc_solve|done]|].
  intros junk. destruct (last junk) as [b|].
  - apply preserves_bind; [tc_solve| |intros].
    { apply preserves_modify. intros w. by destruct w. }
    apply preserves_bind; [tc_solve| |intros].
    { apply preserves_pure; [tc_solve|]. intros w. unfold bind, get, deref.
      by destruct (arcStore w !! b). }
    apply preserves_bind; [tc_solve| |intros].
    { apply preserves_modify. intros w. by destruct w. }
    apply preserves_pure; [tc_solve|done].
  - apply preserves_bind; [tc_solve|apply preserves_pure; [tc_solve|done]|intros].
    apply preserves_bind; [tc_solve| |intros].
    { apply preserves_modify. intros w. by destruct w. }
    apply preserves_pure; [tc_solve|done].
Qed.

(** Property X5.  [addBeachsection] never returns, and all it leaves behind
    is in the beach sections: their store and their pool.  When the site is
    stored, the beachline exists and the descent finds its place, the call
    raises a TypeError ([this.beachline.rbInsertSuccessor] is not a
    function) after [createBeachsection] has taken the pool's last beach
    section, or allocated one, and given it the site: the section is
    created but never inserted. *)
Theorem addBeachsection_never_inserts (fuel : nat) (site : sref) (w : World) :
  ~ returns (addBeachsection fuel site w).2
  /\ onlyArcs w (addBeachsection fuel site w).1
  /\ forall s tree arcs,
       siteStore w !! site = Some s -> beachline w = Some tree ->
       (locateArcs fuel (s_x s) (s_y s) (root tree) w).2 = Ret arcs ->
       (forall b, b ∈ beachsectionJunkyard w -> b < length (arcStore w)) ->
       let w' := (addBeachsection fuel site w).1 in
       (addBeachsection fuel site w).2 = Throw TypeError
       /\ match last (beachsectionJunkyard w) with
          | None =>
              beachsectionJunkyard w' = beachsectionJunkyard w
              /\ arcStore w'
                 = arcStore w ++ [mkBeachsection site None None None None None]
          | Some b =>
              beachsectionJunkyard w' = removelast (beachsectionJunkyard w)
              /\ exists old,
                   arcStore w !! b = Some old
                   /\ arcStore w'
                      = <[b := mkBeachsection site (circleEvent old) (rbPrevious old)
                                 (rbNext old) (rbLeft old) (rbRight old)]> (arcStore w)
          end.
Proof.
  split; [|split].
  - intros [[] Hret]. destruct (addBeachsection fuel site w) as [w' o] eqn:Hrun.
    simpl in Hret. subst o. unfold addBeachsection in Hrun.
    apply bind_inv_Ret in Hrun as (w1 & s & _ & Hrun).
    apply bind_inv_Ret in Hrun as (w2 & bl & _ & Hrun).
    apply bind_inv_Ret in Hrun as (w3 & tree & _ & Hrun).
    apply bind_inv_Ret in Hrun as (w4 & arcs & _ & Hrun).
    apply bind_inv_Ret in Hrun as (w5 & newArc & _ & Hrun). done.
  - assert (Hp : preserves onlyArcs (addBeachsection fuel site)).
    { unfold addBeachsection, getSite.
      apply preserves_bind; [tc_solve| |intros s].
      { apply preserves_pure; [tc_solve|]. intros u. unfold bind, get, deref.
        by destruct (siteStore u !! site). }
      apply preserves_bind; [tc_solve|apply preserves_pure; [tc_solve|done]|intros bl].
      apply preserves_bind; [tc_solve| |intros tree].
      { apply preserves_pure; [tc_solve|]. intros u. by destruct bl. }
      apply preserves_bind; [tc_solve| |intros arcs].
      { apply preserves_pure; [tc_solve|]. apply locateArcs_pure. }
      apply preserves_bind; [tc_solve|apply createBeachsection_onlyArcs|intros newArc].
      apply preserves_pure; [tc_solve|done]. }
    apply (Hp w _ (addBeachsection fuel site w).2). by destruct (addBeachsection fuel site w).
  - intros s tree arcs Hs Hb Hloc Hpool.
    assert (Hrun : locateArcs fuel (s_x s) (s_y s) (root tree) w = (w, Ret arcs)).
    { pose proof (locateArcs_pure fuel (s_x s) (s_y s) (root tree) w) as Hpure.
      destruct (locateArcs fuel (s_x s) (s_y s) (root tree) w) as [u o].
      simpl in Hpure, Hloc. by subst. }
    unfold addBeachsection.
    rewrite (bind_Ret _ _ _ _ _ (getSite_Some _ _ _ Hs)). mstep. rewrite Hb. mstep.
    rewrite (bind_Ret _ _ _ _ _ Hrun).
    unfold createBeachsection. mstep.
    destruct (last (beachsectionJunkyard w)) as [b|] eqn:Hlast.
    + assert (Hbl : b < length (arcStore w)).
      { apply Hpool. apply last_Some in Hlast as [l' ->]. set_solver. }
      destruct (lookup_lt_is_Some_2 _ _ Hbl) as [old Hold].
      mstep. unfold getArc. mstep. simpl. rewrite Hold. mstep.
      unfold setArc. mstep. simpl. split; [done|]. split; [done|]. by exists old.
    + mstep. simpl. done.
Qed.

Lemma compare_cont_Z m1 m2 : Pos.compare_cont Eq m1 m2 = (Z.pos m1 ?= Z.pos m2)%Z.
Proof. done. Qed.

Ltac zcmp :=
  repeat match goal with
    | H : context [(?a ?= ?b)%Z] |- _ => destruct (Z.compare_spec a b); simpl in H
    | |- context [(?a ?= ?b)%Z] => destruct (Z.compare_spec a b); simpl
    | H : context [(?a ?= ?b)%positive] |- _ => destruct (Pos.compare_spec a b); simpl in H
    | |- context [(?a ?= ?b)%positive] => destruct (Pos.compare_spec a b); simpl
    end;
  try congruence; try lia.

Ltac sfcases :=
  intros;
  repeat match goal with
    | f : spec_float |- _ => destruct f
    end;
  repeat match goal with
    | s : bool |- _ => destruct s
    end;
  unfold SFltb, SFleb, SFcompare in *; simpl in *; try congruence;
  rewrite ?compare_cont_Z in *; zcmp.

Lemma SFltb_leb_trans a b c : SFltb a b = true -> SFleb b c = true -> SFleb a c = true.
Proof. sfcases. Qed.

Lemma SFleb_ltb_trans a b c : SFleb a b = true -> SFltb b c = true -> SFleb a c = true.
Proof. sfcases. Qed.

Lemma SFleb_trans a b c : SFleb a b = true -> SFleb b c = true -> SFleb a c = true.
Proof. sfcases. Qed.

Lemma SFleb_total a b :
  a <> S754_nan -> b <> S754_nan -> SFltb a b = false -> SFleb b a = true.
Proof. sfcases. Qed.

Lemma SFleb_not_nan a b : SFleb a b = true -> a <> S754_nan /\ b <> S754_nan.
Proof. intros H. split; intros ->; [done|by destruct a]. Qed.

Lemma SFltb_not_nan a b : SFltb a b = true -> a <> S754_nan /\ b <> S754_nan.
Proof. intros H. split; intros ->; [done|by destruct a]. Qed.
Lemma ltb_leb_trans a b c : Num.ltb a b = true -> Num.leb b c = true -> Num.leb a c = true.
Proof.
  unfold Num.ltb, Num.leb. rewrite FloatAxioms.ltb_spec, !FloatAxioms.leb_spec.
  apply SFltb_leb_trans.
Qed.

Lemma leb_ltb_trans a b c : Num.leb a b = true -> Num.ltb b c = true -> Num.leb a c = true.
Proof.
  unfold Num.ltb, Num.leb. rewrite FloatAxioms.ltb_spec, !FloatAxioms.leb_spec.
  apply SFleb_ltb_trans.
Qed.

Lemma leb_ordered a b :
  Num.leb a b = true -> Prim2SF a <> S754_nan /\ Prim2SF b <> S754_nan.
Proof. unfold Num.leb. rewrite FloatAxioms.leb_spec. apply SFleb_not_nan. Qed.

Lemma ltb_ordered a b :
  Num.ltb a b = true -> Prim2SF a <> S754_nan /\ Prim2SF b <> S754_nan.
Proof. unfold Num.ltb. rewrite FloatAxioms.ltb_spec. apply SFltb_not_nan. Qed.

Lemma not_ltb_leb a b :
  Prim2SF a <> S754_nan -> Prim2SF b <> S754_nan ->
  Num.ltb b a = false -> Num.leb a b = true.
Proof.
  unfold Num.ltb, Num.leb. rewrite FloatAxioms.ltb_spec, FloatAxioms.leb_spec.
  intros Ha Hb. by apply SFleb_total.
Qed.

Lemma clipLow_inUnit d q t t' : inUnit t -> clipLow d q t = Some t' -> inUnit t'.
Proof.
  intros (H0 & H01 & H1). unfold clipLow.
  destruct (_ && _); [done|].
  set (r := (- q / d)%float).
  destruct (Num.ltb d 0) eqn:Hd.
  - destruct (Num.ltb r t.1) eqn:Hr0; [done|]. intros [= <-]. simpl.
    split; [done|]. destruct (Num.ltb r t.2) eqn:Hr1; [|done].
    split; [|by eapply ltb_leb_trans].
    apply not_ltb_leb; [|by apply ltb_ordered in Hr1 as [? ?]|done].
    by apply leb_ordered in H01 as [? ?].
  - destruct (Num.gtb d 0) eqn:Hd'; [|by intros [= <-]].
    destruct (Num.gtb r t.2) eqn:Hr1; [done|]. intros [= <-]. simpl.
    destruct (Num.gtb r t.1) eqn:Hr0; [|done].
    unfold Num.gtb in *. split; [by eapply leb_ltb_trans|]. split; [|done].
    apply not_ltb_leb; [by apply ltb_ordered in Hr0 as [? ?]| |done].
    by apply leb_ordered in H01 as [? ?].
Qed.

Lemma clipHigh_inUnit d q t t' : inUnit t -> clipHigh d q t = Some t' -> inUnit t'.
Proof.
  intros (H0 & H01 & H1). unfold clipHigh.
  destruct (_ && _); [done|].
  set (r := (q / d)%float).
  destruct (Num.ltb d 0) eqn:Hd.
  - destruct (Num.gtb r t.2) eqn:Hr1; [done|]. intros [= <-]. simpl.
    destruct (Num.gtb r t.1) eqn:Hr0; [|done].
    unfold Num.gtb in *. split; [by eapply leb_ltb_trans|]. split; [|done].
    apply not_ltb_leb; [by apply ltb_ordered in Hr0 as [? ?]| |done].
    by apply leb_ordered in H01 as [? ?].
  - destruct (Num.gtb d 0) eqn:Hd'; [|by intros [= <-]].
    destruct (Num.ltb r t.1) eqn:Hr0; [done|]. intros [= <-]. simpl.
    split; [done|]. destruct (Num.ltb r t.2) eqn:Hr1; [|done].
    split; [|by eapply ltb_leb_trans].
    apply not_ltb_leb; [|by apply ltb_ordered in Hr1 as [? ?]|done].
    by apply leb_ordered in H01 as [? ?].
Qed.

(** Property X6.  The parameters the Liang-Barsky tests of [clipEdge]
    accept are ordered and within the segment: [0 <= t0 <= t1 <= 1]. *)
Theorem clipParams_inUnit (a b : Vertex) (bbox : BBox) (t0 t1 : float) :
  clipParams a b bbox = Some (t0, t1) ->
  Num.leb 0%float t0 = true /\ Num.leb t0 t1 = true /\ Num.leb t1 1%float = true.
Proof.
  unfold clipParams. intros H.
  destruct (clipLow _ _ (0%float, 1%float)) as [u1|] eqn:H1; [|done]. simpl in H.
  destruct (clipHigh _ _ u1) as [u2|] eqn:H2; [|done]. simpl in H.
  destruct (clipLow _ _ u2) as [u3|] eqn:H3; [|done]. simpl in H.
  apply clipLow_inUnit in H1; [|by vm_compute].
  apply clipHigh_inUnit in H2; [|done].
  apply clipLow_inUnit in H3; [|done].
  by apply clipHigh_inUnit in H.
Qed.
Lemma SFltb_abs d e : SFltb (SFabs d) e = true -> SFltb d e = true.
Proof. unfold SFabs. sfcases. Qed.

Lemma SFltb_asym a b : SFltb a b = true -> SFltb b a = false.
Proof. sfcases. Qed.

Lemma SFcompare_undecided a b :
  SFltb a b = false -> SFltb b a = false ->
  a = S754_nan \/ b = S754_nan \/ SFeqb a b = true.
Proof.
  intros Hab Hba. unfold SFeqb.
  destruct a, b; try (by left); try (by right; left); right; right;
    revert Hab Hba; sfcases.
Qed.

(** Property X7.  The comparisons up to the tolerance: greater-than and
    less-than-or-equal exclude each other; both are false only when the
    difference is NaN or exactly the tolerance; equal implies
    less-than-or-equal and not greater-than; and the two remaining
    comparisons are the first two with the arguments swapped. *)
Theorem epsilon_comparisons (a b : float) :
  (greaterThanWithEpsilon a b = true -> lessThanOrEqualWithEpsilon a b = false)
  /\ (greaterThanWithEpsilon a b = false -> lessThanOrEqualWithEpsilon a b = false ->
      Num.is_nan (a - b) = true \/ Num.eqb (a - b) 1e-9%float = true)
  /\ (equalWithEpsilon a b = true ->
      lessThanOrEqualWithEpsilon a b = true /\ greaterThanWithEpsilon a b = false)
  /\ greaterThanOrEqualWithEpsilon a b = lessThanOrEqualWithEpsilon b a
  /\ lessThanWithEpsilon a b = greaterThanWithEpsilon b a.
Proof.
  unfold greaterThanWithEpsilon, lessThanOrEqualWithEpsilon, equalWithEpsilon,
    greaterThanOrEqualWithEpsilon, lessThanWithEpsilon, Num.gtb, Num.ltb, Num.eqb,
    Num.is_nan, PrimFloat.is_nan.
  rewrite !FloatAxioms.ltb_spec, !FloatAxioms.eqb_spec, FloatAxioms.abs_spec.
  generalize (Prim2SF (a - b)). intros d.
  split; [apply SFltb_asym|]. split; [|split; [|done]].
  - intros H1 H2. destruct (SFcompare_undecided _ _ H2 H1) as [->|[H|H]]; [by left| |by right].
    by vm_compute in H.
  - intros H%SFltb_abs. split; [done|]. by apply SFltb_asym.
Qed.




Lemma neighborLoop_spec (cell : Cell) (w : World) (own : Site) (i : nat)
    (neighbors : list (option nat)) :
  cellStored w cell -> siteStore w !! c_site cell = Some own ->
  i <= length (halfedges cell) ->
  neighborLoop cell i neighbors w
  = (w, Ret (neighbors
             ++ omap (neighborOf w (voronoiId own)) (reverse (take i (halfedges cell))))).
Proof.
  intros [_ Hst] Hown. revert neighbors.
  induction i as [|i IH]; intros neighbors Hi.
  - simpl. by rewrite app_nil_r.
  - simpl. destruct (lookup_lt_is_Some_2 (halfedges cell) i) as [h Hh]; [lia|].
    rewrite Hh. mstep.
    destruct (Hst h) as (ed & Hed & Hl & Hr); [by eapply list_elem_of_lookup_2|].
    destruct (lookup_lt_is_Some_2 _ _ Hl) as [ls Hls].
    rewrite (bind_Ret _ _ _ _ _ (getEdge_Some _ _ _ Hed)).
    rewrite (bind_Ret _ _ _ _ _ (getSite_Some _ _ _ Hls)).
    rewrite (bind_Ret _ _ _ _ _ (getSite_Some _ _ _ Hown)).
    rewrite (take_S_r _ _ _ Hh), reverse_app. simpl.
    unfold neighborOf at 1. rewrite Hed. simpl. rewrite Hls. simpl.
    case_bool_decide.
    + rewrite IH by lia. by rewrite <- app_assoc.
    + destruct (rSite ed) as [r|] eqn:Hrs; simpl.
      * destruct (lookup_lt_is_Some_2 _ _ (Hr r eq_refl)) as [rs Hrs'].
        rewrite (bind_Ret _ _ _ _ _ (getSite_Some _ _ _ Hrs')). rewrite Hrs'. simpl.
        case_bool_decide; rewrite IH by lia; [by rewrite <- app_assoc|done].
      * by rewrite IH by lia.
Qed.

(** Property X9.  [getNeighborIds] pushes at most one identifier per
    halfedge: the left site's when it differs from the cell's own, else the
    right site's when there is one and it differs.  The cell's own
    identifier is never in the result. *)
Theorem getNeighborIds_neighbours (cell : Cell) (w : World) (own : Site) :
  cellStored w cell -> siteStore w !! c_site cell = Some own ->
  exists ns,
    getNeighborIds cell w = (w, Ret ns)
    /\ length ns <= length (halfedges cell)
    /\ (voronoiId own ∉ ns)
    /\ forall id, id ∈ ns <->
         exists h, h ∈ halfedges cell /\ neighborOf w (voronoiId own) h = Some id.
Proof.
  intros Hst Hown. unfold getNeighborIds.
  rewrite (neighborLoop_spec cell w own _ [] Hst Hown (le_n _)).
  rewrite firstn_all. simpl. eexists. split; [done|].
  assert (Hmem : forall id, id ∈ omap (neighborOf w (voronoiId own)) (reverse (halfedges cell))
                   <-> exists h, h ∈ halfedges cell
                         /\ neighborOf w (voronoiId own) h = Some id).
  { intros id. rewrite list_elem_of_omap. by setoid_rewrite elem_of_reverse. }
  split; [|split; [|exact Hmem]].
  - rewrite <- (length_reverse (halfedges cell)).
    generalize (reverse (halfedges cell)). intros l.
    induction l as [|x l IH]; [done|]. cbn [omap list_omap].
    destruct (neighborOf _ _ x); simpl in *; lia.
  - intros (h & _ & Hn)%Hmem. unfold neighborOf in Hn.
    destruct (edgeStore w !! h_edge h) as [ed|]; [|done]. simpl in Hn.
    destruct (siteStore w !! lSite ed) as [ls|]; [|done]. simpl in Hn.
    case_bool_decide; [by simplify_eq|].
    destruct (rSite ed) as [r|]; [|done]. simpl in Hn.
    destruct (siteStore w !! r) as [rs|]; [|done]. simpl in Hn.
    case_bool_decide; by simplify_eq.
Qed.

Lemma setEdgeStartpoint_run e l r v w ed :
  edgeStore w !! e = Some ed ->
  setEdgeStartpoint e l r v w
  = (set_edgeStore
       (<[e := match va ed, vb ed with
               | None, None => mkEdge l (Some r) (Some v) None
               | _, _ =>
                   if Nat.eqb (lSite ed) r
                   then mkEdge (lSite ed) (rSite ed) (va ed) (Some v)
                   else mkEdge (lSite ed) (rSite ed) (Some v) (vb ed)
               end]> (edgeStore w)) w, Ret tt).
Proof.
  intros Hed. unfold setEdgeStartpoint.
  rewrite (bind_Ret _ _ _ _ _ (getEdge_Some _ _ _ Hed)).
  destruct (va ed), (vb ed); try done; by destruct (lSite ed =? r).
Qed.

Lemma getStartpoint_run h w ed :
  edgeStore w !! h_edge h = Some ed ->
  getStartpoint h w = (w, Ret (if Nat.eqb (lSite ed) (h_site h) then va ed else vb ed)).
Proof. intros Hed. unfold getStartpoint. by rewrite (bind_Ret _ _ _ _ _ (getEdge_Some _ _ _ Hed)). Qed.

Lemma getEndpoint_run h w ed :
  edgeStore w !! h_edge h = Some ed ->
  getEndpoint h w = (w, Ret (if Nat.eqb (lSite ed) (h_site h) then vb ed else va ed)).
Proof. intros Hed. unfold getEndpoint. by rewrite (bind_Ret _ _ _ _ _ (getEdge_Some _ _ _ Hed)). Qed.

(** Property X10.  On an edge without endpoints, [setEdgeStartpoint] and
    [setEdgeEndpoint] with the same two sites commute: in either order, the
    halfedge of the left site then starts at the start point and ends at the
    end point, and the halfedge of the right site runs the other way. *)
Theorem setEdge_endpoints_either_order
    (e : eref) (l r : sref) (v1 v2 : vref) (w : World) (ed : Edge) (a : float) :
  edgeStore w !! e = Some ed -> va ed = None -> vb ed = None -> l <> r ->
  forall m,
    m = (do* setEdgeStartpoint e l r v1 in setEdgeEndpoint e l r v2)
    \/ m = (do* setEdgeEndpoint e l r v2 in setEdgeStartpoint e l r v1) ->
    exists w',
      m w = (w', Ret tt)
      /\ getStartpoint (mkHalfedge l e a) w' = (w', Ret (Some v1))
      /\ getEndpoint (mkHalfedge l e a) w' = (w', Ret (Some v2))
      /\ getStartpoint (mkHalfedge r e a) w' = (w', Ret (Some v2))
      /\ getEndpoint (mkHalfedge r e a) w' = (w', Ret (Some v1)).
Proof.
  intros Hed Ha Hb Hne m Hm.
  assert (He : e < length (edgeStore w)) by (by apply lookup_lt_Some in Hed).
  assert (Hlr : (l =? r) = false) by (by apply Nat.eqb_neq).
  assert (Hrl : (r =? l) = false) by (by apply Nat.eqb_neq).
  destruct Hm as [-> | ->]; unfold setEdgeEndpoint.
  - rewrite (bind_Ret _ _ _ _ _ (setEdgeStartpoint_run _ _ _ _ _ _ Hed)).
    rewrite Ha, Hb.
    erewrite setEdgeStartpoint_run by (simpl; by apply list_lookup_insert_eq).
    simpl. rewrite Nat.eqb_refl, list_insert_insert_eq.
    eexists. split; [done|].
    repeat split;
      (erewrite getStartpoint_run || erewrite getEndpoint_run);
      try (simpl; by apply list_lookup_insert_eq); simpl;
      by rewrite ?Nat.eqb_refl, ?Hlr.
  - rewrite (bind_Ret _ _ _ _ _ (setEdgeStartpoint_run _ _ _ _ _ _ Hed)).
    rewrite Ha, Hb.
    erewrite setEdgeStartpoint_run by (simpl; by apply list_lookup_insert_eq).
    simpl. rewrite Nat.eqb_refl, list_insert_insert_eq.
    eexists. split; [done|].
    repeat split;
      (erewrite getStartpoint_run || erewrite getEndpoint_run);
      try (simpl; by apply list_lookup_insert_eq); simpl;
      by rewrite ?Nat.eqb_refl, ?Hrl.
Qed.
Lemma onlyEdges_trans w1 w2 w3 : onlyEdges w1 w2 -> onlyEdges w2 w3 -> onlyEdges w1 w3.
Proof.
  unfold onlyEdges. intros H12 H23. rewrite H23 at 1. rewrite H12 at 1. by destruct w1.
Qed.

Lemma takeEdge_run fresh reuse w :
  edgePoolValid w ->
  exists x st,
    takeEdge fresh reuse w
    = (set_edgeStore st (set_edgeJunkyard (removelast (edgeJunkyard w)) w), Ret (nextEdge w))
    /\ st !! nextEdge w = Some x
    /\ (x = fresh \/ exists old, x = reuse old)
    /\ length (edgeStore w) <= length st
    /\ (forall e', e' <> nextEdge w -> st !! e' = edgeStore w !! e').
Proof.
  intros Hvalid. unfold takeEdge, nextEdge. mstep.
  destruct (last (edgeJunkyard w)) as [e|] eqn:Hlast; simpl.
  - assert (He : e < length (edgeStore w)).
    { apply Hvalid. apply last_Some in Hlast as [l' ->]. apply elem_of_app. right. by left. }
    destruct (lookup_lt_is_Some_2 _ _ He) as [old Hold].
    mstep. unfold getEdge. mstep. simpl. rewrite Hold. mstep. unfold setEdge. mstep. simpl.
    exists (reuse old), (<[e := reuse old]> (edgeStore w)). split; [by destruct w|].
    split; [by apply list_lookup_insert_eq|]. split; [eauto|].
    split; [by rewrite length_insert|]. intros e' Hne. by rewrite list_lookup_insert_ne.
  - mstep. apply last_None in Hlast. rewrite Hlast. simpl.
    exists fresh, (edgeStore w ++ [fresh]).
    split; [destruct w; simpl in *; by subst|].
    split; [by rewrite lookup_app_r, Nat.sub_diag by lia|]. split; [by left|].
    split; [rewrite length_app; lia|].
    intros e' Hne. destruct (decide (e' < length (edgeStore w))).
    + by rewrite lookup_app_l.
    + rewrite !lookup_ge_None_2; [done|lia|rewrite length_app; simpl; lia].
Qed.

(** Property X11.  [createBorderEdge] takes the last edge of the pool, or a
    new one, makes it the border edge of the site with the two given
    endpoints, and appends it to the diagram's edges; no other edge and no
    cell changes. *)
Theorem createBorderEdge_appends
    (l : sref) (a b : option vref) (w : World) (es : list eref) :
  edges w = Some es -> edgePoolValid w ->
  exists w',
    createBorderEdge l a b w = (w', Ret (nextEdge w))
    /\ edges w' = Some (es ++ [nextEdge w])
    /\ edgeStore w' !! nextEdge w = Some (mkEdge l None a b)
    /\ edgeJunkyard w' = removelast (edgeJunkyard w)
    /\ (forall e', e' <> nextEdge w -> edgeStore w' !! e' = edgeStore w !! e')
    /\ cells w' = cells w /\ onlyEdges w w'.
Proof.
  intros Hes Hvalid. unfold createBorderEdge.
  destruct (takeEdge_run (mkEdge l None None None)
              (fun old => mkEdge l None (va old) (vb old)) w Hvalid)
    as (x & st & Hrun & Hx & Hshape & Hlen & Hother).
  rewrite (bind_Ret _ _ _ _ _ Hrun).
  set (e := nextEdge w) in *.
  assert (He : e < length st) by (by apply lookup_lt_Some in Hx).
  assert (Hsites : lSite x = l /\ rSite x = None).
  { by destruct Hshape as [->|[old ->]]. }
  destruct Hsites as [Hl Hr].
  erewrite bind_Ret by (apply getEdge_Some; simpl; exact Hx).
  unfold setEdge. mstep. simpl.
  erewrite bind_Ret by (apply getEdge_Some; simpl; by apply list_lookup_insert_eq).
  mstep. simpl. unfold pushEdge. mstep. simpl. rewrite Hes. mstep. simpl.
  rewrite list_insert_insert_eq, Hl, Hr.
  eexists. split; [done|]. simpl. split; [done|].
  split; [by apply list_lookup_insert_eq|]. split; [done|]. split.
  - intros e' Hne. rewrite list_lookup_insert_ne by done. by apply Hother.
  - split; [done|]. unfold onlyEdges. by destruct w.
Qed.

Lemma pushHalfedge_run site h w s cs i :
  siteStore w !! site = Some s -> cells w = Some cs -> voronoiId s = Some i ->
  i < length cs ->
  pushHalfedge site h w = (set_cells (Some (alter (addHalfedge h) i cs)) w, Ret tt).
Proof.
  intros Hs Hcs Hi Hlen. unfold pushHalfedge.
  rewrite (bind_Ret _ _ _ _ _ (getSite_Some _ _ _ Hs)). mstep. rewrite Hcs, Hi. mstep.
  destruct (lookup_lt_is_Some_2 cs i Hlen) as [c Hc]. rewrite Hc. mstep.
  unfold modify. do 3 f_equal. apply list_eq. intros k. rewrite list_lookup_alter.
  destruct (decide (k = i)) as [->|Hne].
  - rewrite list_lookup_insert_eq by done. case_decide; [by rewrite Hc|done].
  - rewrite list_lookup_insert_ne by done. case_decide; [congruence|done].
Qed.

Lemma createHalfedge_run `{MathLib} e l r w ls rs :
  siteStore w !! l = Some ls -> siteStore w !! r = Some rs ->
  createHalfedge e l (Some r) w
  = (w, Ret (mkHalfedge l e (atan2 (s_y rs - s_y ls) (s_x rs - s_x ls)))).
Proof.
  intros Hl Hr. unfold createHalfedge.
  rewrite (bind_Ret _ _ _ _ _ (getSite_Some _ _ _ Hr)).
  by rewrite (bind_Ret _ _ _ _ _ (getSite_Some _ _ _ Hl)).
Qed.

Lemma pushBoth_run `{MathLib} e l r w ls rs i j cs :
  siteStore w !! l = Some ls -> siteStore w !! r = Some rs ->
  voronoiId ls = Some i -> voronoiId rs = Some j ->
  cells w = Some cs -> i < length cs -> j < length cs ->
  (let* hl := createHalfedge e l (Some r) in
   do* pushHalfedge l hl in
   let* hr := createHalfedge e r (Some l) in
   do* pushHalfedge r hr in
   ret e) w
  = (set_cells
       (Some (alter (addHalfedge
                       (mkHalfedge r e (atan2 (s_y ls - s_y rs) (s_x ls - s_x rs)))) j
                (alter (addHalfedge
                          (mkHalfedge l e (atan2 (s_y rs - s_y ls) (s_x rs - s_x ls)))) i
                   cs))) w, Ret e).
Proof.
  intros Hl Hr Hi Hj Hcs Hil Hjl.
  rewrite (bind_Ret _ _ _ _ _ (createHalfedge_run e l r w ls rs Hl Hr)).
  rewrite (bind_Ret _ _ _ _ _ (pushHalfedge_run l _ w ls cs i Hl Hcs Hi Hil)).
  set (w1 := set_cells _ w).
  assert (Hl1 : siteStore w1 !! l = Some ls) by exact Hl.
  assert (Hr1 : siteStore w1 !! r = Some rs) by exact Hr.
  rewrite (bind_Ret _ _ _ _ _ (createHalfedge_run e r l w1 rs ls Hr1 Hl1)).
  rewrite (bind_Ret _ _ _ _ _ (pushHalfedge_run r _ w1 rs _ j Hr1 eq_refl Hj
                                 ltac:(by rewrite length_alter))).
  unfold ret. subst w1. by destruct w.
Qed.

(** Property X12.  [createEdge] appends the edge it takes from the pool, or
    allocates, to the diagram's edges, and pushes one halfedge on the cell
    of each of its two sites; the two halfedges run in opposite directions
    between the given endpoints. *)
Theorem createEdge_links `{MathLib}
    (l r : sref) (a b : option vref) (w : World)
    (es : list eref) (cs : list Cell) (ls rs : Site) (i j : nat) :
  edges w = Some es -> cells w = Some cs -> edgePoolValid w ->
  siteStore w !! l = Some ls -> siteStore w !! r = Some rs ->
  voronoiId ls = Some i -> voronoiId rs = Some j ->
  i < length cs -> j < length cs -> l <> r ->
  let e := nextEdge w in
  let hl := mkHalfedge l e (atan2 (s_y rs - s_y ls) (s_x rs - s_x ls)) in
  let hr := mkHalfedge r e (atan2 (s_y ls - s_y rs) (s_x ls - s_x rs)) in
  exists w',
    createEdge l r a b w = (w', Ret e)
    /\ edges w' = Some (es ++ [e])
    /\ cells w' = Some (alter (addHalfedge hr) j (alter (addHalfedge hl) i cs))
    /\ getStartpoint hl w' = (w', Ret a) /\ getEndpoint hl w' = (w', Ret b)
    /\ getStartpoint hr w' = (w', Ret b) /\ getEndpoint hr w' = (w', Ret a)
    /\ edgeJunkyard w' = removelast (edgeJunkyard w)
    /\ (forall e', e' <> e -> edgeStore w' !! e' = edgeStore w !! e')
    /\ onlyEdges w w'.
Proof.
  intros Hes Hcs Hvalid Hls Hrs Hi Hj Hil Hjl Hne e hl hr.
  assert (Hlr : (l =? r) = false) by (by apply Nat.eqb_neq).
  assert (Hrl : (r =? l) = false) by (by apply Nat.eqb_neq).
  unfold createEdge.
  destruct (takeEdge_run (mkEdge l (Some r) None None)
              (fun _ => mkEdge l (Some r) None None) w Hvalid)
    as (x & st & Hrun & Hx & Hshape & Hlen & Hother).
  rewrite (bind_Ret _ _ _ _ _ Hrun). fold e in Hrun, Hx, Hother |- *.
  assert (He : e < length st) by (by apply lookup_lt_Some in Hx).
  assert (Hxeq : x = mkEdge l (Some r) None None) by (by destruct Hshape as [->|[old ->]]).
  subst x.
  unfold pushEdge. mstep. cbn [edges set_edgeStore set_edgeJunkyard]. rewrite Hes. mstep.
  set (w1 := set_edges _ _).
  assert (Hx1 : edgeStore w1 !! e = Some (mkEdge l (Some r) None None)) by exact Hx.
  assert (Hst1 : edgeStore w1 = st) by done.
  assert (Hcs1 : cells w1 = Some cs) by done.
  assert (Hes1 : edges w1 = Some (es ++ [e])) by done.
  assert (Hsi1 : siteStore w1 = siteStore w) by done.
  assert (Hjk1 : edgeJunkyard w1 = removelast (edgeJunkyard w)) by done.
  assert (Hfr1 : onlyEdges w w1) by (unfold onlyEdges; by destruct w).
  clearbody w1.
  (* the two optional endpoints *)
  assert (Hends : exists ed, (forall T (k : M T),
    (do* match a with
         | Some v => setEdgeStartpoint e l r v
         | None => ret tt
         end in
     do* match b with
         | Some v => setEdgeEndpoint e l r v
         | None => ret tt
         end in k) w1
    = k (set_edgeStore (<[e := ed]> (edgeStore w1)) w1))
    /\ (if lSite ed =? l then va ed else vb ed) = a
    /\ (if lSite ed =? l then vb ed else va ed) = b
    /\ (if lSite ed =? r then va ed else vb ed) = b
    /\ (if lSite ed =? r then vb ed else va ed) = a).
  { destruct a as [va0|], b as [vb0|]; unfold setEdgeEndpoint.
    - eexists. split.
      + intros T k.
        rewrite (bind_Ret _ _ _ _ _ (setEdgeStartpoint_run _ _ _ _ _ _ Hx1)). simpl.
        erewrite bind_Ret
          by (apply setEdgeStartpoint_run; simpl; apply list_lookup_insert_eq;
              rewrite Hst1; exact He).
        simpl. rewrite Nat.eqb_refl, list_insert_insert_eq. by destruct w1.
      + simpl. by rewrite Nat.eqb_refl, Hlr.
    - eexists. split.
      + intros T k.
        rewrite (bind_Ret _ _ _ _ _ (setEdgeStartpoint_run _ _ _ _ _ _ Hx1)). simpl.
        by mstep.
      + simpl. by rewrite Nat.eqb_refl, Hlr.
    - eexists. split.
      + intros T k. mstep.
        rewrite (bind_Ret _ _ _ _ _ (setEdgeStartpoint_run _ _ _ _ _ _ Hx1)). done.
      + simpl. by rewrite Nat.eqb_refl, Hrl.
    - exists (mkEdge l (Some r) None None). split.
      + intros T k. mstep. f_equal. rewrite list_insert_id by done. by destruct w1.
      + simpl. by rewrite Nat.eqb_refl, Hlr. }
  destruct Hends as (ed & Hends & Hv1 & Hv2 & Hv3 & Hv4).
  rewrite Hends.
  set (w2 := set_edgeStore _ w1).
  assert (Hed2 : edgeStore w2 !! e = Some ed).
  { simpl. apply list_lookup_insert_eq. by rewrite Hst1. }
  rewrite (pushBoth_run e l r w2 ls rs i j cs); try done;
    try (subst w2; simpl; by rewrite Hsi1).
  fold hl hr.
  set (w3 := set_cells _ w2).
  assert (Hed3 : edgeStore w3 !! e = Some ed) by exact Hed2.
  exists w3. split; [done|]. split; [exact Hes1|]. split; [done|].
  rewrite (getStartpoint_run hl w3 ed Hed3), (getEndpoint_run hl w3 ed Hed3).
  rewrite (getStartpoint_run hr w3 ed Hed3), (getEndpoint_run hr w3 ed Hed3).
  cbn [h_site hl hr]. rewrite Hv1, Hv2, Hv3, Hv4.
  split; [done|]. split; [done|]. split; [done|]. split; [done|].
  split; [exact Hjk1|]. split.
  - intros e' Hne'. subst w3 w2. cbn [edgeStore set_cells set_edgeStore].
    rewrite list_lookup_insert_ne by done. rewrite Hst1. by apply Hother.
  - eapply onlyEdges_trans; [exact Hfr1|]. subst w3 w2. unfold onlyEdges. by destruct w1.
Qed.

Lemma recycle_compute_pools_witness :
  rootless usedWorld
  /\ (forall s, s ∈ [0; 1; 2] -> s < length (siteStore usedWorld))
  /\ exists w1,
       recycle (JsDiagram oldDiagram) usedWorld = (w1, Ret tt)
       /\ let w2 := (compute 1 [0; 1; 2] unitBox w1).1 in
          toRecycle w2 = None
          /\ vertexJunkyard w2 = vertexJunkyard usedWorld ++ d_vertices oldDiagram
          /\ edgeJunkyard w2 = edgeJunkyard usedWorld ++ d_edges oldDiagram
          /\ cellJunkyard w2
             = removelast (cellJunkyard usedWorld ++ d_cells oldDiagram).
Proof.
  assert (H1 : rootless usedWorld) by reflexivity.
  assert (H2 : forall s, s ∈ [0; 1; 2] -> s < length (siteStore usedWorld)).
  { intros s Hs. simpl. apply list_elem_of_In in Hs. simpl in Hs. lia. }
  split; [exact H1|]. split; [exact H2|].
  exact (recycle_compute_pools 0 oldDiagram [0; 1; 2] unitBox usedWorld H1 H2).
Defined.


Lemma connectEdge_false_creates_nothing_witness :
  let w' := set_cells (Some [mkCell 0 [] true; mkCell 1 [] true]) outsideEdgeWorld in
  connectEdge 0 unitBox outsideEdgeWorld = (w', Ret false)
  /\ vertices w' = vertices outsideEdgeWorld
  /\ vertexStore w' = vertexStore outsideEdgeWorld
  /\ vertexJunkyard w' = vertexJunkyard outsideEdgeWorld
  /\ edgeStore w' = edgeStore outsideEdgeWorld
  /\ edges w' = edges outsideEdgeWorld
  /\ siteStore w' = siteStore outsideEdgeWorld.
Proof.
  assert (H1 : connectEdge 0 unitBox outsideEdgeWorld
               = (set_cells (Some [mkCell 0 [] true; mkCell 1 [] true]) outsideEdgeWorld,
                  Ret false)).
  { vm_compute. reflexivity. }
  split; [exact H1|].
  exact (connectEdge_false_creates_nothing 0 unitBox outsideEdgeWorld _ H1).
Defined.

Lemma filterSimilarPoints_sublist_witness :
  filterSimilarPoints examplePolygon 0.001 = Ret [mkPoint 0 0; mkPoint 1 1]
  /\ [mkPoint 0 0; mkPoint 1 1] `sublist_of` examplePolygon.
Proof.
  assert (H1 : filterSimilarPoints examplePolygon 0.001 = Ret [mkPoint 0 0; mkPoint 1 1]).
  { vm_compute. reflexivity. }
  split; [exact H1|].
  exact (filterSimilarPoints_sublist examplePolygon 0.001 _ H1).
Defined.

Lemma addBeachsection_never_inserts_witness :
  siteStore threeArcWorld !! 1 = Some (mkSite 0 0 (Some 1))
  /\ beachline threeArcWorld = Some (mkRBTree None)
  /\ (locateArcs 0 0 0 None threeArcWorld).2 = Ret (None, None)
  /\ (forall b, b ∈ beachsectionJunkyard threeArcWorld ->
        b < length (arcStore threeArcWorld))
  /\ (addBeachsection 0 1 threeArcWorld).2 = Throw TypeError
  /\ beachsectionJunkyard (addBeachsection 0 1 threeArcWorld).1 = []
  /\ arcStore (addBeachsection 0 1 threeArcWorld).1
     = arcStore threeArcWorld ++ [mkBeachsection 1 None None None None None].
Proof.
  assert (H1 : siteStore threeArcWorld !! 1 = Some (mkSite 0 0 (Some 1))) by reflexivity.
  assert (H2 : beachline threeArcWorld = Some (mkRBTree None)) by reflexivity.
  assert (H3 : (locateArcs 0 0 0 None threeArcWorld).2 = Ret (None, None)) by reflexivity.
  assert (H4 : forall b, b ∈ beachsectionJunkyard threeArcWorld ->
                 b < length (arcStore threeArcWorld)).
  { intros b Hb. by apply elem_of_nil in Hb. }
  split; [exact H1|]. split; [exact H2|]. split; [exact H3|]. split; [exact H4|].
  exact (proj2 (proj2 (addBeachsection_never_inserts 0 1 threeArcWorld))
           _ _ _ H1 H2 H3 H4).
Defined.

Lemma clipParams_inUnit_witness :
  clipParams (mkVertex (-0.5) 0.5) (mkVertex 0.5 0.5) unitBox = Some (0.5, 1)%float
  /\ Num.leb 0 0.5 = true /\ Num.leb 0.5 1 = true /\ Num.leb 1 1 = true.
Proof.
  assert (H1 : clipParams (mkVertex (-0.5) 0.5) (mkVertex 0.5 0.5) unitBox
               = Some (0.5, 1)%float).
  { vm_compute. reflexivity. }
  split; [exact H1|].
  exact (clipParams_inUnit _ _ _ _ _ H1).
Defined.

Lemma epsilon_comparisons_witness :
  greaterThanWithEpsilon 1 0 = true /\ lessThanOrEqualWithEpsilon 1 0 = false.
Proof.
  assert (H1 : greaterThanWithEpsilon 1 0 = true) by reflexivity.
  split; [exact H1|].
  exact (proj1 (epsilon_comparisons 1 0) H1).
Defined.


Lemma leftCell_stored : cellStored danglingEdgeWorld leftCell.
Proof.
  split; [by eexists|]. intros h Hh. apply list_elem_of_In in Hh. simpl in Hh.
  destruct Hh as [<-|[]]. exists (mkEdge 0 (Some 1) None None). simpl.
  split; [done|]. split; [lia|]. intros r [= <-]. lia.
Defined.

Lemma getNeighborIds_neighbours_witness :
  cellStored danglingEdgeWorld leftCell
  /\ siteStore danglingEdgeWorld !! c_site leftCell = Some (mkSite 0.25 0.5 (Some 0))
  /\ exists ns,
       getNeighborIds leftCell danglingEdgeWorld = (danglingEdgeWorld, Ret ns)
       /\ length ns <= length (halfedges leftCell)
       /\ (Some 0 ∉ ns)
       /\ forall id, id ∈ ns <->
            exists h, h ∈ halfedges leftCell
              /\ neighborOf danglingEdgeWorld (Some 0) h = Some id.
Proof.
  assert (H2 : siteStore danglingEdgeWorld !! c_site leftCell
               = Some (mkSite 0.25 0.5 (Some 0))) by reflexivity.
  split; [exact leftCell_stored|]. split; [exact H2|].
  exact (getNeighborIds_neighbours leftCell danglingEdgeWorld _ leftCell_stored H2).
Defined.

Lemma setEdge_endpoints_either_order_witness :
  edgeStore danglingEdgeWorld !! 0 = Some (mkEdge 0 (Some 1) None None)
  /\ 0 <> 1
  /\ exists w',
       (do* setEdgeStartpoint 0 0 1 0 in setEdgeEndpoint 0 0 1 1) danglingEdgeWorld
       = (w', Ret tt)
       /\ getStartpoint (mkHalfedge 0 0 0) w' = (w', Ret (Some 0))
       /\ getEndpoint (mkHalfedge 0 0 0) w' = (w', Ret (Some 1))
       /\ getStartpoint (mkHalfedge 1 0 0) w' = (w', Ret (Some 1))
       /\ getEndpoint (mkHalfedge 1 0 0) w' = (w', Ret (Some 0)).
Proof.
  assert (H1 : edgeStore danglingEdgeWorld !! 0 = Some (mkEdge 0 (Some 1) None None))
    by reflexivity.
  assert (H2 : 0 <> 1) by discriminate.
  split; [exact H1|]. split; [exact H2|].
  exact (setEdge_endpoints_either_order 0 0 1 0 1 danglingEdgeWorld _ 0 H1
           eq_refl eq_refl H2 _ (or_introl eq_refl)).
Defined.

Lemma danglingEdgeWorld_edgePool : edgePoolValid danglingEdgeWorld.
Proof. intros e He. by apply elem_of_nil in He. Defined.

Lemma createBorderEdge_appends_witness :
  edges danglingEdgeWorld = Some [0] /\ edgePoolValid danglingEdgeWorld
  /\ exists w',
       createBorderEdge 0 (Some 0) (Some 1) danglingEdgeWorld
       = (w', Ret (nextEdge danglingEdgeWorld))
       /\ edges w' = Some ([0] ++ [nextEdge danglingEdgeWorld])
       /\ edgeStore w' !! nextEdge danglingEdgeWorld
          = Some (mkEdge 0 None (Some 0) (Some 1))
       /\ edgeJunkyard w' = removelast (edgeJunkyard danglingEdgeWorld)
       /\ (forall e', e' <> nextEdge danglingEdgeWorld ->
             edgeStore w' !! e' = edgeStore danglingEdgeWorld !! e')
       /\ cells w' = cells danglingEdgeWorld /\ onlyEdges danglingEdgeWorld w'.
Proof.
  assert (H1 : edges danglingEdgeWorld = Some [0]) by reflexivity.
  split; [exact H1|]. split; [exact danglingEdgeWorld_edgePool|].
  exact (createBorderEdge_appends 0 (Some 0) (Some 1) danglingEdgeWorld [0] H1
           danglingEdgeWorld_edgePool).
Defined.

Lemma createEdge_links_witness :
  edges danglingEdgeWorld = Some [0]
  /\ edgePoolValid danglingEdgeWorld
  /\ 0 <> 1
  /\ exists w',
       createEdge (H := flatAngles) 0 1 (Some 0) None danglingEdgeWorld = (w', Ret 1)
       /\ edges w' = Some [0; 1]
       /\ cells w' = Some [mkCell 0 [mkHalfedge 0 1 0] false;
                           mkCell 1 [mkHalfedge 1 1 0] false]
       /\ getStartpoint (mkHalfedge 0 1 0) w' = (w', Ret (Some 0))
       /\ getEndpoint (mkHalfedge 0 1 0) w' = (w', Ret None)
       /\ getStartpoint (mkHalfedge 1 1 0) w' = (w', Ret None)
       /\ getEndpoint (mkHalfedge 1 1 0) w' = (w', Ret (Some 0))
       /\ edgeJunkyard w' = removelast (edgeJunkyard danglingEdgeWorld)
       /\ (forall e', e' <> 1 -> edgeStore w' !! e' = edgeStore danglingEdgeWorld !! e')
       /\ onlyEdges danglingEdgeWorld w'.
Proof.
  assert (H1 : edges danglingEdgeWorld = Some [0]) by reflexivity.
  assert (H2 : 0 <> 1) by discriminate.
  split; [exact H1|]. split; [exact danglingEdgeWorld_edgePool|]. split; [exact H2|].
  exact (createEdge_links (H := flatAngles) 0 1 (Some 0) None danglingEdgeWorld
           [0] [mkCell 0 [] false; mkCell 1 [] false]
           (mkSite 0.25 0.5 (Some 0)) (mkSite 0.75 0.5 (Some 1)) 0 1
           H1 eq_refl danglingEdgeWorld_edgePool eq_refl eq_refl eq_refl eq_refl
           ltac:(simpl; lia) ltac:(simpl; lia) H2).
Defined.

(** * The red-black tree: properties *)

Import RB RBSpec RBExamples.
Local Open Scope rb_scope.

Lemma rb_bind_Ret {A B} (m : H A) (k : A -> H B) h h' a :
  m h = (h', Ret a) -> bind m k h = k a h'.
Proof. unfold bind. by intros ->. Qed.

Lemma rb_bind_get {A B} (f : Heap -> A) (k : A -> H B) h :
  bind (get f) k h = k (f h) h.
Proof. done. Qed.

Lemma rb_bind_modify {B} (f : Heap -> Heap) (k : unit -> H B) h :
  bind (modify f) k h = k tt (f h).
Proof. done. Qed.

Lemma rb_bind_ret {A B} (a : A) (k : A -> H B) h : bind (ret a) k h = k a h.
Proof. done. Qed.

Lemma rb_bind_bind {A B C} (m : H A) (k : A -> H B) (g : B -> H C) h :
  bind (bind m k) g h = bind m (fun a => bind (k a) g) h.
Proof. unfold bind. destruct (m h) as [h' [a|e|]]; done. Qed.

Lemma getNode_Some n x h : nodes h !! n = Some x -> getNode n h = (h, Ret x).
Proof. unfold getNode. rewrite rb_bind_get. by intros ->. Qed.

Lemma update_Some n f x h :
  nodes h !! n = Some x ->
  update n f h = (mkHeap (<[n := f x]> (nodes h)) (beachline h), Ret tt).
Proof. intros Hx. unfold update. by rewrite (rb_bind_Ret _ _ _ _ _ (getNode_Some _ _ _ Hx)). Qed.

Lemma rb_bind_update {B} n f (k : unit -> H B) h x :
  nodes h !! n = Some x ->
  bind (update n f) k h = k tt (mkHeap (<[n := f x]> (nodes h)) (beachline h)).
Proof. intros Hx. by rewrite (rb_bind_Ret _ _ _ _ _ (update_Some _ f _ _ Hx)). Qed.

Lemma rb_bind_getNode {B} n (k : Node -> H B) h x :
  nodes h !! n = Some x -> bind (getNode n) k h = k x h.
Proof. intros Hx. by rewrite (rb_bind_Ret _ _ _ _ _ (getNode_Some _ _ _ Hx)). Qed.

Ltac rstep :=
  repeat first [rewrite rb_bind_bind | rewrite rb_bind_get | rewrite rb_bind_modify
               | rewrite rb_bind_ret];
  cbn beta iota.

(** Property X13.  [rbInsertSuccessor] with no predecessor: into an empty
    tree the node becomes the black root, without links; with a root in the
    tree, or before the first [reset], the call raises a TypeError and
    changes nothing ([this.beachline.getFirst] is not a function). *)
Theorem rbInsertSuccessor_first (fuel : nat) (successor : nat) (h : Heap) (x : Node) :
  nodes h !! successor = Some x ->
  rbInsertSuccessor fuel None successor h
  = match beachline h with
    | Some (mkRBTree None) =>
        (mkHeap (<[successor := mkNode None None None None None false]> (nodes h))
           (Some (mkRBTree (Some successor))), Ret tt)
    | _ => (h, Throw TypeError)
    end.
Proof.
  intros Hx. unfold rbInsertSuccessor, getRoot. rstep.
  destruct (beachline h) as [[[r|]]|] eqn:Hb; [done| |done].
  unfold deref. rstep.
  assert (Hs : successor < length (nodes h)) by (by apply lookup_lt_Some in Hx).
  unfold setNext, setPrevious, setRight, setLeft, setParent, setRed, setRoot.
  cbn [root]. rstep.
  rewrite (rb_bind_update _ _ _ _ _ Hx). rstep. cbn [nodes beachline].
  erewrite rb_bind_update by (cbn [nodes]; by apply list_lookup_insert_eq).
  rstep. cbn [nodes beachline rbParent rbLeft rbRight rbPrevious rbNext rbRed].
  rewrite Hb. unfold deref. rstep. cbn [nodes beachline].
  repeat (erewrite rb_bind_update
            by (cbn [nodes]; apply list_lookup_insert_eq; by rewrite ?length_insert);
          rstep;
          cbn [nodes beachline rbParent rbLeft rbRight rbPrevious rbNext rbRed]).
  unfold rebalance. destruct fuel; rstep; cbn [beachline root]; unfold deref; rstep;
    cbn [beachline root]; rstep;
    (erewrite update_Some
      by (cbn [nodes]; apply list_lookup_insert_eq; by rewrite ?length_insert));
    cbn [nodes beachline rbParent rbLeft rbRight rbPrevious rbNext rbRed];
    by rewrite !list_insert_insert_eq.
Qed.

Lemma sameList_refl h : sameList h h.
Proof. by split. Qed.

Lemma sameList_trans h1 h2 h3 : sameList h1 h2 -> sameList h2 h3 -> sameList h1 h3.
Proof.
  intros [Hl1 H1] [Hl2 H2]. split; [congruence|].
  intros k. destruct (H1 k), (H2 k). split; congruence.
Qed.

Section keeps.
Context (P : Heap -> Heap -> Prop) (Prefl : forall h, P h h)
  (Ptrans : forall h1 h2 h3, P h1 h2 -> P h2 h3 -> P h1 h3).

Lemma keeps_ret {A} (a : A) : keeps P (ret a).
Proof using Prefl. intros h h' o [= <- _]. apply Prefl. Qed.

Lemma keeps_throw {A} e : keeps P (@throw A e).
Proof using Prefl. intros h h' o [= <- _]. apply Prefl. Qed.

Lemma keeps_outOfFuel {A} : keeps P (@outOfFuel A).
Proof using Prefl. intros h h' o [= <- _]. apply Prefl. Qed.

Lemma keeps_get {A} (f : Heap -> A) : keeps P (get f).
Proof using Prefl. intros h h' o [= <- _]. apply Prefl. Qed.

Lemma keeps_deref {A} (x : option A) : keeps P (deref x).
Proof using Prefl. destruct x; [apply keeps_ret|apply keeps_throw]. Qed.

Lemma keeps_bind {A B} (m : H A) (k : A -> H B) :
  keeps P m -> (forall a, keeps P (k a)) -> keeps P (bind m k).
Proof using Ptrans.
  intros Hm Hk h h' o. unfold bind. destruct (m h) as [h1 [a|e|]] eqn:E.
  - intros Hka. eapply Ptrans; [by eapply Hm|by eapply Hk].
  - intros [= <- _]. by eapply Hm.
  - intros [= <- _]. by eapply Hm.
Qed.

Lemma keeps_getNode n : keeps P (getNode n).
Proof using Prefl Ptrans. apply keeps_bind; [apply keeps_get|intros; apply keeps_deref]. Qed.

Lemma keeps_getRoot : keeps P getRoot.
Proof using Prefl Ptrans.
  apply keeps_bind; [apply keeps_get|intros].
  apply keeps_bind; [apply keeps_deref|intros; apply keeps_ret].
Qed.

Lemma keeps_isRed x : keeps P (isRed x).
Proof using Prefl Ptrans.
  destruct x; [|apply keeps_ret].
  apply keeps_bind; [apply keeps_getNode|intros; apply keeps_ret].
Qed.

Lemma keeps_getFirst fuel n : keeps P (getFirst fuel n).
Proof using Prefl Ptrans.
  revert n. induction fuel as [|fuel IH]; intros n; [apply keeps_outOfFuel|].
  apply keeps_bind; [apply keeps_getNode|intros nd].
  destruct (rbLeft nd); [apply IH|apply keeps_ret].
Qed.

Lemma keeps_getLast fuel n : keeps P (getLast fuel n).
Proof using Prefl Ptrans.
  revert n. induction fuel as [|fuel IH]; intros n; [apply keeps_outOfFuel|].
  apply keeps_bind; [apply keeps_getNode|intros nd].
  destruct (rbRight nd); [apply IH|apply keeps_ret].
Qed.
End keeps.

Lemma sameList_update n f :
  (forall x, rbPrevious (f x) = rbPrevious x /\ rbNext (f x) = rbNext x) ->
  keeps sameList (update n f).
Proof.
  intros Hf h h' o. unfold update, getNode. rstep.
  destruct (nodes h !! n) as [x|] eqn:Hx; cbn; [|intros [= <- _]; apply sameList_refl].
  intros [= <- _]. split; cbn; [by rewrite length_insert|].
  intros k. destruct (decide (k = n)) as [->|Hk].
  - rewrite list_lookup_insert_eq by (by eapply lookup_lt_Some). rewrite Hx. cbn.
    destruct (Hf x) as [-> ->]. done.
  - by rewrite list_lookup_insert_ne.
Qed.

Lemma sameList_setRoot r : keeps sameList (setRoot r).
Proof.
  intros h h' o. unfold setRoot. rstep. destruct (beachline h); cbn.
  - intros [= <- _]. by split.
  - intros [= <- _]. apply sameList_refl.
Qed.

Ltac listkeep :=
  repeat first
    [ apply sameList_setRoot
    | apply sameList_update; by intros []
    | apply (keeps_ret _ sameList_refl)
    | apply (keeps_throw _ sameList_refl)
    | apply (keeps_outOfFuel _ sameList_refl)
    | apply (keeps_get _ sameList_refl)
    | apply (keeps_deref _ sameList_refl)
    | apply (keeps_getNode _ sameList_refl sameList_trans)
    | apply (keeps_getRoot _ sameList_refl sameList_trans)
    | apply (keeps_isRed _ sameList_refl sameList_trans)
    | apply (keeps_getFirst _ sameList_refl sameList_trans)
    | apply (keeps_getLast _ sameList_refl sameList_trans)
    | apply (keeps_bind _ sameList_trans); [|intros ?]
    | match goal with
      | |- keeps _ (match ?x with _ => _ end) => destruct x
      end ].

Lemma sameList_replaceChild parent p q : keeps sameList (replaceChild parent p q).
Proof. unfold replaceChild, setLeft, setRight. listkeep. Qed.

Lemma sameList_rbRotateLeft n : keeps sameList (rbRotateLeft n).
Proof.
  unfold rbRotateLeft, setParent, setLeft, setRight.
  listkeep; try apply sameList_replaceChild; listkeep.
Qed.

Lemma sameList_rbRotateRight n : keeps sameList (rbRotateRight n).
Proof.
  unfold rbRotateRight, setParent, setLeft, setRight.
  listkeep; try apply sameList_replaceChild; listkeep.
Qed.

Lemma sameList_rebalance fuel node parent : keeps sameList (rebalance fuel node parent).
Proof.
  revert node parent. induction fuel as [|fuel IH]; intros node [p|]; cbn [rebalance];
    unfold setRed; listkeep;
    try apply sameList_rbRotateLeft; try apply sameList_rbRotateRight; listkeep;
    try apply IH; apply sameList_replaceChild.
Qed.

Ltac rlook :=
  cbn [nodes];
  repeat first
    [ eassumption
    | rewrite list_lookup_insert_ne by congruence
    | rewrite list_lookup_insert_eq by (rewrite ?length_insert; first [lia | by eapply lookup_lt_Some]); reflexivity ].

(** Property X14.  [rbInsertSuccessor] after a node splices the successor
    into the doubly linked list right behind that node, whatever the
    outcome of the rebalancing that follows: no other [rbPrevious] or
    [rbNext] changes. *)
Theorem rbInsertSuccessor_splices (fuel node successor : nat) (h h' : Heap)
    (o : outcome unit) (pn sn : Node) :
  nodes h !! node = Some pn -> nodes h !! successor = Some sn ->
  successor <> node -> rbNext pn <> Some successor ->
  (forall nx, rbNext pn = Some nx -> nx < length (nodes h)) ->
  rbInsertSuccessor fuel (Some node) successor h = (h', o) ->
  length (nodes h') = length (nodes h)
  /\ forall k x, nodes h !! k = Some x ->
       exists x', nodes h' !! k = Some x'
         /\ rbNext x' = (if decide (k = successor) then rbNext pn
                         else if decide (k = node) then Some successor
                         else rbNext x)
         /\ rbPrevious x' = (if decide (k = successor) then Some node
                             else if decide (rbNext pn = Some k) then Some successor
                             else rbPrevious x).
Proof.
  intros Hp Hs Hne Hnx Hin. unfold rbInsertSuccessor, setPrevious, setNext. rstep.
  erewrite rb_bind_update by rlook. rstep.
  erewrite rb_bind_getNode by rlook. rstep.
  erewrite rb_bind_update by rlook. rstep.
  erewrite rb_bind_getNode by rlook. rstep.
  cbn [nodes beachline rbParent rbLeft rbRight rbPrevious rbNext rbRed].
  rewrite list_insert_insert_eq.
  assert (Hend : forall h1 (m : H unit),
    keeps sameList m -> length (nodes h1) = length (nodes h) ->
    (forall k x, nodes h !! k = Some x ->
       exists x1, nodes h1 !! k = Some x1
         /\ rbNext x1 = (if decide (k = successor) then rbNext pn
                         else if decide (k = node) then Some successor
                         else rbNext x)
         /\ rbPrevious x1 = (if decide (k = successor) then Some node
                             else if decide (rbNext pn = Some k) then Some successor
                             else rbPrevious x)) ->
    m h1 = (h', o) ->
    length (nodes h') = length (nodes h)
    /\ forall k x, nodes h !! k = Some x ->
       exists x', nodes h' !! k = Some x'
         /\ rbNext x' = (if decide (k = successor) then rbNext pn
                         else if decide (k = node) then Some successor
                         else rbNext x)
         /\ rbPrevious x' = (if decide (k = successor) then Some node
                             else if decide (rbNext pn = Some k) then Some successor
                             else rbPrevious x)).
  { intros h1 m Hm Hlen H1 Hrun. apply Hm in Hrun as [Hl Hlinks].
    split; [congruence|]. intros k x Hk.
    destruct (H1 k x Hk) as (x1 & Hx1 & Hn1 & Hp1).
    destruct (Hlinks k) as [Hpk Hnk]. rewrite Hx1 in Hpk, Hnk.
    destruct (nodes h' !! k) as [x'|]; [|done]. exists x'.
    cbn in Hpk, Hnk. split; [done|]. split; congruence. }
  assert (Hsl : successor < length (nodes h)) by (by eapply lookup_lt_Some).
  assert (Hnl : node < length (nodes h)) by (by eapply lookup_lt_Some).
  destruct (rbNext pn) as [nx|] eqn:Hnext.
  - assert (Hxs : nx <> successor) by congruence.
    specialize (Hin nx eq_refl).
    destruct (lookup_lt_is_Some_2 _ _ Hin) as [xn Hxn].
    erewrite rb_bind_update by rlook. rstep.
    cbn [nodes beachline rbParent rbLeft rbRight rbPrevious rbNext rbRed].
    destruct (decide (nx = node)) as [->|Hxp].
    + erewrite rb_bind_update by rlook. rstep.
      cbn [nodes beachline rbParent rbLeft rbRight rbPrevious rbNext rbRed].
      match goal with |- ?m ?h1 = _ -> _ => apply (Hend h1 m) end.
      * unfold setRight, setLeft, setParent, setRed. listkeep; apply sameList_rebalance.
      * cbn. by rewrite !length_insert.
      * intros k x Hk. cbn [nodes]. rewrite list_insert_insert_eq.
        destruct (decide (k = successor)) as [->|Hks].
        { rewrite list_lookup_insert_ne by done.
          rewrite list_lookup_insert_eq by done. by eexists. }
        destruct (decide (k = node)) as [->|Hkn].
        { rewrite list_lookup_insert_eq by (by rewrite length_insert).
          rewrite decide_True by done. by eexists. }
        rewrite !list_lookup_insert_ne by done. rewrite decide_False by congruence.
        by eexists.
    + erewrite rb_bind_update by rlook. rstep.
      cbn [nodes beachline rbParent rbLeft rbRight rbPrevious rbNext rbRed].
      match goal with |- ?m ?h1 = _ -> _ => apply (Hend h1 m) end.
      * unfold setRight, setLeft, setParent, setRed. listkeep; apply sameList_rebalance.
      * cbn. by rewrite !length_insert.
      * intros k x Hk. cbn [nodes].
        destruct (decide (k = successor)) as [->|Hks].
        { rewrite !list_lookup_insert_ne by done.
          rewrite list_lookup_insert_eq by done. by eexists. }
        destruct (decide (k = node)) as [->|Hkn].
        { rewrite list_lookup_insert_eq by (by rewrite !length_insert).
          rewrite decide_False by congruence. eexists. split; [done|]. cbn.
          split; [done|]. congruence. }
        destruct (decide (k = nx)) as [->|Hkx].
        { rewrite list_lookup_insert_ne by done.
          rewrite list_lookup_insert_eq by (by rewrite !length_insert).
          rewrite decide_True by done. assert (x = xn) as -> by congruence.
          by eexists. }
        rewrite !list_lookup_insert_ne by done. rewrite decide_False by congruence.
        by eexists.
  - rstep. erewrite rb_bind_update by rlook. rstep.
    cbn [nodes beachline rbParent rbLeft rbRight rbPrevious rbNext rbRed].
    match goal with |- ?m ?h1 = _ -> _ => apply (Hend h1 m) end.
    + unfold setRight, setLeft, setParent, setRed. listkeep; apply sameList_rebalance.
    + cbn. by rewrite !length_insert.
    + intros k x Hk. cbn [nodes].
      destruct (decide (k = successor)) as [->|Hks].
      { rewrite !list_lookup_insert_ne by done.
        rewrite list_lookup_insert_eq by done. by eexists. }
      destruct (decide (k = node)) as [->|Hkn].
      { rewrite list_lookup_insert_eq by (by rewrite !length_insert).
        rewrite decide_False by congruence. eexists. split; [done|]. cbn.
        split; [done|]. congruence. }
      rewrite !list_lookup_insert_ne by done. rewrite decide_False by congruence.
      by eexists.
Qed.

Lemma shape_frame h h' x t :
  shape h x t ->
  (forall n nd, n ∈ inorder t -> nodes h !! n = Some nd ->
     exists nd', nodes h' !! n = Some nd' /\ rbLeft nd' = rbLeft nd /\ rbRight nd' = rbRight nd) ->
  shape h' x t.
Proof.
  induction 1 as [|n nd l r Hn Hl IHl Hr IHr]; intros Hf; [constructor|].
  destruct (Hf n nd) as (nd' & Hn' & Hl' & Hr'); [cbn; set_solver|done|].
  econstructor; [done| |].
  - rewrite Hl'. apply IHl. intros k kd Hk. apply Hf. cbn. set_solver.
  - rewrite Hr'. apply IHr. intros k kd Hk. apply Hf. cbn. set_solver.
Qed.

Lemma shape_functional h x t1 t2 : shape h x t1 -> shape h x t2 -> t1 = t2.
Proof.
  intros H1. revert t2. induction H1 as [|n nd l r Hn Hl IHl Hr IHr]; intros t2 H2.
  - by inversion H2.
  - inversion H2 as [|n' nd' l' r' Hn' Hl' Hr']; subst.
    assert (nd' = nd) as -> by congruence. f_equal; auto.
Qed.

(** Property X15.  On a subtree of height at most the fuel, [getFirst]
    returns the first node in order and [getLast] the last, and neither
    writes. *)
Theorem getFirst_getLast_ends (fuel n : nat) (h : Heap) (t : tree) :
  shape h (Some n) t -> height t <= fuel ->
  exists a b front back,
    getFirst fuel n h = (h, Ret a) /\ getLast fuel n h = (h, Ret b)
    /\ inorder t = a :: back /\ inorder t = front ++ [b].
Proof.
  intros Hs Hf.
  assert (H2 : exists b front, getLast fuel n h = (h, Ret b) /\ inorder t = front ++ [b]).
  { revert n t Hs Hf. induction fuel as [|fuel IH]; intros n t Hs Hf.
    - inversion Hs; subst; cbn in Hf; lia.
    - inversion Hs as [|n' nd l r Hn Hl Hr]; subst. cbn in Hf.
      cbn [getLast]. rewrite (rb_bind_getNode _ _ _ _ Hn).
      destruct (rbRight nd) as [x|] eqn:Hx.
      + destruct (IH x r Hr) as (b & front & -> & Hio); [lia|].
        exists b, (inorder l ++ n :: front). split; [done|]. cbn.
        rewrite Hio. by rewrite <- app_assoc.
      + inversion Hr; subst. by exists n, (inorder l). }
  assert (H1 : exists a back, getFirst fuel n h = (h, Ret a) /\ inorder t = a :: back).
  { clear H2. revert n t Hs Hf. induction fuel as [|fuel IH]; intros n t Hs Hf.
    - inversion Hs; subst; cbn in Hf; lia.
    - inversion Hs as [|n' nd l r Hn Hl Hr]; subst. cbn in Hf.
      cbn [getFirst]. rewrite (rb_bind_getNode _ _ _ _ Hn).
      destruct (rbLeft nd) as [x|] eqn:Hx.
      + destruct (IH x l Hl) as (a & back & -> & Hio); [lia|].
        exists a, (back ++ n :: inorder r). split; [done|]. cbn. by rewrite Hio.
      + inversion Hl; subst. by exists n, (inorder r). }
  destruct H1 as (a & back & ? & ?), H2 as (b & front & ? & ?).
  by exists a, b, front, back.
Qed.

Lemma shape_stored h x t n : shape h x t -> n ∈ inorder t -> is_Some (nodes h !! n).
Proof.
  induction 1 as [|k nd l r Hn Hl IHl Hr IHr]; cbn; [set_solver|].
  rewrite elem_of_app, elem_of_cons. intros [?|[->|?]]; eauto.
Qed.

Lemma shape_root h x t : shape h x t -> x = match t with Leaf => None | Tr _ n _ => Some n end.
Proof. by destruct 1. Qed.

Ltac rcbn := cbn [nodes beachline rbParent rbLeft rbRight rbPrevious rbNext rbRed].

Lemma replaceChild_run parent p v h :
  match parent with
  | Some pa => pa < length (nodes h)
  | None => is_Some (beachline h)
  end ->
  exists h0, replaceChild parent p v h = (h0, Ret tt)
    /\ length (nodes h0) = length (nodes h)
    /\ (forall n, Some n <> parent -> nodes h0 !! n = nodes h !! n)
    /\ match parent with
       | Some pa =>
           beachline h0 = beachline h
           /\ forall pan, nodes h !! pa = Some pan ->
                nodes h0 !! pa
                = Some (if decide (rbLeft pan = Some p)
                        then mkNode (rbParent pan) v (rbRight pan)
                               (rbPrevious pan) (rbNext pan) (rbRed pan)
                        else mkNode (rbParent pan) (rbLeft pan) v
                               (rbPrevious pan) (rbNext pan) (rbRed pan))
       | None => beachline h0 = Some (mkRBTree v)
       end.
Proof.
  destruct parent as [pa|]; cbn [replaceChild].
  - intros Hpa. destruct (lookup_lt_is_Some_2 _ _ Hpa) as [pan Hpan].
    rewrite (rb_bind_getNode _ _ _ _ Hpan). unfold setLeft, setRight.
    destruct (decide (rbLeft pan = Some p)) as [Hl|Hl];
      rewrite (update_Some _ _ _ _ Hpan); eexists; (split; [done|]); rcbn;
      (split; [by rewrite length_insert|]);
      (split; [intros n Hn; rewrite list_lookup_insert_ne by congruence; done|]);
      (split; [done|]); intros pan' Hpan'; assert (pan' = pan) as -> by congruence;
      rewrite list_lookup_insert_eq by done.
    + by rewrite decide_True.
    + by rewrite decide_False.
  - intros [t Ht]. unfold setRoot. rstep. rewrite Ht. cbn. by eexists.
Qed.

(** Property X16.  [rbRotateLeft] at [p] with right child [q] turns the
    subtree [a p (b q c)] into [(a p b) q c], so the order of the nodes
    stays; the link that led to [p] (the parent's, or the root) now leads
    to [q], the parent links of [q], [p] and the root of [b] follow, and no
    other node changes. *)
Theorem rbRotateLeft_reshapes (p q : nat) (h : Heap) (a b c : tree) (pn qn : Node) :
  shape h (Some p) (Tr a p (Tr b q c)) ->
  NoDup (inorder (Tr a p (Tr b q c))) ->
  nodes h !! p = Some pn -> nodes h !! q = Some qn ->
  match rbParent pn with
  | Some pa => (pa ∉ inorder (Tr a p (Tr b q c))) /\ pa < length (nodes h)
  | None => is_Some (beachline h)
  end ->
  exists h', rbRotateLeft p h = (h', Ret tt)
    /\ shape h' (Some q) (Tr (Tr a p b) q c)
    /\ nodes h' !! q = Some (mkNode (rbParent pn) (Some p) (rbRight qn)
                               (rbPrevious qn) (rbNext qn) (rbRed qn))
    /\ nodes h' !! p = Some (mkNode (Some q) (rbLeft pn) (rbLeft qn)
                               (rbPrevious pn) (rbNext pn) (rbRed pn))
    /\ (forall x xn, rbLeft qn = Some x -> nodes h !! x = Some xn ->
          nodes h' !! x = Some (mkNode (Some p) (rbLeft xn) (rbRight xn)
                                  (rbPrevious xn) (rbNext xn) (rbRed xn)))
    /\ match rbParent pn with
       | Some pa =>
           beachline h' = beachline h
           /\ forall pan, nodes h !! pa = Some pan ->
                nodes h' !! pa
                = Some (if decide (rbLeft pan = Some p)
                        then mkNode (rbParent pan) (Some q) (rbRight pan)
                               (rbPrevious pan) (rbNext pan) (rbRed pan)
                        else mkNode (rbParent pan) (rbLeft pan) (Some q)
                               (rbPrevious pan) (rbNext pan) (rbRed pan))
       | None => beachline h' = Some (mkRBTree (Some q))
       end
    /\ (forall n, n <> p -> n <> q -> Some n <> rbParent pn -> Some n <> rbLeft qn ->
          nodes h' !! n = nodes h !! n).
Proof.
  intros Hs Hnd Hp Hqn Hpa.
  inversion Hs as [|? pn' ? ? Hp' Ha Hq]; subst.
  assert (pn' = pn) as -> by congruence. clear Hp'.
  inversion Hq as [|? qn' ? ? Hqn' Hb Hc Hqr]; subst.
  assert (qn' = qn) as -> by congruence. clear Hqn'.
  cbn in Hnd. apply NoDup_app in Hnd as (Hnda & Hap & Hnd).
  apply NoDup_cons in Hnd as (Hpbc & Hnd).
  apply NoDup_app in Hnd as (Hndb & Hbc & Hnd).
  apply NoDup_cons in Hnd as (Hqc & Hndc).
  assert (Hpq : p <> q).
  { intros ->. apply Hpbc. rewrite elem_of_app, elem_of_cons. auto. }
  unfold rbRotateLeft. rewrite (rb_bind_getNode _ _ _ _ Hp). rstep.
  destruct (replaceChild_run (rbParent pn) p (rbRight pn) h) as (h0 & Hrun & Hl0 & Hsame & Hlink).
  { destruct (rbParent pn); tauto. }
  rewrite (rb_bind_Ret _ _ _ _ _ Hrun). clear Hrun.
  rewrite <- Hqr in *. cbn [deref]. rstep.
  assert (Hpp : Some p <> rbParent pn).
  { intros E. rewrite <- E in Hpa. destruct Hpa as [Hpa _]. apply Hpa. cbn.
    rewrite elem_of_app, elem_of_cons. auto. }
  assert (Hqp : Some q <> rbParent pn).
  { intros E. rewrite <- E in Hpa. destruct Hpa as [Hpa _]. apply Hpa. cbn.
    rewrite elem_of_app, elem_of_cons, elem_of_app, elem_of_cons. auto. }
  assert (Hp0 : nodes h0 !! p = Some pn) by (by rewrite Hsame).
  assert (Hq0 : nodes h0 !! q = Some qn) by (by rewrite Hsame).
  assert (Hpl : p < length (nodes h0)) by (by eapply lookup_lt_Some).
  assert (Hql : q < length (nodes h0)) by (by eapply lookup_lt_Some).
  unfold setParent, setRight, setLeft.
  erewrite rb_bind_update by rlook. rstep. rcbn.
  erewrite rb_bind_update by rlook. rstep. rcbn.
  erewrite rb_bind_getNode by rlook. rstep. rcbn.
  erewrite rb_bind_update by rlook. rstep. rcbn.
  erewrite rb_bind_getNode by rlook. rstep. rcbn.
  rewrite list_insert_insert_eq.
  assert (Hout : forall t y, shape h y t ->
            (forall n, n ∈ inorder t -> n <> p /\ n <> q /\ Some n <> rbParent pn) ->
            forall h', (forall n nd, n <> p -> n <> q -> Some n <> rbParent pn ->
                          nodes h !! n = Some nd ->
                          exists nd', nodes h' !! n = Some nd'
                            /\ rbLeft nd' = rbLeft nd /\ rbRight nd' = rbRight nd) ->
            shape h' y t).
  { intros t y Hy Hn h' Hh'. eapply shape_frame; [done|].
    intros n nd Hin. destruct (Hn n Hin) as (? & ? & ?). by apply Hh'. }
  assert (Hpin : forall n, n ∈ inorder a ++ p :: inorder b ++ q :: inorder c ->
                     Some n <> rbParent pn).
  { intros n Hn E. rewrite <- E in Hpa. by destruct Hpa as [Hpa _]. }
  assert (Hina : forall n, n ∈ inorder a -> n <> p /\ n <> q /\ Some n <> rbParent pn).
  { intros n Hn. specialize (Hap n Hn).
    rewrite elem_of_cons, elem_of_app, elem_of_cons in Hap.
    repeat split; [intros ->; tauto..|]. apply Hpin. rewrite elem_of_app. by left. }
  assert (Hinb : forall n, n ∈ inorder b -> n <> p /\ n <> q /\ Some n <> rbParent pn).
  { intros n Hn. specialize (Hbc n Hn).
    rewrite elem_of_app, elem_of_cons in Hpbc. rewrite elem_of_cons in Hbc.
    repeat split; [intros ->; tauto..|]. apply Hpin.
    rewrite elem_of_app, elem_of_cons, elem_of_app. auto. }
  assert (Hinc : forall n, n ∈ inorder c -> n <> p /\ n <> q /\ Some n <> rbParent pn).
  { intros n Hn.
    rewrite elem_of_app, elem_of_cons in Hpbc.
    repeat split; [intros ->; tauto..|]. apply Hpin.
    rewrite elem_of_app, elem_of_cons, elem_of_app, elem_of_cons. auto. }
  destruct (rbLeft qn) as [x|] eqn:Hx.
  - assert (Hxb : x ∈ inorder b).
    { apply shape_root in Hb. destruct b; [done|]. injection Hb as ->. cbn.
      rewrite elem_of_app, elem_of_cons. auto. }
    destruct (Hinb x Hxb) as (Hxp & Hxq & Hxpa).
    destruct (shape_stored _ _ _ _ Hb Hxb) as [xn Hxn].
    assert (Hx0 : nodes h0 !! x = Some xn) by (by rewrite Hsame).
    erewrite rb_bind_update by rlook. rstep. rcbn.
    erewrite update_Some by rlook. rcbn.
    eexists. split; [done|]. rcbn.
    assert (Hother : forall n nd, n <> p -> n <> q -> Some n <> rbParent pn ->
              nodes h !! n = Some nd ->
              exists nd',
                <[q:=mkNode (rbParent pn) (Some p) (rbRight qn) (rbPrevious qn)
                      (rbNext qn) (rbRed qn)]>
                  (<[x:=mkNode (Some p) (rbLeft xn) (rbRight xn) (rbPrevious xn)
                        (rbNext xn) (rbRed xn)]>
                     (<[p:=mkNode (Some q) (rbLeft pn) (Some x) (rbPrevious pn)
                           (rbNext pn) (rbRed pn)]>
                        (<[q:=mkNode (rbParent pn) (Some x) (rbRight qn) (rbPrevious qn)
                              (rbNext qn) (rbRed qn)]> (nodes h0)))) !! n = Some nd'
                /\ rbLeft nd' = rbLeft nd /\ rbRight nd' = rbRight nd).
    { intros n nd Hn1 Hn2 Hn3 Hnd.
      rewrite list_lookup_insert_ne by done.
      destruct (decide (n = x)) as [->|Hnx].
      - rewrite list_lookup_insert_eq by (by rewrite !length_insert; eapply lookup_lt_Some).
        assert (nd = xn) as -> by congruence. by eexists.
      - rewrite !list_lookup_insert_ne by done. rewrite Hsame by done. by eexists. }
    split; [|split; [|split; [|split; [|split]]]].
    + econstructor; rcbn.
      * apply list_lookup_insert_eq. by rewrite !length_insert.
      * rcbn. econstructor.
        -- rcbn. rewrite !list_lookup_insert_ne by done.
           apply list_lookup_insert_eq. by rewrite !length_insert.
        -- rcbn. eapply Hout; [exact Ha|exact Hina|]. exact Hother.
        -- rcbn. eapply Hout; [exact Hb|exact Hinb|]. exact Hother.
      * rcbn. eapply Hout; [exact Hc|exact Hinc|]. exact Hother.
    + apply list_lookup_insert_eq. by rewrite !length_insert.
    + rewrite !list_lookup_insert_ne by done.
      apply list_lookup_insert_eq. by rewrite !length_insert.
    + intros x' xn' [= <-] Hxn'. assert (xn' = xn) as -> by congruence.
      rewrite list_lookup_insert_ne by done.
      apply list_lookup_insert_eq. rewrite !length_insert. by eapply lookup_lt_Some.
    + destruct (rbParent pn) as [pa|]; [|done]. destruct Hlink as [Hbl Hlink].
      split; [done|]. intros pan Hpan.
      rewrite !list_lookup_insert_ne by congruence. by apply Hlink.
    + intros n Hn1 Hn2 Hn3 Hn4.
      rewrite !list_lookup_insert_ne by congruence. by apply Hsame.
  - rstep. erewrite update_Some by rlook. rcbn.
    eexists. split; [done|]. rcbn.
    assert (Hother : forall n nd, n <> p -> n <> q -> Some n <> rbParent pn ->
              nodes h !! n = Some nd ->
              exists nd',
                <[q:=mkNode (rbParent pn) (Some p) (rbRight qn) (rbPrevious qn)
                      (rbNext qn) (rbRed qn)]>
                     (<[p:=mkNode (Some q) (rbLeft pn) None (rbPrevious pn)
                           (rbNext pn) (rbRed pn)]>
                        (<[q:=mkNode (rbParent pn) None (rbRight qn) (rbPrevious qn)
                              (rbNext qn) (rbRed qn)]> (nodes h0))) !! n = Some nd'
                /\ rbLeft nd' = rbLeft nd /\ rbRight nd' = rbRight nd).
    { intros n nd Hn1 Hn2 Hn3 Hnd.
      rewrite !list_lookup_insert_ne by done. rewrite Hsame by done. by eexists. }
    split; [|split; [|split; [|split; [|split]]]].
    + econstructor; rcbn.
      * apply list_lookup_insert_eq. by rewrite !length_insert.
      * rcbn. econstructor.
        -- rcbn. rewrite !list_lookup_insert_ne by done.
           apply list_lookup_insert_eq. by rewrite !length_insert.
        -- rcbn. eapply Hout; [exact Ha|exact Hina|]. exact Hother.
        -- rcbn. eapply Hout; [exact Hb|exact Hinb|]. exact Hother.
      * rcbn. eapply Hout; [exact Hc|exact Hinc|]. exact Hother.
    + apply list_lookup_insert_eq. by rewrite !length_insert.
    + rewrite !list_lookup_insert_ne by done.
      apply list_lookup_insert_eq. by rewrite !length_insert.
    + done.
    + destruct (rbParent pn) as [pa|]; [|done]. destruct Hlink as [Hbl Hlink].
      split; [done|]. intros pan Hpan.
      rewrite !list_lookup_insert_ne by congruence. by apply Hlink.
    + intros n Hn1 Hn2 Hn3 Hn4.
      rewrite !list_lookup_insert_ne by congruence. by apply Hsame.
Qed.

(** Property X17.  [rbRotateRight] at [p] with left child [q] turns the
    subtree [(a q b) p c] into [a q (b p c)]; the link that led to [p] now
    leads to [q], the parent links of [q], [p] and the root of [b] follow,
    and no other node changes. *)
Theorem rbRotateRight_reshapes (p q : nat) (h : Heap) (a b c : tree) (pn qn : Node) :
  shape h (Some p) (Tr (Tr a q b) p c) ->
  NoDup (inorder (Tr (Tr a q b) p c)) ->
  nodes h !! p = Some pn -> nodes h !! q = Some qn ->
  match rbParent pn with
  | Some pa => (pa ∉ inorder (Tr (Tr a q b) p c)) /\ pa < length (nodes h)
  | None => is_Some (beachline h)
  end ->
  exists h', rbRotateRight p h = (h', Ret tt)
    /\ shape h' (Some q) (Tr a q (Tr b p c))
    /\ nodes h' !! q = Some (mkNode (rbParent pn) (rbLeft qn) (Some p)
                               (rbPrevious qn) (rbNext qn) (rbRed qn))
    /\ nodes h' !! p = Some (mkNode (Some q) (rbRight qn) (rbRight pn)
                               (rbPrevious pn) (rbNext pn) (rbRed pn))
    /\ (forall x xn, rbRight qn = Some x -> nodes h !! x = Some xn ->
          nodes h' !! x = Some (mkNode (Some p) (rbLeft xn) (rbRight xn)
                                  (rbPrevious xn) (rbNext xn) (rbRed xn)))
    /\ match rbParent pn with
       | Some pa =>
           beachline h' = beachline h
           /\ forall pan, nodes h !! pa = Some pan ->
                nodes h' !! pa
                = Some (if decide (rbLeft pan = Some p)
                        then mkNode (rbParent pan) (Some q) (rbRight pan)
                               (rbPrevious pan) (rbNext pan) (rbRed pan)
                        else mkNode (rbParent pan) (rbLeft pan) (Some q)
                               (rbPrevious pan) (rbNext pan) (rbRed pan))
       | None => beachline h' = Some (mkRBTree (Some q))
       end
    /\ (forall n, n <> p -> n <> q -> Some n <> rbParent pn -> Some n <> rbRight qn ->
          nodes h' !! n = nodes h !! n).
Proof.
  intros Hs Hnd Hp Hqn Hpa.
  inversion Hs as [|? pn' ? ? Hp' Hq Hc]; subst.
  assert (pn' = pn) as -> by congruence. clear Hp'.
  inversion Hq as [|? qn' ? ? Hqn' Ha Hb Hql]; subst.
  assert (qn' = qn) as -> by congruence. clear Hqn'.
  assert (Hmem : forall n, n ∈ inorder (Tr (Tr a q b) p c)
            <-> n ∈ inorder a \/ n = q \/ n ∈ inorder b \/ n = p \/ n ∈ inorder c).
  { intros n. cbn. rewrite !elem_of_app, !elem_of_cons. tauto. }
  cbn in Hnd. apply NoDup_app in Hnd as (Hnd & Habc & Hndpc).
  apply NoDup_cons in Hndpc as (Hpc & Hndc).
  apply NoDup_app in Hnd as (Hnda & Hab & Hndb).
  apply NoDup_cons in Hndb as (Hqb & Hndb).
  assert (Hpq : p <> q).
  { intros E. apply (Habc q); [rewrite elem_of_app, elem_of_cons; auto|].
    rewrite E. by left. }
  unfold rbRotateRight. rewrite (rb_bind_getNode _ _ _ _ Hp). rstep.
  destruct (replaceChild_run (rbParent pn) p (rbLeft pn) h) as (h0 & Hrun & Hl0 & Hsame & Hlink).
  { destruct (rbParent pn); tauto. }
  rewrite (rb_bind_Ret _ _ _ _ _ Hrun). clear Hrun.
  rewrite <- Hql in *. cbn [deref]. rstep.
  assert (Hpin : forall n, n ∈ inorder (Tr (Tr a q b) p c) -> Some n <> rbParent pn).
  { intros n Hn E. rewrite <- E in Hpa. by destruct Hpa as [Hpa _]. }
  assert (Hpp : Some p <> rbParent pn) by (apply Hpin, Hmem; auto).
  assert (Hqp : Some q <> rbParent pn) by (apply Hpin, Hmem; auto).
  assert (Hp0 : nodes h0 !! p = Some pn) by (by rewrite Hsame).
  assert (Hq0 : nodes h0 !! q = Some qn) by (by rewrite Hsame).
  assert (Hpl : p < length (nodes h0)) by (by eapply lookup_lt_Some).
  assert (Hqlen : q < length (nodes h0)) by (by eapply lookup_lt_Some).
  unfold setParent, setRight, setLeft.
  erewrite rb_bind_update by rlook. rstep. rcbn.
  erewrite rb_bind_update by rlook. rstep. rcbn.
  erewrite rb_bind_getNode by rlook. rstep. rcbn.
  erewrite rb_bind_update by rlook. rstep. rcbn.
  erewrite rb_bind_getNode by rlook. rstep. rcbn.
  rewrite list_insert_insert_eq.
  assert (Hout : forall t y, shape h y t ->
            (forall n, n ∈ inorder t -> n <> p /\ n <> q /\ Some n <> rbParent pn) ->
            forall h', (forall n nd, n <> p -> n <> q -> Some n <> rbParent pn ->
                          nodes h !! n = Some nd ->
                          exists nd', nodes h' !! n = Some nd'
                            /\ rbLeft nd' = rbLeft nd /\ rbRight nd' = rbRight nd) ->
            shape h' y t).
  { intros t y Hy Hn h' Hh'. eapply shape_frame; [done|].
    intros n nd Hin. destruct (Hn n Hin) as (? & ? & ?). by apply Hh'. }
  assert (Hina : forall n, n ∈ inorder a -> n <> p /\ n <> q /\ Some n <> rbParent pn).
  { intros n Hn. repeat split.
    - intros E. apply (Habc n); [rewrite elem_of_app; auto|]. rewrite E. by left.
    - intros E. apply (Hab n); [done|]. rewrite E. by left.
    - apply Hpin, Hmem. auto. }
  assert (Hinb : forall n, n ∈ inorder b -> n <> p /\ n <> q /\ Some n <> rbParent pn).
  { intros n Hn. repeat split.
    - intros E. apply (Habc n); [rewrite elem_of_app, elem_of_cons; auto|].
      rewrite E. by left.
    - intros E. by rewrite E in Hn.
    - apply Hpin, Hmem. auto. }
  assert (Hinc : forall n, n ∈ inorder c -> n <> p /\ n <> q /\ Some n <> rbParent pn).
  { intros n Hn. repeat split.
    - intros E. by rewrite E in Hn.
    - intros E. apply (Habc q); [rewrite elem_of_app, elem_of_cons; auto|].
      rewrite <- E. by right.
    - apply Hpin, Hmem. auto 6. }
  destruct (rbRight qn) as [x|] eqn:Hx.
  - assert (Hxb : x ∈ inorder b).
    { apply shape_root in Hb. destruct b; [done|]. injection Hb as ->. cbn.
      rewrite elem_of_app, elem_of_cons. auto. }
    destruct (Hinb x Hxb) as (Hxp & Hxq & Hxpa).
    destruct (shape_stored _ _ _ _ Hb Hxb) as [xn Hxn].
    assert (Hx0 : nodes h0 !! x = Some xn) by (by rewrite Hsame).
    erewrite rb_bind_update by rlook. rstep. rcbn.
    erewrite update_Some by rlook. rcbn.
    eexists. split; [done|]. rcbn.
    assert (Hother : forall n nd, n <> p -> n <> q -> Some n <> rbParent pn ->
              nodes h !! n = Some nd ->
              exists nd',
                <[q:=mkNode (rbParent pn) (rbLeft qn) (Some p) (rbPrevious qn)
                      (rbNext qn) (rbRed qn)]>
                  (<[x:=mkNode (Some p) (rbLeft xn) (rbRight xn) (rbPrevious xn)
                        (rbNext xn) (rbRed xn)]>
                     (<[p:=mkNode (Some q) (Some x) (rbRight pn) (rbPrevious pn)
                           (rbNext pn) (rbRed pn)]>
                        (<[q:=mkNode (rbParent pn) (rbLeft qn) (Some x) (rbPrevious qn)
                              (rbNext qn) (rbRed qn)]> (nodes h0)))) !! n = Some nd'
                /\ rbLeft nd' = rbLeft nd /\ rbRight nd' = rbRight nd).
    { intros n nd Hn1 Hn2 Hn3 Hnd.
      rewrite list_lookup_insert_ne by done.
      destruct (decide (n = x)) as [->|Hnx].
      - rewrite list_lookup_insert_eq by (by rewrite !length_insert; eapply lookup_lt_Some).
        assert (nd = xn) as -> by congruence. by eexists.
      - rewrite !list_lookup_insert_ne by done. rewrite Hsame by done. by eexists. }
    split; [|split; [|split; [|split; [|split]]]].
    + econstructor; rcbn.
      * apply list_lookup_insert_eq. by rewrite !length_insert.
      * rcbn. eapply Hout; [exact Ha|exact Hina|]. exact Hother.
      * rcbn. econstructor.
        -- rcbn. rewrite !list_lookup_insert_ne by done.
           apply list_lookup_insert_eq. by rewrite !length_insert.
        -- rcbn. eapply Hout; [exact Hb|exact Hinb|]. exact Hother.
        -- rcbn. eapply Hout; [exact Hc|exact Hinc|]. exact Hother.
    + apply list_lookup_insert_eq. by rewrite !length_insert.
    + rewrite !list_lookup_insert_ne by done.
      apply list_lookup_insert_eq. by rewrite !length_insert.
    + intros x' xn' [= <-] Hxn'. assert (xn' = xn) as -> by congruence.
      rewrite list_lookup_insert_ne by done.
      apply list_lookup_insert_eq. rewrite !length_insert. by eapply lookup_lt_Some.
    + destruct (rbParent pn) as [pa|]; [|done]. destruct Hlink as [Hbl Hlink].
      split; [done|]. intros pan Hpan.
      rewrite !list_lookup_insert_ne by congruence. by apply Hlink.
    + intros n Hn1 Hn2 Hn3 Hn4.
      rewrite !list_lookup_insert_ne by congruence. by apply Hsame.
  - rstep. erewrite update_Some by rlook. rcbn.
    eexists. split; [done|]. rcbn.
    assert (Hother : forall n nd, n <> p -> n <> q -> Some n <> rbParent pn ->
              nodes h !! n = Some nd ->
              exists nd',
                <[q:=mkNode (rbParent pn) (rbLeft qn) (Some p) (rbPrevious qn)
                      (rbNext qn) (rbRed qn)]>
                     (<[p:=mkNode (Some q) None (rbRight pn) (rbPrevious pn)
                           (rbNext pn) (rbRed pn)]>
                        (<[q:=mkNode (rbParent pn) (rbLeft qn) None (rbPrevious qn)
                              (rbNext qn) (rbRed qn)]> (nodes h0))) !! n = Some nd'
                /\ rbLeft nd' = rbLeft nd /\ rbRight nd' = rbRight nd).
    { intros n nd Hn1 Hn2 Hn3 Hnd.
      rewrite !list_lookup_insert_ne by done. rewrite Hsame by done. by eexists. }
    split; [|split; [|split; [|split; [|split]]]].
    + econstructor; rcbn.
      * apply list_lookup_insert_eq. by rewrite !length_insert.
      * rcbn. eapply Hout; [exact Ha|exact Hina|]. exact Hother.
      * rcbn. econstructor.
        -- rcbn. rewrite !list_lookup_insert_ne by done.
           apply list_lookup_insert_eq. by rewrite !length_insert.
        -- rcbn. eapply Hout; [exact Hb|exact Hinb|]. exact Hother.
        -- rcbn. eapply Hout; [exact Hc|exact Hinc|]. exact Hother.
    + apply list_lookup_insert_eq. by rewrite !length_insert.
    + rewrite !list_lookup_insert_ne by done.
      apply list_lookup_insert_eq. by rewrite !length_insert.
    + done.
    + destruct (rbParent pn) as [pa|]; [|done]. destruct Hlink as [Hbl Hlink].
      split; [done|]. intros pan Hpan.
      rewrite !list_lookup_insert_ne by congruence. by apply Hlink.
    + intros n Hn1 Hn2 Hn3 Hn4.
      rewrite !list_lookup_insert_ne by congruence. by apply Hsame.
Qed.

Lemma sameList_removeLoop fuel node parent : keeps sameList (removeLoop fuel node parent).
Proof.
  revert node parent. induction fuel as [|fuel IH]; intros node parent; cbn [removeLoop];
    unfold setRed; listkeep;
    try apply sameList_rbRotateLeft; try apply sameList_rbRotateRight; listkeep;
    try apply IH; apply sameList_replaceChild.
Qed.

(** Property X18.  [rbRemoveNode] unlinks the node from the doubly linked
    list, whatever the outcome of the tree surgery that follows: its
    neighbours are linked to each other, its own two links are null, and no
    other [rbPrevious] or [rbNext] changes. *)
Theorem rbRemoveNode_unlinks (fuel node : nat) (h h' : Heap) (o : outcome unit) (nd : Node) :
  nodes h !! node = Some nd ->
  rbNext nd <> Some node -> rbPrevious nd <> Some node ->
  (forall k, rbNext nd = Some k \/ rbPrevious nd = Some k -> k < length (nodes h)) ->
  rbRemoveNode fuel node h = (h', o) ->
  length (nodes h') = length (nodes h)
  /\ forall k x, nodes h !! k = Some x ->
       exists x', nodes h' !! k = Some x'
         /\ rbPrevious x' = (if decide (k = node) then None
                             else if decide (rbNext nd = Some k) then rbPrevious nd
                             else rbPrevious x)
         /\ rbNext x' = (if decide (k = node) then None
                         else if decide (rbPrevious nd = Some k) then rbNext nd
                         else rbNext x).
Proof.
  intros Hn Hnx Hpv Hin.
  assert (Hend : forall h1 (m : H unit),
    keeps sameList m -> length (nodes h1) = length (nodes h) ->
    (forall k x, nodes h !! k = Some x ->
       exists x1, nodes h1 !! k = Some x1
         /\ rbPrevious x1 = (if decide (k = node) then None
                             else if decide (rbNext nd = Some k) then rbPrevious nd
                             else rbPrevious x)
         /\ rbNext x1 = (if decide (k = node) then None
                         else if decide (rbPrevious nd = Some k) then rbNext nd
                         else rbNext x)) ->
    m h1 = (h', o) ->
    length (nodes h') = length (nodes h)
    /\ forall k x, nodes h !! k = Some x ->
       exists x', nodes h' !! k = Some x'
         /\ rbPrevious x' = (if decide (k = node) then None
                             else if decide (rbNext nd = Some k) then rbPrevious nd
                             else rbPrevious x)
         /\ rbNext x' = (if decide (k = node) then None
                         else if decide (rbPrevious nd = Some k) then rbNext nd
                         else rbNext x)).
  { intros h1 m Hm Hlen H1 Hrun. apply Hm in Hrun as [Hl Hlinks].
    split; [congruence|]. intros k x Hk.
    destruct (H1 k x Hk) as (x1 & Hx1 & Hp1 & Hn1).
    destruct (Hlinks k) as [Hpk Hnk]. rewrite Hx1 in Hpk, Hnk.
    destruct (nodes h' !! k) as [x'|]; [|done]. exists x'.
    cbn in Hpk, Hnk. split; [done|]. split; congruence. }
  assert (Hnl : node < length (nodes h)) by (by eapply lookup_lt_Some).
  assert (Htail : forall nd0, keeps sameList
    (let parent := rbParent nd0 in
     let left := rbLeft nd0 in
     let right := rbRight nd0 in
     let* next :=
       match left, right with
       | None, _ => ret right
       | Some _, None => ret left
       | Some _, Some r => let* f := getFirst fuel r in ret (Some f)
       end in
     do* replaceChild parent node next in
     let* st :=
       match left, right with
       | Some l, Some r =>
           let* nx := deref next in
           let* nxn := getNode nx in
           let red := rbRed nxn in
           let* nd := getNode node in
           do* setRed nx (rbRed nd) in
           do* setLeft nx left in
           do* setParent l (Some nx) in
           if decide (nx <> r) then
             let* nxn := getNode nx in
             let parent := rbParent nxn in
             let* nd := getNode node in
             do* setParent nx (rbParent nd) in
             let* nxn := getNode nx in
             let node' := rbRight nxn in
             let* p := deref parent in
             do* setLeft p node' in
             do* setRight nx right in
             do* setParent r (Some nx) in
             ret (red, node', parent)
           else
             do* setParent nx parent in
             let* nxn := getNode nx in
             ret (red, rbRight nxn, Some nx)
       | _, _ =>
           let* nd := getNode node in
           ret (rbRed nd, next, parent)
       end in
     let red := st.1.1 in
     let node' := st.1.2 in
     let parent' := st.2 in
     do* (match node' with
          | Some n => setParent n parent'
          | None => ret tt
          end) in
     if red then ret tt
     else
       let* nred := isRed node' in
       if nred then
         let* n := deref node' in
         setRed n false
       else
         let* final := removeLoop fuel node' parent' in
         match final with
         | Some n => setRed n false
         | None => ret tt
         end)).
  { intros nd0. cbn zeta. unfold setRed, setLeft, setRight, setParent.
    listkeep; try apply sameList_replaceChild; try apply sameList_removeLoop. }
  unfold rbRemoveNode. rewrite (rb_bind_getNode _ _ _ _ Hn).
  unfold setPrevious, setNext.
  assert (Hfin : forall h1,
    length (nodes h1) = length (nodes h) ->
    (forall k x, nodes h !! k = Some x ->
       exists x1, nodes h1 !! k = Some x1
         /\ rbPrevious x1 = (if decide (k = node) then None
                             else if decide (rbNext nd = Some k) then rbPrevious nd
                             else rbPrevious x)
         /\ rbNext x1 = (if decide (k = node) then None
                         else if decide (rbPrevious nd = Some k) then rbNext nd
                         else rbNext x)) ->
    forall m : H unit, (exists f, m = bind (getNode node) f /\ forall nd0, keeps sameList (f nd0)) ->
    m h1 = (h', o) ->
    length (nodes h') = length (nodes h)
    /\ forall k x, nodes h !! k = Some x ->
       exists x', nodes h' !! k = Some x'
         /\ rbPrevious x' = (if decide (k = node) then None
                             else if decide (rbNext nd = Some k) then rbPrevious nd
                             else rbPrevious x)
         /\ rbNext x' = (if decide (k = node) then None
                         else if decide (rbPrevious nd = Some k) then rbNext nd
                         else rbNext x)).
  { intros h1 Hl1 H1 m (f & -> & Hf). apply Hend; [|done..].
    apply (keeps_bind _ sameList_trans); [|done].
    apply (keeps_getNode _ sameList_refl sameList_trans). }
  destruct (rbNext nd) as [nx|] eqn:Hnext; destruct (rbPrevious nd) as [pv|] eqn:Hprev.
  - assert (Hnxl : nx < length (nodes h)) by (apply Hin; auto).
    assert (Hpvl : pv < length (nodes h)) by (apply Hin; auto).
    destruct (lookup_lt_is_Some_2 _ _ Hnxl) as [xn Hxn].
    destruct (lookup_lt_is_Some_2 _ _ Hpvl) as [xp Hxp].
    assert (nx <> node) by congruence. assert (pv <> node) by congruence.
    erewrite rb_bind_update by rlook. rstep. rcbn.
    erewrite rb_bind_getNode by rlook. rstep. rcbn. rewrite ?Hnext, ?Hprev.
    destruct (decide (pv = nx)) as [->|Hpn].
    + erewrite rb_bind_update by rlook. rstep. rcbn.
      erewrite rb_bind_update by rlook. rstep. rcbn.
      erewrite rb_bind_update by rlook. rstep. rcbn.
      match goal with |- ?m ?h1 = _ -> _ => apply (Hfin h1) end.
      * cbn. by rewrite !length_insert.
      * intros k x Hk. cbn [nodes].
        destruct (decide (k = node)) as [->|Hkn].
        { rewrite list_lookup_insert_eq by (by rewrite !length_insert). by eexists. }
        rewrite !(list_lookup_insert_ne _ node) by done.
        destruct (decide (k = nx)) as [->|Hkx].
        { rewrite list_lookup_insert_eq by (by rewrite !length_insert).
          rewrite !decide_True by done. by eexists. }
        rewrite !list_lookup_insert_ne by done.
        rewrite !decide_False by congruence. by eexists.
      * eexists. split; [reflexivity|]. exact Htail.
    + erewrite rb_bind_update by rlook. rstep. rcbn.
      erewrite rb_bind_update by rlook. rstep. rcbn.
      erewrite rb_bind_update by rlook. rstep. rcbn.
      match goal with |- ?m ?h1 = _ -> _ => apply (Hfin h1) end.
      * cbn. by rewrite !length_insert.
      * intros k x Hk. cbn [nodes].
        destruct (decide (k = node)) as [->|Hkn].
        { rewrite list_lookup_insert_eq by (by rewrite !length_insert). by eexists. }
        rewrite !(list_lookup_insert_ne _ node) by done.
        destruct (decide (k = pv)) as [->|Hkp].
        { rewrite list_lookup_insert_eq by (by rewrite !length_insert).
          rewrite decide_False by congruence. rewrite decide_True by done.
          assert (x = xp) as -> by congruence. by eexists. }
        rewrite (list_lookup_insert_ne _ pv) by done.
        destruct (decide (k = nx)) as [->|Hkx].
        { rewrite list_lookup_insert_eq by done.
          rewrite decide_True by done. rewrite decide_False by congruence.
          assert (x = xn) as -> by congruence. by eexists. }
        rewrite !list_lookup_insert_ne by done.
        rewrite !decide_False by congruence. by eexists.
      * eexists. split; [reflexivity|]. exact Htail.
  - assert (Hnxl : nx < length (nodes h)) by (apply Hin; auto).
    destruct (lookup_lt_is_Some_2 _ _ Hnxl) as [xn Hxn].
    assert (nx <> node) by congruence.
    erewrite rb_bind_update by rlook. rstep. rcbn.
    erewrite rb_bind_getNode by rlook. rstep. rcbn. rewrite ?Hnext, ?Hprev.
    rstep.
    erewrite rb_bind_update by rlook. rstep. rcbn.
    erewrite rb_bind_update by rlook. rstep. rcbn.
    match goal with |- ?m ?h1 = _ -> _ => apply (Hfin h1) end.
    + cbn. by rewrite !length_insert.
    + intros k x Hk. cbn [nodes].
      destruct (decide (k = node)) as [->|Hkn].
      { rewrite list_lookup_insert_eq by (by rewrite !length_insert). by eexists. }
      rewrite !(list_lookup_insert_ne _ node) by done.
      destruct (decide (k = nx)) as [->|Hkx].
      { rewrite list_lookup_insert_eq by done.
        rewrite decide_True by done.
        assert (x = xn) as -> by congruence. by eexists. }
      rewrite !list_lookup_insert_ne by done.
      rewrite !decide_False by congruence. by eexists.
    + eexists. split; [reflexivity|]. exact Htail.
  - assert (Hpvl : pv < length (nodes h)) by (apply Hin; auto).
    destruct (lookup_lt_is_Some_2 _ _ Hpvl) as [xp Hxp].
    assert (pv <> node) by congruence.
    rstep.
    erewrite rb_bind_getNode by rlook. rstep. rcbn. rewrite ?Hnext, ?Hprev.
    erewrite rb_bind_update by rlook. rstep. rcbn.
    erewrite rb_bind_update by rlook. rstep. rcbn.
    erewrite rb_bind_update by rlook. rstep. rcbn.
    match goal with |- ?m ?h1 = _ -> _ => apply (Hfin h1) end.
    + cbn. by rewrite !length_insert.
    + intros k x Hk. cbn [nodes].
      destruct (decide (k = node)) as [->|Hkn].
      { rewrite list_lookup_insert_eq by (by rewrite !length_insert). by eexists. }
      rewrite !(list_lookup_insert_ne _ node) by done.
      destruct (decide (k = pv)) as [->|Hkp].
      { rewrite list_lookup_insert_eq by done.
        rewrite decide_False by done. rewrite decide_True by done.
        assert (x = xp) as -> by congruence. by eexists. }
      rewrite !list_lookup_insert_ne by done.
      rewrite !decide_False by congruence. by eexists.
    + eexists. split; [reflexivity|]. exact Htail.
  - rstep.
    erewrite rb_bind_getNode by rlook. rstep. rcbn. rewrite ?Hnext, ?Hprev.
    rstep.
    erewrite rb_bind_update by rlook. rstep. rcbn.
    erewrite rb_bind_update by rlook. rstep. rcbn.
    match goal with |- ?m ?h1 = _ -> _ => apply (Hfin h1) end.
    + cbn. by rewrite !length_insert.
    + intros k x Hk. cbn [nodes].
      destruct (decide (k = node)) as [->|Hkn].
      { rewrite list_lookup_insert_eq by (by rewrite !length_insert). by eexists. }
      rewrite !(list_lookup_insert_ne _ node) by done.
      by eexists.
    + eexists. split; [reflexivity|]. exact Htail.
Qed.

Lemma rbInsertSuccessor_first_witness :
  nodes emptyHeap !! 0 = Some (mkNode None None None None None false)
  /\ rbInsertSuccessor 0 None 0 emptyHeap
     = (mkHeap [mkNode None None None None None false] (Some (mkRBTree (Some 0))),
        Ret tt).
Proof.
  assert (H1 : nodes emptyHeap !! 0 = Some (mkNode None None None None None false))
    by reflexivity.
  split; [exact H1|].
  exact (rbInsertSuccessor_first 0 0 emptyHeap _ H1).
Defined.

Lemma rbInsertSuccessor_splices_witness :
  let r := rbInsertSuccessor 2 (Some 0) 3 threeNodeHeap in
  nodes threeNodeHeap !! 0 = Some (mkNode (Some 1) None None None (Some 1) true)
  /\ nodes threeNodeHeap !! 3 = Some (mkNode None None None None None false)
  /\ 3 <> 0
  /\ Some 1 <> Some 3
  /\ length (nodes r.1) = length (nodes threeNodeHeap)
  /\ forall k x, nodes threeNodeHeap !! k = Some x ->
       exists x', nodes r.1 !! k = Some x'
         /\ rbNext x' = (if decide (k = 3) then Some 1
                         else if decide (k = 0) then Some 3
                         else rbNext x)
         /\ rbPrevious x' = (if decide (k = 3) then Some 0
                             else if decide (Some 1 = Some k) then Some 3
                             else rbPrevious x).
Proof.
  assert (H1 : nodes threeNodeHeap !! 0
               = Some (mkNode (Some 1) None None None (Some 1) true)) by reflexivity.
  assert (H2 : nodes threeNodeHeap !! 3
               = Some (mkNode None None None None None false)) by reflexivity.
  assert (H3 : 3 <> 0) by discriminate.
  assert (H4 : Some 1 <> Some 3) by discriminate.
  assert (H5 : forall nx, Some 1 = Some nx -> nx < length (nodes threeNodeHeap)).
  { intros nx [= <-]. simpl. lia. }
  split; [exact H1|]. split; [exact H2|]. split; [exact H3|]. split; [exact H4|].
  exact (rbInsertSuccessor_splices 2 0 3 threeNodeHeap _ _ _ _ H1 H2 H3 H4 H5
           (surjective_pairing _)).
Defined.

Lemma threeNodeHeap_shape : shape threeNodeHeap (Some 1) threeNodeTree.
Proof.
  eapply shape_node; [reflexivity| |]; simpl;
    (eapply shape_node; [reflexivity| |]; simpl; apply shape_leaf).
Defined.

Lemma getFirst_getLast_ends_witness :
  shape threeNodeHeap (Some 1) threeNodeTree
  /\ height threeNodeTree <= 2
  /\ exists a b front back,
       getFirst 2 1 threeNodeHeap = (threeNodeHeap, Ret a)
       /\ getLast 2 1 threeNodeHeap = (threeNodeHeap, Ret b)
       /\ inorder threeNodeTree = a :: back /\ inorder threeNodeTree = front ++ [b].
Proof.
  assert (H2 : height threeNodeTree <= 2) by (simpl; lia).
  split; [exact threeNodeHeap_shape|]. split; [exact H2|].
  exact (getFirst_getLast_ends 2 1 threeNodeHeap threeNodeTree threeNodeHeap_shape H2).
Defined.

Lemma threeNodeTree_NoDup : NoDup (inorder threeNodeTree).
Proof. apply (bool_decide_unpack _). vm_compute. exact I. Defined.

Lemma rbRotateLeft_reshapes_witness :
  shape threeNodeHeap (Some 1) (Tr (Tr Leaf 0 Leaf) 1 (Tr Leaf 2 Leaf))
  /\ NoDup (inorder (Tr (Tr Leaf 0 Leaf) 1 (Tr Leaf 2 Leaf)))
  /\ is_Some (beachline threeNodeHeap)
  /\ exists h',
       rbRotateLeft 1 threeNodeHeap = (h', Ret tt)
       /\ shape h' (Some 2) (Tr (Tr (Tr Leaf 0 Leaf) 1 Leaf) 2 Leaf)
       /\ nodes h' !! 2 = Some (mkNode None (Some 1) None (Some 1) None true)
       /\ nodes h' !! 1 = Some (mkNode (Some 2) (Some 0) None (Some 0) (Some 2) false)
       /\ (forall x xn, None = Some x -> nodes threeNodeHeap !! x = Some xn ->
             nodes h' !! x = Some (mkNode (Some 1) (rbLeft xn) (rbRight xn)
                                     (rbPrevious xn) (rbNext xn) (rbRed xn)))
       /\ beachline h' = Some (mkRBTree (Some 2))
       /\ (forall n, n <> 1 -> n <> 2 -> Some n <> None -> Some n <> None ->
             nodes h' !! n = nodes threeNodeHeap !! n).
Proof.
  assert (H3 : is_Some (beachline threeNodeHeap)) by (by eexists).
  split; [exact threeNodeHeap_shape|]. split; [exact threeNodeTree_NoDup|].
  split; [exact H3|].
  exact (rbRotateLeft_reshapes 1 2 threeNodeHeap (Tr Leaf 0 Leaf) Leaf Leaf _ _
           threeNodeHeap_shape threeNodeTree_NoDup eq_refl eq_refl H3).
Defined.

Lemma rbRotateRight_reshapes_witness :
  shape threeNodeHeap (Some 1) (Tr (Tr Leaf 0 Leaf) 1 (Tr Leaf 2 Leaf))
  /\ NoDup (inorder (Tr (Tr Leaf 0 Leaf) 1 (Tr Leaf 2 Leaf)))
  /\ is_Some (beachline threeNodeHeap)
  /\ exists h',
       rbRotateRight 1 threeNodeHeap = (h', Ret tt)
       /\ shape h' (Some 0) (Tr Leaf 0 (Tr Leaf 1 (Tr Leaf 2 Leaf)))
       /\ nodes h' !! 0 = Some (mkNode None None (Some 1) None (Some 1) true)
       /\ nodes h' !! 1 = Some (mkNode (Some 0) None (Some 2) (Some 0) (Some 2) false)
       /\ (forall x xn, None = Some x -> nodes threeNodeHeap !! x = Some xn ->
             nodes h' !! x = Some (mkNode (Some 1) (rbLeft xn) (rbRight xn)
                                     (rbPrevious xn) (rbNext xn) (rbRed xn)))
       /\ beachline h' = Some (mkRBTree (Some 0))
       /\ (forall n, n <> 1 -> n <> 0 -> Some n <> None -> Some n <> None ->
             nodes h' !! n = nodes threeNodeHeap !! n).
Proof.
  assert (H3 : is_Some (beachline threeNodeHeap)) by (by eexists).
  split; [exact threeNodeHeap_shape|]. split; [exact threeNodeTree_NoDup|].
  split; [exact H3|].
  exact (rbRotateRight_reshapes 1 0 threeNodeHeap Leaf Leaf (Tr Leaf 2 Leaf) _ _
           threeNodeHeap_shape threeNodeTree_NoDup eq_refl eq_refl H3).
Defined.

Lemma rbRemoveNode_unlinks_witness :
  let r := rbRemoveNode 2 1 threeNodeHeap in
  nodes threeNodeHeap !! 1 = Some (mkNode None (Some 0) (Some 2) (Some 0) (Some 2) false)
  /\ Some 2 <> Some 1 /\ Some 0 <> Some 1
  /\ length (nodes r.1) = length (nodes threeNodeHeap)
  /\ forall k x, nodes threeNodeHeap !! k = Some x ->
       exists x', nodes r.1 !! k = Some x'
         /\ rbPrevious x' = (if decide (k = 1) then None
                             else if decide (Some 2 = Some k) then Some 0
                             else rbPrevious x)
         /\ rbNext x' = (if decide (k = 1) then None
                         else if decide (Some 0 = Some k) then Some 2
                         else rbNext x).
Proof.
  assert (H1 : nodes threeNodeHeap !! 1
               = Some (mkNode None (Some 0) (Some 2) (Some 0) (Some 2) false))
    by reflexivity.
  assert (H2 : Some 2 <> Some 1) by discriminate.
  assert (H3 : Some 0 <> Some 1) by discriminate.
  assert (H4 : forall k, Some 2 = Some k \/ Some 0 = Some k ->
                 k < length (nodes threeNodeHeap)).
  { intros k [[= <-]|[= <-]]; simpl; lia. }
  split; [exact H1|]. split; [exact H2|]. split; [exact H3|].
  exact (rbRemoveNode_unlinks 2 1 threeNodeHeap _ _ _ H1 H2 H3 H4 (surjective_pairing _)).
Defined.
